(** * Titanic preprocessing pipeline: a shallow embedding

    Source: [preprocessing/automate_Farrel-Paksi-Aditya.py].

    The script threads one pandas [DataFrame] through five functions
    ([load_data], [handle_missing_values], [feature_engineering],
    [encoding], [scaling]) and writes it back with [save_data].  Tables
    are Python objects: a function receives a reference, copies the
    object it points to and then assigns columns of the copy in place.
    The embedding therefore has two layers:

    - pure column and table operations (what each pandas call computes),
    - the functions of the script, written in a state-and-exception
      monad over a store of table objects, a file system and the
      console, statement by statement as in the source. *)

From Stdlib Require Import Rdefinitions RIneq Rbasic_fun Rpower Qreals.
From Stdlib Require Import QArith Qabs Qround Sorted Lqa.
From Stdlib Require Lra.
From Stdlib Require Import Ascii String.
From stdpp Require Import gmap strings list pretty.

Local Open Scope string_scope.

(** ** Data model *)

(** One value of a column, as Python sees it: the missing marker
    ([NaN]), a finite number, or a piece of text. *)
Inductive cell :=
| NaN
| Num (q : Q)
| Str (s : string).

(** A column.  [NumCol] is a numeric dtype (int64, float64): finite
    numbers, with [None] for NaN.  [ObjCol] is dtype [object] as
    [read_csv] produces it: text, with [None] for NaN. *)
Inductive Series :=
| NumCol (xs : list (option Q))
| ObjCol (xs : list (option string)).

(** A table: row labels and named columns in order.  An assignment
    [df[name] = ...] replaces a column in place or appends a new one. *)
Record DataFrame := mkDF {
  index : list nat;
  columns : list (string * Series)
}.

Definition cells (s : Series) : list cell :=
  match s with
  | NumCol xs => map (fun x => match x with Some q => Num q | None => NaN end) xs
  | ObjCol xs => map (fun x => match x with Some t => Str t | None => NaN end) xs
  end.

Definition is_nan (c : cell) : bool :=
  match c with NaN => true | _ => false end.

Definition Series_len (s : Series) : nat :=
  match s with
  | NumCol xs => length xs
  | ObjCol xs => length xs
  end.

(** [len(df)] *)
Definition nrows (df : DataFrame) : nat := length (index df).

Definition names (df : DataFrame) : list string := map fst (columns df).

(** [name in df.columns] *)
Definition has_col (name : string) (df : DataFrame) : bool :=
  existsb (String.eqb name) (names df).

Fixpoint assoc_get (name : string) (cs : list (string * Series)) : option Series :=
  match cs with
  | [] => None
  | (n, s) :: cs' => if String.eqb name n then Some s else assoc_get name cs'
  end.

(** [df[name]] *)
Definition get_col (name : string) (df : DataFrame) : option Series :=
  assoc_get name (columns df).

Fixpoint assoc_set (name : string) (s : Series) (cs : list (string * Series))
  : list (string * Series) :=
  match cs with
  | [] => [(name, s)]
  | (n, s0) :: cs' =>
      if String.eqb name n then (n, s) :: cs' else (n, s0) :: assoc_set name s cs'
  end.

(** [df[name] = s] *)
Definition set_col (name : string) (s : Series) (df : DataFrame) : DataFrame :=
  mkDF (index df) (assoc_set name s (columns df)).

(** [df.drop(columns=ns)], for names that are all present *)
Definition drop_cols (ns : list string) (df : DataFrame) : DataFrame :=
  mkDF (index df)
       (List.filter (fun c => negb (existsb (String.eqb (fst c)) ns)) (columns df)).

(** Every column is as long as the index, no name occurs twice and no
    row label occurs twice (what [read_csv] guarantees). *)
Definition wf (df : DataFrame) : bool :=
  forallb (fun c => Nat.eqb (Series_len (snd c)) (nrows df)) (columns df)
  && bool_decide (NoDup (names df))
  && bool_decide (NoDup (index df)).

(** ** Missing values *)

Definition isna {A} (x : option A) : bool :=
  match x with None => true | Some _ => false end.

Definition present {A} (xs : list (option A)) : list A := omap id xs.

(** [s.isnull()] *)
Definition Series_isnull (s : Series) : list bool :=
  match s with
  | NumCol xs => map isna xs
  | ObjCol xs => map isna xs
  end.

Definition count_true (bs : list bool) : nat := length (List.filter id bs).

(** [df.isnull().sum().sum()] *)
Definition isnull_sum_sum (df : DataFrame) : nat :=
  list_sum (map (fun c => count_true (Series_isnull (snd c))) (columns df)).

(** Keep the positions that the mask marks [true]. *)
Fixpoint filter_mask {A} (m : list bool) (xs : list A) : list A :=
  match m, xs with
  | b :: m', x :: xs' => if b then x :: filter_mask m' xs' else filter_mask m' xs'
  | _, _ => []
  end.

Definition Series_filter (m : list bool) (s : Series) : Series :=
  match s with
  | NumCol xs => NumCol (filter_mask m xs)
  | ObjCol xs => ObjCol (filter_mask m xs)
  end.

(** Row [k] has a value in every column. *)
Definition row_complete (df : DataFrame) (k : nat) : bool :=
  forallb (fun c => negb (default false (Series_isnull (snd c) !! k))) (columns df).

(** [df.dropna()]: the rows without any missing value, labels kept. *)
Definition dropna (df : DataFrame) : DataFrame :=
  let m := map (row_complete df) (seq 0 (nrows df)) in
  mkDF (filter_mask m (index df))
       (map (fun c => (fst c, Series_filter m (snd c))) (columns df)).

(** [s.fillna(v)].  A NaN fill value changes nothing.  The script only
    fills a column with a statistic of that same column, so the value
    has the column's type; any other combination is left as it is. *)
Definition Series_fillna (s : Series) (v : cell) : Series :=
  match s, v with
  | NumCol xs, Num q => NumCol (map (fun x => match x with None => Some q | _ => x end) xs)
  | ObjCol xs, Str t => ObjCol (map (fun x => match x with None => Some t | _ => x end) xs)
  | _, _ => s
  end.

(** ** Exceptions *)

(** The exceptions the script raises itself ([FileNotFoundError]) or
    lets through from pandas, NumPy and scikit-learn. *)
Inductive exn :=
| FileNotFoundError (msg : string)
| FileExistsError (path : string)
| IsADirectoryError (path : string)
| NotADirectoryError (path : string)
| ParserError
| KeyError (key : string)
| TypeError
| AttributeError
| ValueError.

Definition result (A : Type) : Type := exn + A.

Fixpoint mapM_result {A B} (f : A -> result B) (l : list A) : result (list B) :=
  match l with
  | [] => inr []
  | x :: l' =>
      match f x with
      | inl e => inl e
      | inr y =>
          match mapM_result f l' with
          | inl e => inl e
          | inr ys => inr (y :: ys)
          end
      end
  end.

(** [df[cs]] for a list of names *)
Definition get_cols (cs : list string) (d : DataFrame) : result (list Series) :=
  mapM_result (fun c => match get_col c d with
                        | Some s => inr s
                        | None => inl (KeyError c)
                        end) cs.

(** [df[cs] = X], column by column *)
Definition set_cols (cs : list string) (X : list Series) (d : DataFrame) : DataFrame :=
  foldl (fun d cx => set_col (fst cx) (snd cx) d) d (zip cs X).

(** ** Column statistics *)

Fixpoint insert_sorted (x : Q) (l : list Q) : list Q :=
  match l with
  | [] => [x]
  | y :: l' => if Qle_bool x y then x :: l else y :: insert_sorted x l'
  end.

Definition sort_Q (l : list Q) : list Q := foldr insert_sorted [] l.

(** Median of the values that are there: the middle one, or the mean of
    the two middle ones; NaN ([None]) when there is none. *)
Definition median (l : list Q) : option Q :=
  let s := sort_Q l in
  let n := length s in
  if Nat.eqb n 0 then None
  else if Nat.odd n then s !! (n / 2)%nat
  else a ← s !! (n / 2 - 1)%nat; b ← s !! (n / 2)%nat; Some ((a + b) / 2)%Q.

(** [s.median()]: NaN values are skipped; text cannot be averaged. *)
Definition Series_median (s : Series) : result cell :=
  match s with
  | NumCol xs => inr (match median (present xs) with Some q => Num q | None => NaN end)
  | ObjCol xs => if existsb (fun x => negb (isna x)) xs then inl TypeError else inr NaN
  end.

Definition occurrences {A} (eqb : A -> A -> bool) (x : A) (l : list A) : nat :=
  length (List.filter (eqb x) l).

Fixpoint minimum {A} (leb : A -> A -> bool) (l : list A) : option A :=
  match l with
  | [] => None
  | x :: l' =>
      match minimum leb l' with
      | None => Some x
      | Some y => if leb x y then Some x else Some y
      end
  end.

(** The values of highest frequency, as a set. *)
Definition modes {A} (eqb : A -> A -> bool) (l : list A) : list A :=
  let best := foldr (fun x acc => Nat.max (occurrences eqb x l) acc) 0%nat l in
  List.filter (fun x => Nat.eqb (occurrences eqb x l) best) l.

(** [s.mode()[0]]: [mode] skips NaN and returns the most frequent
    values in ascending order under a fresh 0-based index, so label [0]
    is the smallest of them; with no value at all the result is empty
    and the lookup of label [0] raises [KeyError]. *)
Definition Series_mode0 (s : Series) : result cell :=
  match s with
  | NumCol xs =>
      match minimum Qle_bool (modes Qeq_bool (present xs)) with
      | Some q => inr (Num q)
      | None => inl (KeyError "0")
      end
  | ObjCol xs =>
      match minimum String.leb (modes String.eqb (present xs)) with
      | Some t => inr (Str t)
      | None => inl (KeyError "0")
      end
  end.

(** ** Title extraction: the regular expression [' ([A-Za-z]+)\.'] *)

Definition is_letter (c : Ascii.ascii) : bool :=
  let n := Ascii.nat_of_ascii c in
  (Nat.leb 65 n && Nat.leb n 90) || (Nat.leb 97 n && Nat.leb n 122).

(** The longest prefix of letters, and what follows it. *)
Fixpoint take_letters (s : string) : string * string :=
  match s with
  | String c s' =>
      if is_letter c then
        let '(w, r) := take_letters s' in (String c w, r)
      else (EmptyString, s)
  | EmptyString => (EmptyString, EmptyString)
  end.

Fixpoint all_letters (s : string) : bool :=
  match s with
  | EmptyString => true
  | String c s' => is_letter c && all_letters s'
  end.

(** A match of [([A-Za-z]+)\.] at the head of [s].  The group is greedy
    and a shorter run of letters is followed by a letter, never by the
    period, so only the longest run can match. *)
Definition match_group (s : string) : option string :=
  match take_letters s with
  | (String c w, String "."%char _) => Some (String c w)
  | _ => None
  end.

(** [re.search]: the match that starts leftmost. *)
Fixpoint extract_title (s : string) : option string :=
  match s with
  | EmptyString => None
  | String c s' =>
      if Ascii.eqb c " "%char then
        match match_group s' with
        | Some t => Some t
        | None => extract_title s'
        end
      else extract_title s'
  end.

(** [s.str.extract(pattern, expand=False)]: the [.str] accessor exists
    on object columns only; NaN stays NaN, no match gives NaN. *)
Definition Series_str_extract (s : Series) : result (list (option string)) :=
  match s with
  | ObjCol xs => inr (map (fun x => x ≫= extract_title) xs)
  | NumCol _ => inl AttributeError
  end.

Definition title_mapping : list (string * string) :=
  [ ("Mr", "Mr");
    ("Miss", "Miss"); ("Mlle", "Miss"); ("Ms", "Miss");
    ("Mrs", "Mrs"); ("Mme", "Mrs");
    ("Master", "Master");
    ("Dr", "Rare"); ("Rev", "Rare"); ("Col", "Rare"); ("Major", "Rare");
    ("Lady", "Rare"); ("Countess", "Rare"); ("Jonkheer", "Rare");
    ("Don", "Rare"); ("Dona", "Rare"); ("Capt", "Rare"); ("Sir", "Rare") ].

Fixpoint dict_get (k : string) (d : list (string * string)) : option string :=
  match d with
  | [] => None
  | (k', v) :: d' => if String.eqb k k' then Some v else dict_get k d'
  end.

(** [s.map(d)]: a value that is not a key of [d] becomes NaN. *)
Definition map_dict (d : list (string * string)) (xs : list (option string))
  : list (option string) :=
  map (fun x => x ≫= fun k => dict_get k d) xs.

(** ** Column arithmetic: [df['SibSp'] + df['Parch'] + 1] *)

Definition add_opt (x y : option Q) : option Q :=
  a ← x; b ← y; Some (a + b)%Q.

Definition cat_opt (x y : option string) : option string :=
  a ← x; b ← y; Some (a ++ b).

(** Some row has a value on both sides. *)
Definition both_present {A B} (xs : list (option A)) (ys : list (option B)) : bool :=
  existsb id (zip_with (fun x y => negb (isna x) && negb (isna y)) xs ys).

(** A count: NaN, or a whole number of magnitude at most 2^51.  Sums of
    two counts and 1 stay below 2^53, where int64 and float64 both add
    without wrapping or rounding. *)
Definition is_count (x : option Q) : bool :=
  match x with
  | None => true
  | Some q => Qeq_bool q (inject_Z (Qfloor q)) && Qle_bool (Qabs q) (inject_Z (2 ^ 51))
  end.

(** [a + b], row by row.  A row with NaN on either side gives NaN.
    Numbers add, text concatenates, and a row with text on one side and
    a number on the other raises [TypeError].  Numbers add exactly: that
    is the sum pandas computes as long as it is a whole number below
    2^53 in magnitude; beyond that int64 wraps and float64 rounds. *)
Definition Series_add (a b : Series) : result Series :=
  match a, b with
  | NumCol xs, NumCol ys => inr (NumCol (zip_with add_opt xs ys))
  | ObjCol xs, ObjCol ys => inr (ObjCol (zip_with cat_opt xs ys))
  | ObjCol xs, NumCol ys =>
      if both_present xs ys then inl TypeError
      else inr (ObjCol (zip_with (fun _ _ => None) xs ys))
  | NumCol xs, ObjCol ys =>
      if both_present xs ys then inl TypeError
      else inr (ObjCol (zip_with (fun _ _ => None) xs ys))
  end.

(** [a + k] for a number [k]: text plus a number raises [TypeError]. *)
Definition Series_add_scalar (a : Series) (k : Q) : result Series :=
  match a with
  | NumCol xs => inr (NumCol (map (fun x => add_opt x (Some k)) xs))
  | ObjCol xs => if existsb (fun x => negb (isna x)) xs then inl TypeError else inr a
  end.

(** ** [LabelEncoder] *)

Section LabelEncoder.
Context {A : Type} (cmp : A -> A -> comparison).

(** Insertion into a strictly ascending list; a value that is already
    there is not repeated. *)
Fixpoint insert_uniq (x : A) (l : list A) : list A :=
  match l with
  | [] => [x]
  | y :: l' =>
      match cmp x y with
      | Lt => x :: l
      | Eq => l
      | Gt => y :: insert_uniq x l'
      end
  end.

(** [classes_]: the distinct values in ascending order
    ([sorted(set(values))], missing values set aside). *)
Definition classes (xs : list (option A)) : list A :=
  foldr insert_uniq [] (present xs).

Fixpoint index_of (x : A) (l : list A) : nat :=
  match l with
  | [] => 0
  | y :: l' => match cmp x y with Eq => 0 | _ => S (index_of x l') end
  end.

(** The code of a value is its position in [classes_]; the missing
    value is the last class. *)
Definition label_code (cl : list A) (x : option A) : nat :=
  match x with
  | Some a => index_of a cl
  | None => length cl
  end.

Definition label_codes (xs : list (option A)) : list (option Q) :=
  map (fun x => Some (inject_Z (Z.of_nat (label_code (classes xs) x)))) xs.

(** Strictly ascending: every element is below all that follow it. *)
Definition ascending (l : list A) : Prop :=
  StronglySorted (fun a b => cmp a b = Lt) l.
End LabelEncoder.

(** [LabelEncoder().fit_transform(s)] *)
Definition fit_transform (s : Series) : Series :=
  match s with
  | ObjCol xs => NumCol (label_codes String.compare xs)
  | NumCol xs => NumCol (label_codes Qcompare xs)
  end.

Definition is_object (s : Series) : bool :=
  match s with ObjCol _ => true | NumCol _ => false end.

(** [df.select_dtypes(include=['object']).columns] *)
Definition select_dtypes_object (df : DataFrame) : list string :=
  map fst (List.filter (fun c => is_object (snd c)) (columns df)).

(** ** [np.log1p] and [StandardScaler]

    Both work on binary floating point.  A float is a rational number,
    so the two functions of the libraries that round, [np.log1p] and
    [np.sqrt], are functions on the rationals; they are parameters of
    the development, and the theorems say how close to the logarithm
    and to the square root they have to be.  Sums, differences and
    quotients are kept exact. *)

Definition Qsum (l : list Q) : Q := foldr Qplus 0%Q l.

Definition mean (l : list Q) : Q := (Qsum l / inject_Z (Z.of_nat (length l)))%Q.

(** Population variance (divisor [n]). *)
Definition variance (l : list Q) : Q :=
  let m := mean l in
  (Qsum (map (fun x => (x - m) * (x - m)) l) / inject_Z (Z.of_nat (length l)))%Q.

(** [np.finfo(np.float64).eps] *)
Definition float_eps : Q := 1 / inject_Z (2 ^ 52).

(** The error bound scikit-learn puts on the variance it computes,
    [n * eps * var + (n * mean * eps) ** 2]. *)
Definition rounding_bound (l : list Q) : Q :=
  let n := inject_Z (Z.of_nat (length l)) in
  n * float_eps * variance l + (n * mean l * float_eps) * (n * mean l * float_eps).

(** [_is_constant_feature(var, mean, n_samples)]: the variance of the
    column does not exceed that bound.  A column whose values are all
    equal has variance 0 and passes the test. *)
Definition is_constant_feature (l : list Q) : bool :=
  Qle_bool (variance l) (rounding_bound l).

(** The scaler makes the test on the variance and the mean it computed
    in floating point; here it is made on the exact ones.  The two
    sides of the test, with room to spare: the variance is beyond the
    bound, or within it, by a factor of 2^20, so that an error of the
    order of the bound does not decide the test. *)
Definition clearly_spread (l : list Q) : Prop :=
  (inject_Z (2 ^ 20) * rounding_bound l < variance l)%Q.

Definition clearly_constant (l : list Q) : Prop :=
  (inject_Z (2 ^ 20) * variance l <= rounding_bound l)%Q.

Section Numerics.
Variable log1p : Q -> Q.
Variable sqrt : Q -> Q.

(** [np.log1p(x)]: NaN below [-1] (and for NaN); at [-1] the result
    is minus infinity, which no cell can hold and which
    [StandardScaler] rejects with [ValueError]: the only consumer of
    the column is that call, so the error is raised here. *)
Definition log1p_cell (x : option Q) : result (option Q) :=
  match x with
  | None => inr None
  | Some q =>
      match (q ?= -1)%Q with
      | Lt => inr None
      | Eq => inl ValueError
      | Gt => inr (Some (log1p q))
      end
  end.

(** [np.log1p(s)]: there is no logarithm of a Python object. *)
Definition Series_log1p (s : Series) : result Series :=
  match s with
  | NumCol xs =>
      match mapM_result log1p_cell xs with
      | inl e => inl e
      | inr ys => inr (NumCol ys)
      end
  | ObjCol [] => inr s
  | ObjCol _ => inl TypeError
  end.

(** The divisor [scale_]: the standard deviation, or [1] for a column
    that is constant or indistinguishable from one. *)
Definition scale_of (l : list Q) : Q :=
  if is_constant_feature l then 1%Q else sqrt (variance l).

(** One column of [StandardScaler().fit_transform]: mean and standard
    deviation are taken over the values that are there, NaN stays. *)
Definition standardize (xs : list (option Q)) : list (option Q) :=
  let m := mean (present xs) in
  let s := scale_of (present xs) in
  map (fun x => (fun q => ((q - m) / s)%Q) <$> x) xs.

(** Input validation of [fit_transform], per column: the data must
    convert to float ([ValueError] for text).  A text cell is taken to
    spell no number, as the names and labels of the passenger list do
    not; text that spells a number would be converted. *)
Definition as_float (s : Series) : result (list (option Q)) :=
  match s with
  | NumCol xs => inr xs
  | ObjCol xs =>
      if existsb (fun x => negb (isna x)) xs then inl ValueError
      else inr (map (fun _ => None) xs)
  end.
End Numerics.

(** ** The process: objects, files, console *)

(** A file-system entry. *)
Inductive node :=
| File (content : string)
| Dir.

(** A line on standard output: a message, or the report of the handler
    in [main], [[ERROR] Terjadi kesalahan:] followed by the text of the
    exception. *)
Inductive line :=
| Text (s : string)
| ErrorReport (e : exn).

(** What the process does to its environment, in order. *)
Inductive event :=
| EPrint (l : line)
| EStat (path : string)
| ERead (path : string)
| EMkdir (path : string)
| EWrite (path : string).

(** A reference to a table object. *)
Definition ref := nat.

(** The state of the process: the table objects, the file system and
    what was done so far.  The file system maps paths, as they are
    written, to entries; it does not resolve them, so it stands for the
    real one on paths in normal form ([normal_path] below), where one
    file has one spelling. *)
Record World := mkWorld {
  heap : list DataFrame;
  files : gmap string node;
  trace : list event
}.

(** A computation either returns a value or raises; either way it
    leaves a world behind. *)
Definition M (A : Type) : Type := World -> result A * World.

#[global] Instance M_ret : MRet M := fun A a w => (inr a, w).

#[global] Instance M_bind : MBind M := fun A B f m w =>
  match m w with
  | (inr a, w') => f a w'
  | (inl e, w') => (inl e, w')
  end.

Definition raise {A} (e : exn) : M A := fun w => (inl e, w).

Definition lift {A} (r : result A) : M A := fun w => (r, w).

(** [try: body except Exception as e: handler(e)] *)
Definition try_except {A} (body : M A) (handler : exn -> M A) : M A := fun w =>
  match body w with
  | (inr a, w') => (inr a, w')
  | (inl e, w') => handler e w'
  end.

Definition log (ev : event) : M unit := fun w =>
  (inr tt, mkWorld (heap w) (files w) (trace w ++ [ev])).

Definition print (s : string) : M unit := log (EPrint (Text s)).

Definition alloc (d : DataFrame) : M ref := fun w =>
  (inr (length (heap w)), mkWorld (heap w ++ [d]) (files w) (trace w)).

(** A reference always points to an object in Python; the error case
    only makes the function total. *)
Definition deref (r : ref) : M DataFrame := fun w =>
  match heap w !! r with
  | Some d => (inr d, w)
  | None => (inl (KeyError "dangling reference"), w)
  end.

Definition store (r : ref) (d : DataFrame) : M unit := fun w =>
  (inr tt, mkWorld (<[r := d]> (heap w)) (files w) (trace w)).

(** In-place update of the object behind [r]. *)
Definition modify (r : ref) (f : DataFrame -> DataFrame) : M unit :=
  d ← deref r; store r (f d).

(** [df.copy()] *)
Definition df_copy (r : ref) : M ref := d ← deref r; alloc d.

(** [name in df.columns] *)
Definition df_contains (r : ref) (name : string) : M bool :=
  d ← deref r; mret (has_col name d).

(** [df[name]] *)
Definition df_getitem (r : ref) (name : string) : M Series :=
  d ← deref r;
  match get_col name d with
  | Some s => mret s
  | None => raise (KeyError name)
  end.

(** [df[name] = s] *)
Definition df_setitem (r : ref) (name : string) (s : Series) : M unit :=
  modify r (set_col name s).

(** [df.drop(columns=ns)]: a new object *)
Definition df_drop (r : ref) (ns : list string) : M ref :=
  d ← deref r; alloc (drop_cols ns d).

(** [df.dropna(inplace=True)] *)
Definition df_dropna_inplace (r : ref) : M unit := modify r dropna.

(** [df.isnull().sum().sum()] *)
Definition df_isnull_sum_sum (r : ref) : M nat :=
  d ← deref r; mret (isnull_sum_sum d).

(** [[c for c in cs if c in df.columns]] *)
Definition df_existing (r : ref) (cs : list string) : M (list string) :=
  d ← deref r; mret (List.filter (fun c => has_col c d) cs).

Fixpoint for_each {A} (l : list A) (body : A -> M unit) : M unit :=
  match l with
  | [] => mret tt
  | x :: l' => body x;; for_each l' body
  end.

Definition nl : string := String (ascii_of_nat 10) EmptyString.

(** ** [handle_missing_values] *)

(** [s.apply(lambda x: 0 if pd.isna(x) else 1)] *)
Definition notna_flags (s : Series) : Series :=
  NumCol (map (fun b : bool => Some (if b then 0%Q else 1%Q)) (Series_isnull s)).

Definition handle_missing_values (df : ref) : M ref :=
  df ← df_copy df;
  print "Memulai Handling Missing Values...";;
  has_age ← df_contains df "Age";
  (if has_age : bool then
     age ← df_getitem df "Age";
     median_age ← lift (Series_median age);
     age ← df_getitem df "Age";
     df_setitem df "Age" (Series_fillna age median_age)
   else mret tt);;
  has_embarked ← df_contains df "Embarked";
  (if has_embarked : bool then
     embarked ← df_getitem df "Embarked";
     mode_embarked ← lift (Series_mode0 embarked);
     embarked ← df_getitem df "Embarked";
     df_setitem df "Embarked" (Series_fillna embarked mode_embarked)
   else mret tt);;
  has_cabin ← df_contains df "Cabin";
  df ← (if has_cabin : bool then
          cabin ← df_getitem df "Cabin";
          df_setitem df "hasCabin" (notna_flags cabin);;
          df_drop df ["Cabin"]
        else mret df);
  n ← df_isnull_sum_sum df;
  (if Nat.ltb 0 n then
     print "Masih ada sisa missing values drop rows...";;
     df_dropna_inplace df
   else mret tt);;
  print ("Selesai Handling Missing Values." ++ nl);;
  mret df.

(** ** [feature_engineering] *)

(** [s.map(title_mapping)]: numbers are no keys of the dictionary. *)
Definition Series_map_dict (d : list (string * string)) (s : Series) : Series :=
  match s with
  | ObjCol xs => ObjCol (map_dict d xs)
  | NumCol xs => ObjCol (map (fun _ => None) xs)
  end.

Definition cols_to_drop : list string := ["PassengerId"; "Name"; "Ticket"].

Definition feature_engineering (df : ref) : M ref :=
  df ← df_copy df;
  print "Memulai Feature Engineering...";;
  has_name ← df_contains df "Name";
  (if has_name : bool then
     name ← df_getitem df "Name";
     title ← lift (Series_str_extract name);
     df_setitem df "Title" (ObjCol title);;
     title ← df_getitem df "Title";
     df_setitem df "Title" (Series_fillna (Series_map_dict title_mapping title) (Str "Rare"))
   else mret tt);;
  has_sibsp ← df_contains df "SibSp";
  has_both ← (if has_sibsp : bool then df_contains df "Parch" else mret false);
  (if has_both : bool then
     sibsp ← df_getitem df "SibSp";
     parch ← df_getitem df "Parch";
     sum ← lift (Series_add sibsp parch);
     family_size ← lift (Series_add_scalar sum 1);
     df_setitem df "FamilySize" family_size
   else mret tt);;
  existing_cols_to_drop ← df_existing df cols_to_drop;
  df ← (match existing_cols_to_drop with
        | [] => mret df
        | _ :: _ => df_drop df existing_cols_to_drop
        end);
  print ("Selesai Feature Engineering." ++ nl);;
  mret df.

(** ** [encoding] *)

Definition encoding (df : ref) : M ref :=
  df ← df_copy df;
  print "Memulai Encoding Data...";;
  d ← deref df;
  let cat_cols := select_dtypes_object d in
  for_each cat_cols (fun col =>
    s ← df_getitem df col;
    df_setitem df col (fit_transform s));;
  print ("Selesai Encoding." ++ nl);;
  mret df.

(** ** [scaling] *)

Section Scaling.
Variable log1p : Q -> Q.
Variable sqrt : Q -> Q.

(** [StandardScaler().fit_transform(X)] for the columns [X]: every
    column is validated, there must be at least one row ([ValueError]
    otherwise), then every column is standardized on its own. *)
Definition StandardScaler_fit_transform (X : list Series) : result (list Series) :=
  match mapM_result as_float X with
  | inl e => inl e
  | inr cols =>
      if forallb (fun xs : list (option Q) => Nat.ltb 0 (length xs)) cols
      then inr (map (fun xs => NumCol (standardize sqrt xs)) cols)
      else inl ValueError
  end.

(** [df[cs]] *)
Definition df_getitems (r : ref) (cs : list string) : M (list Series) :=
  d ← deref r; lift (get_cols cs d).

(** [df[cs] = X] *)
Definition df_setitems (r : ref) (cs : list string) (X : list Series) : M unit :=
  modify r (set_cols cs X).

Definition num_cols : list string := ["Age"; "Fare"].

Definition scaling (df : ref) : M ref :=
  df ← df_copy df;
  print "Memulai Scaling Data...";;
  has_fare ← df_contains df "Fare";
  (if has_fare : bool then
     fare ← df_getitem df "Fare";
     fare ← lift (Series_log1p log1p fare);
     df_setitem df "Fare" fare
   else mret tt);;
  valid_cols ← df_existing df num_cols;
  (match valid_cols with
   | [] => mret tt
   | _ :: _ =>
       X ← df_getitems df valid_cols;
       X ← lift (StandardScaler_fit_transform X);
       df_setitems df valid_cols X
   end);;
  print ("Selesai Scaling." ++ nl);;
  mret df.
End Scaling.

(** ** Files *)

Definition is_slash (c : ascii) : bool := Ascii.eqb c "/"%char.

Fixpoint has_slash (s : string) : bool :=
  match s with
  | EmptyString => false
  | String c s' => is_slash c || has_slash s'
  end.

Fixpoint all_slashes (s : string) : bool :=
  match s with
  | EmptyString => true
  | String c s' => is_slash c && all_slashes s'
  end.

(** [p[:p.rfind('/') + 1]] *)
Fixpoint upto_last_slash (s : string) : string :=
  match s with
  | EmptyString => EmptyString
  | String c s' => if has_slash s then String c (upto_last_slash s') else EmptyString
  end.

(** [s.rstrip('/')] *)
Fixpoint rstrip_slashes (s : string) : string :=
  match s with
  | EmptyString => EmptyString
  | String c s' => if all_slashes s then EmptyString else String c (rstrip_slashes s')
  end.

(** [os.path.dirname] *)
Definition dirname (p : string) : string :=
  let head := upto_last_slash p in
  if all_slashes head then head else rstrip_slashes head.

(** The directories [os.makedirs(name)] has to find or make, outermost
    first: [name] and the chain of its parents. *)
Fixpoint parents (fuel : nat) (name : string) : list string :=
  match fuel with
  | 0 => []
  | S fuel' =>
      if all_slashes name then []
      else parents fuel' (dirname name) ++ [name]
  end.

Definition os_path_exists (path : string) : M bool := fun w =>
  (inr (bool_decide (is_Some (files w !! path))),
   mkWorld (heap w) (files w) (trace w ++ [EStat path])).

Definition set_node (path : string) (n : node) : M unit := fun w =>
  (inr tt, mkWorld (heap w) (<[path := n]> (files w)) (trace w)).

Definition get_node (path : string) : M (option node) := fun w =>
  (inr (files w !! path), w).

(** The chain of directories, outermost first: a directory that is
    missing is made, one that is there is accepted.  A file in the
    place of the last one is [FileExistsError]; a file further up makes
    the [mkdir] of the directory below it fail with
    [NotADirectoryError]. *)
Fixpoint ensure_dirs (l : list string) : M unit :=
  match l with
  | [] => mret tt
  | p :: l' =>
      n ← get_node p;
      match n with
      | None => log (EMkdir p);; set_node p Dir;; ensure_dirs l'
      | Some Dir => ensure_dirs l'
      | Some (File _) =>
          match l' with
          | [] => raise (FileExistsError p)
          | child :: _ => raise (NotADirectoryError child)
          end
      end
  end.

(** [os.makedirs(name, exist_ok=True)]; the empty name is no directory. *)
Definition os_makedirs (name : string) : M unit :=
  match name with
  | EmptyString => raise (FileNotFoundError name)
  | _ => ensure_dirs (parents (String.length name) name)
  end.

(** The components of a path, between slashes. *)
Fixpoint split_path (s : string) : list string :=
  match s with
  | EmptyString => [EmptyString]
  | String c s' =>
      if is_slash c then EmptyString :: split_path s'
      else match split_path s' with
           | w :: ws => String c w :: ws
           | [] => [String c EmptyString]
           end
  end.

(** A relative path in normal form: no component is empty, [.] or
    [..].  The file system is keyed by paths as they are written, and
    among paths of this form different strings name different files
    (links aside). *)
Definition normal_path (p : string) : bool :=
  forallb (fun c => negb (String.eqb c "" || String.eqb c "." || String.eqb c ".."))
    (split_path p).

(** Every entry of the file system is filed under a normal path. *)
Definition normal_files (w : World) : Prop :=
  forall q, is_Some (files w !! q) -> normal_path q = true.

Definition RAW_DATA_PATH : string := "titanic_raw/titanic.csv".
Definition OUTPUT_PATH : string := "preprocessing/titanic_preprocessing.csv".

Section Pipeline.
(** The CSV reader and writer of pandas, on the text of a file. *)
Variable read_csv : string -> result DataFrame.
Variable to_csv : DataFrame -> string.
Variable log1p : Q -> Q.
Variable sqrt : Q -> Q.

(** [pd.read_csv(path)] *)
Definition pd_read_csv (path : string) : M ref :=
  log (ERead path);;
  n ← get_node path;
  match n with
  | None => raise (FileNotFoundError path)
  | Some Dir => raise (IsADirectoryError path)
  | Some (File text) => d ← lift (read_csv text); alloc d
  end.

(** [df.to_csv(path, index=False)]: the directory of the file must
    exist and the path must not be a directory.  Once the file is open
    the write is taken to succeed: a failure part-way, which leaves a
    shortened file behind, is outside the model. *)
Definition df_to_csv (r : ref) (path : string) : M unit :=
  d ← deref r;
  parent ← get_node (dirname path);
  n ← get_node path;
  match dirname path, parent, n with
  | _, _, Some Dir => raise (IsADirectoryError path)
  | EmptyString, _, _ | _, Some Dir, _ =>
      log (EWrite path);; set_node path (File (to_csv d))
  | _, Some (File _), _ => raise (NotADirectoryError path)
  | _, None, _ => raise (FileNotFoundError path)
  end.

(** [str(df.shape)] *)
Definition shape_str (d : DataFrame) : string :=
  "(" ++ pretty (nrows d) ++ ", " ++ pretty (length (columns d)) ++ ")".

Definition load_data (path : string) : M ref :=
  print ("Loading data dari " ++ path ++ "...");;
  found ← os_path_exists path;
  (if found : bool then mret tt
   else raise (FileNotFoundError ("File tidak ditemukan di: " ++ path)));;
  df ← pd_read_csv path;
  d ← deref df;
  print ("Data berhasil dimuat. Ukuran: " ++ shape_str d);;
  mret df.

Definition save_data (df : ref) (path : string) : M unit :=
  print ("Menyimpan data ke " ++ path ++ "...");;
  os_makedirs (dirname path);;
  df_to_csv df path;;
  print "Data berhasil disimpan! Proses Otomatisasi Selesai.".

Definition main : M unit :=
  try_except
    (df ← load_data RAW_DATA_PATH;
     df ← handle_missing_values df;
     df ← feature_engineering df;
     df ← encoding df;
     df ← scaling log1p sqrt df;
     save_data df OUTPUT_PATH)
    (fun e => log (EPrint (ErrorReport e))).
End Pipeline.

(** ** Running one function on one table *)

(** The world in which [d] is the only object. *)
Definition world_of (d : DataFrame) : World := mkWorld [d] ∅ [].

(** The table a transformation returns for the table [d]. *)
Definition run (f : ref -> M ref) (d : DataFrame) : result DataFrame :=
  match f 0%nat (world_of d) with
  | (inr r, w) =>
      match heap w !! r with
      | Some d' => inr d'
      | None => inl (KeyError "dangling reference")
      end
  | (inl e, _) => inl e
  end.

(** ** The transformations as functions on tables

    What each function of the script returns, as a function of the
    table it is given.  [handle_missing_values_run] and its siblings
    below show that the functions of the script compute exactly these,
    in every world. *)

#[global] Instance result_ret : MRet result := fun A a => inr a.

#[global] Instance result_bind : MBind result := fun A B f m =>
  match m with
  | inr a => f a
  | inl e => inl e
  end.

(** Lines 39-46: a column, when present, has its gaps filled with a
    statistic of its own. *)
Definition fill_with (stat : Series -> result cell) (name : string) (d : DataFrame)
  : result DataFrame :=
  match get_col name d with
  | None => inr d
  | Some s => v ← stat s; mret (set_col name (Series_fillna s v) d)
  end.

(** Lines 50-54 *)
Definition flag_cabin (d : DataFrame) : DataFrame :=
  match get_col "Cabin" d with
  | None => d
  | Some c => drop_cols ["Cabin"] (set_col "hasCabin" (notna_flags c) d)
  end.

(** The table before the last step (lines 39-54). *)
Definition imputed (d : DataFrame) : result DataFrame :=
  d ← fill_with Series_median "Age" d;
  d ← fill_with Series_mode0 "Embarked" d;
  mret (flag_cabin d).

(** Lines 57-59 *)
Definition drop_missing (d : DataFrame) : DataFrame :=
  if Nat.ltb 0 (isnull_sum_sum d) then dropna d else d.

Definition handle_missing_values_table (d : DataFrame) : result DataFrame :=
  d ← imputed d; mret (drop_missing d).

(** The title of one passenger (lines 81-95). *)
Definition title_of (name : option string) : string :=
  match name ≫= extract_title with
  | Some t => default "Rare" (dict_get t title_mapping)
  | None => "Rare"
  end.

Definition add_title (d : DataFrame) : result DataFrame :=
  match get_col "Name" d with
  | None => inr d
  | Some name =>
      t ← Series_str_extract name;
      mret (set_col "Title"
              (Series_fillna (Series_map_dict title_mapping (ObjCol t)) (Str "Rare")) d)
  end.

Definition add_family_size (d : DataFrame) : result DataFrame :=
  match get_col "SibSp" d, get_col "Parch" d with
  | Some sibsp, Some parch =>
      sum ← Series_add sibsp parch;
      family_size ← Series_add_scalar sum 1;
      mret (set_col "FamilySize" family_size d)
  | _, _ => inr d
  end.

Definition drop_unused (d : DataFrame) : DataFrame :=
  match List.filter (fun c => has_col c d) cols_to_drop with
  | [] => d
  | c :: cs => drop_cols (c :: cs) d
  end.

Definition feature_engineering_table (d : DataFrame) : result DataFrame :=
  d ← add_title d; d ← add_family_size d; mret (drop_unused d).

(** The loop of [encoding], over the names found before it starts. *)
Fixpoint encode_loop (cs : list string) (d : DataFrame) : result DataFrame :=
  match cs with
  | [] => inr d
  | col :: cs' =>
      match get_col col d with
      | Some s => encode_loop cs' (set_col col (fit_transform s) d)
      | None => inl (KeyError col)
      end
  end.

Definition encoding_table (d : DataFrame) : result DataFrame :=
  encode_loop (select_dtypes_object d) d.

(** What [encoding] makes of one column. *)
Definition encode_col (c : string * Series) : string * Series :=
  (fst c, if is_object (snd c) then fit_transform (snd c) else snd c).

Section ScalingTable.
Variable log1p : Q -> Q.
Variable sqrt : Q -> Q.

Definition log_fare (d : DataFrame) : result DataFrame :=
  match get_col "Fare" d with
  | None => inr d
  | Some fare => fare ← Series_log1p log1p fare; mret (set_col "Fare" fare d)
  end.

Definition standardize_cols (d : DataFrame) : result DataFrame :=
  match List.filter (fun c => has_col c d) num_cols with
  | [] => inr d
  | c :: cs =>
      X ← get_cols (c :: cs) d;
      X ← StandardScaler_fit_transform sqrt X;
      mret (set_cols (c :: cs) X d)
  end.

Definition scaling_table (d : DataFrame) : result DataFrame :=
  d ← log_fare d; standardize_cols d.

(** Lines 193-196 of [main], between the loader and the writer. *)
Definition transform_table (d : DataFrame) : result DataFrame :=
  d ← handle_missing_values_table d;
  d ← feature_engineering_table d;
  d ← encoding_table d;
  scaling_table d.
End ScalingTable.

(** ** Reading a table *)

(** The rows of a column, each with its label. *)
Definition labelled (name : string) (d : DataFrame) : list (nat * cell) :=
  match get_col name d with
  | Some s => zip (index d) (cells s)
  | None => []
  end.

(** No cell of the table is NaN. *)
Definition no_missing (d : DataFrame) : Prop :=
  forall name s, In (name, s) (columns d) -> ~ In NaN (cells s).

(** No column of the table is text. *)
Definition all_numeric (d : DataFrame) : bool :=
  forallb (fun c => negb (is_object (snd c))) (columns d).

(** ** When the transformations return *)

(** [handle_missing_values] returns for a table whose [Age] column, if
    there is one, holds no text, and whose [Embarked] column, if there
    is one, has at least one value. *)
Definition can_impute (d : DataFrame) : bool :=
  match get_col "Age" d with
  | Some (ObjCol xs) => forallb isna xs
  | _ => true
  end
  && match get_col "Embarked" d with
     | Some s => existsb (fun c => negb (is_nan c)) (cells s)
     | None => true
     end.

(** [feature_engineering] returns for a table whose [Name] column, if
    there is one, is text, and whose [SibSp] and [Parch] columns, if
    both are there, are numeric. *)
Definition can_engineer (d : DataFrame) : bool :=
  match get_col "Name" d with
  | Some (NumCol _) => false
  | _ => true
  end
  && match get_col "SibSp" d, get_col "Parch" d with
     | Some (ObjCol _), Some _ | Some _, Some (ObjCol _) => false
     | _, _ => true
     end.

(** ** Reasoning about computations *)

(** [wp m w Q]: the outcome of [m] in the world [w] satisfies [Q]. *)
Definition wp {A} (m : M A) (w : World) (Q : result A -> World -> Prop) : Prop :=
  Q (fst (m w)) (snd (m w)).

(** [w] differs from [w0] only by new objects, by updates of objects
    that did not exist in [w0], and by console output. *)
Record frame (w0 w : World) : Prop := mkFrame {
  frame_files : files w = files w0;
  frame_heap : forall i, i < length (heap w0) -> heap w !! i = heap w0 !! i;
  frame_grow : length (heap w0) <= length (heap w);
  frame_trace : forall ev, In ev (trace w) ->
                  In ev (trace w0) \/ exists l, ev = EPrint l
}.

(** [r] is an object made after [w0]; it holds the table [d]. *)
Record owns (w0 : World) (r : ref) (d : DataFrame) (w : World) : Prop := mkOwns {
  owns_frame : frame w0 w;
  owns_fresh : length (heap w0) <= r;
  owns_lookup : heap w !! r = Some d
}.

(** The outcome of a transformation that was started in [w0] on an
    object holding [d], against the function [f] on tables. *)
Definition returns (f : DataFrame -> result DataFrame) (w0 : World) (d : DataFrame)
    (res : result ref) (w : World) : Prop :=
  match f d, res with
  | inr d', inr r' => owns w0 r' d' w
  | inl e, inl e' => e = e' /\ frame w0 w
  | _, _ => False
  end.

(** Between [w] and [w'] the process did nothing to its environment
    but print and the events in [allowed]. *)
Definition touches (allowed : list event) (w w' : World) : Prop :=
  forall ev, In ev (trace w') ->
    In ev (trace w) \/ (exists l, ev = EPrint l) \/ In ev allowed.

(** ** Sample data *)

(** Four rows of the Titanic passenger list, as [read_csv] loads them. *)
Definition sample : DataFrame :=
  mkDF [0; 1; 2; 3]%nat
    [ ("PassengerId", NumCol [Some 1; Some 2; Some 3; Some 4]%Q);
      ("Survived", NumCol [Some 0; Some 1; Some 1; Some 1]%Q);
      ("Pclass", NumCol [Some 3; Some 1; Some 3; Some 1]%Q);
      ("Name", ObjCol [Some "Braund, Mr. Owen Harris";
                       Some "Cumings, Mrs. John Bradley (Florence Briggs Thayer)";
                       Some "Heikkinen, Miss. Laina";
                       Some "Futrelle, Mrs. Jacques Heath (Lily May Peel)"]);
      ("Sex", ObjCol [Some "male"; Some "female"; Some "female"; Some "female"]);
      ("Age", NumCol [Some 22; Some 38; None; Some 35]%Q);
      ("SibSp", NumCol [Some 1; Some 1; Some 0; Some 1]%Q);
      ("Parch", NumCol [Some 0; Some 0; Some 0; Some 0]%Q);
      ("Ticket", ObjCol [Some "A/5 21171"; Some "PC 17599";
                         Some "STON/O2. 3101282"; Some "113803"]);
      ("Fare", NumCol [Some 7.25; Some 71.2833; Some 7.925; Some 53.1]%Q);
      ("Cabin", ObjCol [None; Some "C85"; None; Some "C123"]);
      ("Embarked", ObjCol [Some "S"; Some "C"; None; Some "S"]) ].

(** The table of a result that is known to be one. *)
Definition table_of (r : result DataFrame) : DataFrame :=
  match r with
  | inr d => d
  | inl _ => mkDF [] []
  end.

(** The sample on its way through [main]; the logarithm and the square
    root are replaced by the identity, which the row count ignores. *)
Definition sample_imputed : DataFrame := table_of (imputed sample).
Definition sample1 : DataFrame := table_of (run handle_missing_values sample).
Definition sample2 : DataFrame := table_of (run feature_engineering sample1).
Definition sample3 : DataFrame := table_of (run encoding sample2).
Definition sample4 : DataFrame :=
  table_of (run (scaling (fun x => x) (fun x => x)) sample3).

(** The sample after the feature engineer alone. *)
Definition sample_engineered : DataFrame := table_of (run feature_engineering sample).

(** A table with a port column that is empty throughout, as [read_csv]
    loads it: an all-empty column is numeric. *)
Definition no_port : DataFrame :=
  mkDF [0; 1]%nat
    [ ("Age", NumCol [Some 22; Some 38]%Q);
      ("Embarked", NumCol [None; None]) ].

(** One passenger. *)
Definition one_row : DataFrame :=
  mkDF [0]%nat [ ("Age", NumCol [Some 22]%Q) ].

(** Two passengers of unknown age. *)
Definition no_ages : DataFrame :=
  mkDF [0; 1]%nat
    [ ("Age", NumCol [None; None]);
      ("Sex", ObjCol [Some "male"; Some "female"]) ].

(** Two passengers aged 1 and 3: mean 2, variance 1. *)
Definition two_ages : DataFrame :=
  mkDF [0; 1]%nat [ ("Age", NumCol [Some 1; Some 3]%Q) ].

(** Four passengers: the ages of [sample] once the gap is filled, and
    fares of 0 and 1. *)
Definition ages_and_fares : DataFrame :=
  mkDF [0; 1; 2; 3]%nat
    [ ("Age", NumCol [Some 22; Some 38; Some 35; Some 35]%Q);
      ("Fare", NumCol [Some 0; Some 1; Some 0; Some 1]%Q) ].

(** A square root to twelve decimal places. *)
Definition sqrt_digits (v : Q) : Q :=
  (inject_Z (Z.sqrt (Qfloor (v * inject_Z (10 ^ 24)))) / inject_Z (10 ^ 12))%Q.

(** The first rational approximant of [ln (1 + x)]. *)
Definition log1p_pade (x : Q) : Q := (2 * x / (2 + x))%Q.

(** A world without any file. *)
Definition empty_world : World := mkWorld [] ∅ [].

(** * Properties *)

(** ** Columns of a table *)

Lemma has_col_get name d :
  has_col name d = match get_col name d with Some _ => true | None => false end.
Proof.
  unfold has_col, get_col, names. induction (columns d) as [|[n s] cs IH]; simpl; [done|].
  destruct (String.eqb name n); simpl; auto.
Qed.

Lemma assoc_get_set_eq name s cs : assoc_get name (assoc_set name s cs) = Some s.
Proof.
  induction cs as [|[n s0] cs IH]; simpl.
  - by rewrite String.eqb_refl.
  - destruct (String.eqb name n) eqn:E; simpl; rewrite E; auto.
Qed.

Lemma assoc_get_set_ne name name' s cs :
  name <> name' -> assoc_get name' (assoc_set name s cs) = assoc_get name' cs.
Proof.
  intros Hne. induction cs as [|[n s0] cs IH]; simpl.
  - destruct (String.eqb name' name) eqn:E; [|done].
    apply String.eqb_eq in E. congruence.
  - destruct (String.eqb name n) eqn:E; simpl.
    + apply String.eqb_eq in E. subst n.
      destruct (String.eqb name' name) eqn:E'; [|done].
      apply String.eqb_eq in E'. congruence.
    + by rewrite IH.
Qed.

Lemma assoc_set_set name s s' cs :
  assoc_set name s' (assoc_set name s cs) = assoc_set name s' cs.
Proof.
  induction cs as [|[n s0] cs IH]; simpl.
  - by rewrite String.eqb_refl.
  - destruct (String.eqb name n) eqn:E; simpl; rewrite E; [done|]. by rewrite IH.
Qed.

Lemma get_set_col_eq name s d : get_col name (set_col name s d) = Some s.
Proof. apply assoc_get_set_eq. Qed.

Lemma get_set_col_ne name name' s d :
  name <> name' -> get_col name' (set_col name s d) = get_col name' d.
Proof. apply assoc_get_set_ne. Qed.

Lemma set_set_col name s s' d : set_col name s' (set_col name s d) = set_col name s' d.
Proof. unfold set_col. simpl. by rewrite assoc_set_set. Qed.

(** ** Rules for computations *)

Lemma wp_bind {A B} (m : M A) (f : A -> M B) w Q :
  wp m w (fun res w' => match res with
                        | inr a => wp (f a) w' Q
                        | inl e => Q (inl e) w'
                        end) ->
  wp (m ≫= f) w Q.
Proof. unfold wp, mbind, M_bind. destruct (m w) as [[e|a] w']; simpl; auto. Qed.

Lemma wp_ret {A} (a : A) w (Q : result A -> World -> Prop) :
  Q (inr a) w -> wp (mret a) w Q.
Proof. done. Qed.

Lemma wp_raise {A} e w (Q : result A -> World -> Prop) :
  Q (inl e) w -> wp (raise e) w Q.
Proof. done. Qed.

Lemma wp_lift {A} (r : result A) w (Q : result A -> World -> Prop) :
  Q r w -> wp (lift r) w Q.
Proof. done. Qed.

Lemma frame_refl w : frame w w.
Proof. split; auto. Qed.

Lemma frame_trans w0 w1 w2 : frame w0 w1 -> frame w1 w2 -> frame w0 w2.
Proof.
  intros [F1 H1 G1 T1] [F2 H2 G2 T2]. split.
  - congruence.
  - intros i Hi. rewrite H2 by lia. auto.
  - lia.
  - intros ev Hev. destruct (T2 ev Hev) as [?|?]; auto.
Qed.

Lemma owns_weaken w0 w1 r d w : frame w0 w1 -> owns w1 r d w -> owns w0 r d w.
Proof.
  intros F [F' Hr Hl]. split; [by eapply frame_trans| |done].
  destruct F. lia.
Qed.

Lemma wp_print s w0 r d w (Q : result unit -> World -> Prop) :
  owns w0 r d w ->
  (forall w', owns w0 r d w' -> Q (inr tt) w') ->
  wp (print s) w Q.
Proof.
  intros [[F H G T] Hr Hl] HQ. apply HQ. repeat split; simpl; auto.
  intros ev Hev. apply in_app_or in Hev as [Hev|[<-|[]]]; eauto.
Qed.

Lemma wp_copy r d w (Q : result ref -> World -> Prop) :
  heap w !! r = Some d ->
  (forall r' w', owns w r' d w' -> Q (inr r') w') ->
  wp (df_copy r) w Q.
Proof.
  intros Hd HQ. unfold wp, df_copy, mbind, M_bind, deref, alloc. rewrite Hd. simpl.
  apply HQ. repeat split; simpl; auto.
  - intros i Hi. by rewrite lookup_app_l.
  - rewrite length_app. lia.
  - rewrite lookup_app_r by lia. by rewrite Nat.sub_diag.
Qed.

Lemma wp_deref w0 r d w (Q : result DataFrame -> World -> Prop) :
  owns w0 r d w -> Q (inr d) w -> wp (deref r) w Q.
Proof. intros [_ _ Hl] HQ. unfold wp, deref. by rewrite Hl. Qed.

Lemma wp_contains name w0 r d w (Q : result bool -> World -> Prop) :
  owns w0 r d w -> Q (inr (has_col name d)) w -> wp (df_contains r name) w Q.
Proof. intros [_ _ Hl] HQ. unfold wp, df_contains, mbind, M_bind, deref. by rewrite Hl. Qed.

Lemma wp_getitem name w0 r d w (Q : result Series -> World -> Prop) :
  owns w0 r d w ->
  match get_col name d with
  | Some s => Q (inr s) w
  | None => Q (inl (KeyError name)) w
  end ->
  wp (df_getitem r name) w Q.
Proof.
  intros [_ _ Hl] HQ. unfold wp, df_getitem, mbind, M_bind, deref. rewrite Hl.
  by destruct (get_col name d).
Qed.

Lemma wp_modify f w0 r d w (Q : result unit -> World -> Prop) :
  owns w0 r d w ->
  (forall w', owns w0 r (f d) w' -> Q (inr tt) w') ->
  wp (modify r f) w Q.
Proof.
  intros [[F H G T] Hr Hl] HQ. unfold wp, modify, mbind, M_bind, deref, store.
  rewrite Hl. simpl. apply HQ. repeat split; simpl; auto.
  - intros i Hi. rewrite list_lookup_insert_ne by lia. auto.
  - rewrite length_insert. lia.
  - apply list_lookup_insert_eq. by eapply lookup_lt_Some.
Qed.

Lemma wp_setitem name s w0 r d w (Q : result unit -> World -> Prop) :
  owns w0 r d w ->
  (forall w', owns w0 r (set_col name s d) w' -> Q (inr tt) w') ->
  wp (df_setitem r name s) w Q.
Proof. apply wp_modify. Qed.

Lemma wp_dropna w0 r d w (Q : result unit -> World -> Prop) :
  owns w0 r d w ->
  (forall w', owns w0 r (dropna d) w' -> Q (inr tt) w') ->
  wp (df_dropna_inplace r) w Q.
Proof. apply wp_modify. Qed.

Lemma wp_drop ns w0 r d w (Q : result ref -> World -> Prop) :
  owns w0 r d w ->
  (forall r' w', owns w0 r' (drop_cols ns d) w' -> Q (inr r') w') ->
  wp (df_drop r ns) w Q.
Proof.
  intros [[F H G T] Hr Hl] HQ. unfold wp, df_drop, mbind, M_bind, deref, alloc.
  rewrite Hl. simpl. apply HQ. repeat split; simpl; auto.
  - intros i Hi. rewrite lookup_app_l by lia. auto.
  - rewrite length_app. lia.
  - rewrite lookup_app_r by lia. by rewrite Nat.sub_diag.
Qed.

Lemma wp_isnull w0 r d w (Q : result nat -> World -> Prop) :
  owns w0 r d w -> Q (inr (isnull_sum_sum d)) w -> wp (df_isnull_sum_sum r) w Q.
Proof. intros [_ _ Hl] HQ. unfold wp, df_isnull_sum_sum, mbind, M_bind, deref. by rewrite Hl. Qed.

Lemma wp_existing cs w0 r d w (Q : result (list string) -> World -> Prop) :
  owns w0 r d w ->
  Q (inr (List.filter (fun c => has_col c d) cs)) w ->
  wp (df_existing r cs) w Q.
Proof. intros [_ _ Hl] HQ. unfold wp, df_existing, mbind, M_bind, deref. by rewrite Hl. Qed.

(** A lookup of a column: settled by what is known, or by cases. *)
Ltac case_get_col :=
  rewrite ?get_set_col_eq;
  repeat match goal with
         | H : get_col ?n ?d = _ |- context [get_col ?n ?d] => rewrite H
         end;
  repeat match goal with
         | |- context [get_col ?n ?d] => destruct (get_col n d) eqn:?
         end.

(** One statement of a function of the script. *)
Ltac wp_step :=
  lazymatch goal with
  | |- wp (mbind _ _) _ _ => apply wp_bind
  | |- wp (mret _) _ _ => apply wp_ret
  | |- wp (raise _) _ _ => apply wp_raise
  | |- wp (lift ?r) _ _ => apply wp_lift; destruct r eqn:?
  | |- wp (print _) _ _ => eapply wp_print; [eassumption | intros ? ?]
  | |- wp (df_contains _ _) _ _ =>
      eapply wp_contains; [eassumption |]; rewrite has_col_get; case_get_col
  | |- wp (df_getitem _ _) _ _ => eapply wp_getitem; [eassumption |]; case_get_col
  | |- wp (df_setitem _ _ _) _ _ =>
      eapply wp_setitem; [eassumption | intros ? ?];
      match goal with H : owns _ _ _ _ |- _ => rewrite ?set_set_col in H end
  | |- wp (df_dropna_inplace _) _ _ => eapply wp_dropna; [eassumption | intros ? ?]
  | |- wp (df_drop _ _) _ _ => eapply wp_drop; [eassumption | intros ? ? ?]
  | |- wp (df_isnull_sum_sum _) _ _ => eapply wp_isnull; [eassumption |]
  | |- wp (df_existing _ _) _ _ => eapply wp_existing; [eassumption |]
  | |- wp (deref _) _ _ => eapply wp_deref; [eassumption |]
  | |- wp (modify _ _) _ _ => eapply wp_modify; [eassumption | intros ? ?]
  | |- wp (match ?x with _ => _ end) _ _ => destruct x eqn:?
  end; cbv beta iota.

(** The end of a run: the outcome is the one of the function on tables. *)
Ltac wp_done HQ :=
  apply HQ; unfold returns; cbv beta iota;
  repeat match goal with
         | H : _ = _ |- _ => rewrite H; cbv beta iota
         end;
  first [ eassumption
        | match goal with
          | H : owns _ _ _ ?w |- _ /\ frame _ ?w =>
              split; [reflexivity | exact (owns_frame _ _ _ _ H)]
          end ].

Lemma handle_missing_values_run r d w (Q : result ref -> World -> Prop) :
  heap w !! r = Some d ->
  (forall res w', returns handle_missing_values_table w d res w' -> Q res w') ->
  wp (handle_missing_values r) w Q.
Proof.
  intros Hd HQ. unfold handle_missing_values.
  apply wp_bind. eapply wp_copy; [done|]. intros r1 w1 H1.
  unfold handle_missing_values_table, imputed, fill_with, flag_cabin, drop_missing in HQ.
  unfold mbind, result_bind, mret, result_ret in HQ.
  repeat wp_step; wp_done HQ.
Qed.

Lemma feature_engineering_run r d w (Q : result ref -> World -> Prop) :
  heap w !! r = Some d ->
  (forall res w', returns feature_engineering_table w d res w' -> Q res w') ->
  wp (feature_engineering r) w Q.
Proof.
  intros Hd HQ. unfold feature_engineering.
  apply wp_bind. eapply wp_copy; [done|]. intros r1 w1 H1.
  unfold feature_engineering_table, add_title, add_family_size, drop_unused in HQ.
  unfold mbind, result_bind, mret, result_ret in HQ.
  repeat wp_step; wp_done HQ.
Qed.

Lemma encode_loop_run w0 r cs : forall d w (Q : result unit -> World -> Prop),
  owns w0 r d w ->
  (forall w', match encode_loop cs d with
              | inr d' => owns w0 r d' w' -> Q (inr tt) w'
              | inl e => frame w0 w' -> Q (inl e) w'
              end) ->
  wp (for_each cs (fun col => s ← df_getitem r col; df_setitem r col (fit_transform s))) w Q.
Proof.
  induction cs as [|col cs IH]; intros d w Q H HQ; simpl in *.
  - apply wp_ret. by apply HQ.
  - do 2 apply wp_bind. eapply wp_getitem; [eassumption|].
    destruct (get_col col d) as [s|] eqn:E.
    + eapply wp_setitem; [eassumption|]. intros w' H'. cbv beta iota.
      eapply IH; eauto.
    + apply HQ. apply H.
Qed.

Lemma encoding_run r d w (Q : result ref -> World -> Prop) :
  heap w !! r = Some d ->
  (forall res w', returns encoding_table w d res w' -> Q res w') ->
  wp (encoding r) w Q.
Proof.
  intros Hd HQ. unfold encoding.
  apply wp_bind. eapply wp_copy; [done|]. intros r1 w1 H1.
  unfold returns, encoding_table in HQ.
  do 5 wp_step. eapply encode_loop_run; [eassumption|]. intros w3.
  destruct (encode_loop (select_dtypes_object d) d) as [e|d'] eqn:E.
  - intros F. by apply HQ.
  - intros H3. repeat wp_step. by apply HQ.
Qed.

Lemma scaling_run log1p sqrt r d w (Q : result ref -> World -> Prop) :
  heap w !! r = Some d ->
  (forall res w', returns (scaling_table log1p sqrt) w d res w' -> Q res w') ->
  wp (scaling log1p sqrt r) w Q.
Proof.
  intros Hd HQ. unfold scaling, df_getitems, df_setitems.
  apply wp_bind. eapply wp_copy; [done|]. intros r1 w1 H1.
  unfold scaling_table, log_fare, standardize_cols in HQ.
  unfold mbind, result_bind, mret, result_ret in HQ.
  repeat wp_step; wp_done HQ.
Qed.

(** What [run] returns is the function on tables. *)
Lemma run_table f ft :
  (forall r d w (Q : result ref -> World -> Prop),
     heap w !! r = Some d ->
     (forall res w', returns ft w d res w' -> Q res w') ->
     wp (f r) w Q) ->
  forall d, run f d = ft d.
Proof.
  intros Hf d. unfold run.
  assert (wp (f 0%nat) (world_of d)
            (fun res w' => match res with
                           | inr r' => match heap w' !! r' with
                                       | Some d' => inr d'
                                       | None => inl (KeyError "dangling reference")
                                       end
                           | inl e => inl e
                           end = ft d)) as H.
  { apply (Hf 0%nat d); [done|]. intros res w'. unfold returns.
    destruct (ft d) as [e|d'], res as [e'|r']; try done.
    - by intros [-> _].
    - intros [_ _ ->]. done. }
  unfold wp in H. by destruct (f 0%nat (world_of d)) as [[e|r] w'].
Qed.

Lemma run_handle_missing_values d :
  run handle_missing_values d = handle_missing_values_table d.
Proof. apply run_table, handle_missing_values_run. Qed.

Lemma run_feature_engineering d :
  run feature_engineering d = feature_engineering_table d.
Proof. apply run_table, feature_engineering_run. Qed.

Lemma run_encoding d : run encoding d = encoding_table d.
Proof. apply run_table, encoding_run. Qed.

Lemma run_scaling log1p sqrt d :
  run (scaling log1p sqrt) d = scaling_table log1p sqrt d.
Proof. apply run_table, scaling_run. Qed.

(** ** The loader and the orchestrator on a missing input *)

(** C1.  On a path that does not exist [load_data] announces the load,
    asks the file system whether the path exists and raises
    [FileNotFoundError]; nothing is read and no object is made.  When
    the path is the input path of [main], the handler of [main] prints
    the error and the run ends: the file system is what it was, and the
    only events of the run are the two prints and the existence test,
    so the writer was not reached and no output file was produced. *)
Theorem missing_input_aborts read_csv to_csv log1p sqrt path w :
  files w !! path = None ->
  load_data read_csv path w =
    (inl (FileNotFoundError ("File tidak ditemukan di: " ++ path)),
     mkWorld (heap w) (files w)
       (trace w ++ [EPrint (Text ("Loading data dari " ++ path ++ "...")); EStat path]))
  /\ (path = RAW_DATA_PATH ->
      main read_csv to_csv log1p sqrt w =
        (inr tt,
         mkWorld (heap w) (files w)
           (trace w ++
              [EPrint (Text ("Loading data dari " ++ RAW_DATA_PATH ++ "..."));
               EStat RAW_DATA_PATH;
               EPrint (ErrorReport
                         (FileNotFoundError
                            ("File tidak ditemukan di: " ++ RAW_DATA_PATH)))]))
      /\ files (snd (main read_csv to_csv log1p sqrt w)) !! OUTPUT_PATH
         = files w !! OUTPUT_PATH).
Proof.
  intros Hnone.
  assert (load_data read_csv path w =
    (inl (FileNotFoundError ("File tidak ditemukan di: " ++ path)),
     mkWorld (heap w) (files w)
       (trace w ++ [EPrint (Text ("Loading data dari " ++ path ++ "...")); EStat path])))
    as Hload.
  { unfold load_data, print, log, os_path_exists, mbind, M_bind, raise. simpl.
    rewrite Hnone. rewrite bool_decide_eq_false_2 by (intros [? ?]; done).
    by rewrite <- app_assoc. }
  split; [exact Hload|]. intros ->.
  assert (main read_csv to_csv log1p sqrt w =
        (inr tt,
         mkWorld (heap w) (files w)
           (trace w ++
              [EPrint (Text ("Loading data dari " ++ RAW_DATA_PATH ++ "..."));
               EStat RAW_DATA_PATH;
               EPrint (ErrorReport
                         (FileNotFoundError
                            ("File tidak ditemukan di: " ++ RAW_DATA_PATH)))]))) as Hmain.
  { unfold main, try_except. unfold mbind at 1, M_bind at 1. rewrite Hload.
    unfold log. simpl. by rewrite <- app_assoc. }
  split; [exact Hmain|]. by rewrite Hmain.
Qed.

Lemma missing_input_aborts_witness :
  files empty_world !! RAW_DATA_PATH = None
  /\ snd (main (fun _ => inl ParserError) (fun _ => EmptyString) (fun x => x) (fun x => x)
            empty_world)
     = mkWorld [] ∅
         [EPrint (Text ("Loading data dari " ++ RAW_DATA_PATH ++ "..."));
          EStat RAW_DATA_PATH;
          EPrint (ErrorReport
                    (FileNotFoundError ("File tidak ditemukan di: " ++ RAW_DATA_PATH)))].
Proof.
  split; [reflexivity|].
  destruct (missing_input_aborts (fun _ => inl ParserError) (fun _ => EmptyString)
              (fun x => x) (fun x => x) RAW_DATA_PATH empty_world eq_refl)
    as [_ H].
  destruct (H eq_refl) as [-> _]. reflexivity.
Defined.

(** ** Copies *)

Lemma returns_frame ft w d res w' :
  returns ft w d res w' ->
  frame w w' /\ forall r', res = inr r' -> length (heap w) <= r'.
Proof.
  unfold returns. destruct (ft d) as [e|d'], res as [e'|r']; try done.
  - intros [_ F]. split; [done|]. intros ? [=].
  - intros [F Hr _]. split; [done|]. by intros ? [= <-].
Qed.

(** A transformation that meets its function on tables leaves the
    object it was given as it found it, and returns another object. *)
Lemma copy_on_write f ft :
  (forall r d w (Q : result ref -> World -> Prop),
     heap w !! r = Some d ->
     (forall res w', returns ft w d res w' -> Q res w') ->
     wp (f r) w Q) ->
  forall w r d,
    heap w !! r = Some d ->
    heap (snd (f r w)) !! r = Some d
    /\ files (snd (f r w)) = files w
    /\ forall r', fst (f r w) = inr r' -> r' <> r.
Proof.
  intros Hf w r d Hd.
  refine (Hf r d w (fun res w' => heap w' !! r = Some d /\ files w' = files w
                                   /\ forall r', res = inr r' -> r' <> r) Hd _).
  intros res w' Hret. apply returns_frame in Hret as [[F H G T] Hfresh].
  pose proof (lookup_lt_Some _ _ _ Hd) as Hlt.
  split; [|split].
  - rewrite H by done. done.
  - done.
  - intros r' Hr'. specialize (Hfresh r' Hr'). lia.
Qed.

(** C9.  Each of the four transformations works on a copy: in every
    world, after the call the object that was passed in holds the table
    it held before, whether the call returned or raised, and a table
    that is returned is another object than the one passed in. *)
Theorem stages_leave_argument_unchanged log1p sqrt (stage : ref -> M ref) w r d :
  In stage [handle_missing_values; feature_engineering; encoding; scaling log1p sqrt] ->
  heap w !! r = Some d ->
  heap (snd (stage r w)) !! r = Some d
  /\ forall r', fst (stage r w) = inr r' -> r' <> r.
Proof.
  intros Hin Hd.
  assert (heap (snd (stage r w)) !! r = Some d
          /\ files (snd (stage r w)) = files w
          /\ forall r', fst (stage r w) = inr r' -> r' <> r) as (H1 & _ & H2).
  { simpl in Hin. destruct Hin as [<-|[<-|[<-|[<-|[]]]]].
    - eapply copy_on_write; [apply handle_missing_values_run|done].
    - eapply copy_on_write; [apply feature_engineering_run|done].
    - eapply copy_on_write; [apply encoding_run|done].
    - eapply copy_on_write; [apply scaling_run|done]. }
  done.
Qed.

Lemma stages_leave_argument_unchanged_witness :
  heap (snd (handle_missing_values 0%nat (world_of sample))) !! 0%nat = Some sample
  /\ fst (handle_missing_values 0%nat (world_of sample)) = inr 2%nat.
Proof.
  split.
  - apply (stages_leave_argument_unchanged (fun x => x) (fun x => x)
             handle_missing_values (world_of sample) 0%nat sample).
    + simpl. left. reflexivity.
    + reflexivity.
  - vm_compute. reflexivity.
Defined.

(** ** Masks and missing values *)

Lemma lookup_map {A B} (f : A -> B) (l : list A) k : map f l !! k = f <$> l !! k.
Proof. revert k. induction l as [|x l IH]; intros [|k]; simpl; auto. Qed.

Lemma filter_mask_map {A B} (f : A -> B) m (xs : list A) :
  filter_mask m (map f xs) = map f (filter_mask m xs).
Proof.
  revert xs. induction m as [|b m IH]; intros [|x xs]; simpl; auto.
  destruct b; simpl; by rewrite IH.
Qed.

Lemma filter_mask_lookup {A} m (xs : list A) x :
  In x (filter_mask m xs) -> exists k, m !! k = Some true /\ xs !! k = Some x.
Proof.
  revert xs. induction m as [|b m IH]; intros [|y xs]; simpl; try done.
  destruct b; simpl.
  - intros [->|Hin]; [by exists 0%nat|].
    destruct (IH _ Hin) as (k & ? & ?). by exists (S k).
  - intros Hin. destruct (IH _ Hin) as (k & ? & ?). by exists (S k).
Qed.

Lemma filter_mask_In {A} m (xs : list A) x : In x (filter_mask m xs) -> In x xs.
Proof.
  intros (k & _ & Hk)%filter_mask_lookup.
  apply list_elem_of_In, list_elem_of_lookup. eauto.
Qed.

Lemma filter_mask_length {A} m (xs : list A) : length (filter_mask m xs) <= length xs.
Proof.
  revert xs. induction m as [|b m IH]; intros [|x xs]; simpl; try lia.
  specialize (IH xs). destruct b; simpl; lia.
Qed.

Lemma filter_mask_zip {A B} m (xs : list A) (ys : list B) :
  zip (filter_mask m xs) (filter_mask m ys) = filter_mask m (zip xs ys).
Proof.
  revert xs ys. induction m as [|b m IH]; intros [|x xs] [|y ys]; simpl; auto.
  - destruct b; simpl; [done|]. by destruct (filter_mask m xs).
  - destruct b; simpl; by rewrite IH.
Qed.

(** A mask computed from the positions keeps as many as it marks. *)
Lemma filter_mask_count {A} (f : nat -> bool) (xs : list A) i :
  length (filter_mask (map f (seq i (length xs))) xs)
  = length (List.filter f (seq i (length xs))).
Proof.
  revert i. induction xs as [|x xs IH]; intros i; simpl; [done|].
  destruct (f i); simpl; by rewrite IH.
Qed.

Lemma filter_mask_all {A} (f : nat -> bool) (xs : list A) i :
  (forall k, i <= k < i + length xs -> f k = true) ->
  filter_mask (map f (seq i (length xs))) xs = xs.
Proof.
  revert i. induction xs as [|x xs IH]; intros i Hall; simpl; [done|].
  rewrite Hall by (simpl; lia). rewrite IH; [done|].
  intros k Hk. apply Hall. simpl. lia.
Qed.

Lemma filter_mask_none {A} (f : nat -> bool) (xs : list A) i :
  (forall k, i <= k < i + length xs -> f k = false) ->
  filter_mask (map f (seq i (length xs))) xs = [].
Proof.
  revert i. induction xs as [|x xs IH]; intros i Hall; simpl; [done|].
  rewrite Hall by (simpl; lia). apply IH.
  intros k Hk. apply Hall. simpl. lia.
Qed.

Lemma isnull_cells s : Series_isnull s = map is_nan (cells s).
Proof.
  destruct s as [xs|xs]; simpl; rewrite map_map; apply map_ext; by intros [?|].
Qed.

Lemma cells_filter m s : cells (Series_filter m s) = filter_mask m (cells s).
Proof. destruct s as [xs|xs]; simpl; by rewrite filter_mask_map. Qed.

Lemma cells_length s : length (cells s) = Series_len s.
Proof. destruct s; simpl; by rewrite length_map. Qed.

Lemma row_complete_lookup d k name s :
  row_complete d k = true -> In (name, s) (columns d) -> cells s !! k <> Some NaN.
Proof.
  unfold row_complete. rewrite forallb_forall. intros Hall Hin Hk.
  specialize (Hall _ Hin). simpl in Hall.
  rewrite isnull_cells, lookup_map, Hk in Hall. done.
Qed.

Lemma mask_lookup d k :
  map (row_complete d) (seq 0 (nrows d)) !! k = Some true -> row_complete d k = true.
Proof.
  rewrite lookup_map. intros H.
  destruct (seq 0 (nrows d) !! k) as [j|] eqn:E; [|done].
  apply lookup_seq in E as [-> _]. simpl in H. congruence.
Qed.

Lemma dropna_no_missing d : no_missing (dropna d).
Proof.
  intros name s Hin Hnan. unfold dropna in Hin. simpl in Hin.
  apply in_map_iff in Hin as ([n s0] & [= <- <-] & Hin0).
  rewrite cells_filter in Hnan.
  apply filter_mask_lookup in Hnan as (k & Hm & Hk).
  apply mask_lookup in Hm. by eapply row_complete_lookup.
Qed.

Lemma count_true_zero bs : count_true bs = 0%nat -> ~ In true bs.
Proof.
  unfold count_true. induction bs as [|[|] bs IH]; simpl; [tauto|done|].
  intros H [?|?]; [done|]. by apply IH.
Qed.

Lemma list_sum_zero l x : list_sum l = 0%nat -> In x l -> x = 0%nat.
Proof.
  induction l as [|y l IH]; simpl; [done|].
  intros H [<-|Hin]; [lia|]. apply IH; [lia|done].
Qed.

Lemma isnull_zero_no_missing d : isnull_sum_sum d = 0%nat -> no_missing d.
Proof.
  intros H name s Hin Hnan. unfold isnull_sum_sum in H.
  assert (count_true (Series_isnull s) = 0%nat) as Hc.
  { eapply list_sum_zero; [exact H|].
    apply in_map_iff. by exists (name, s). }
  apply count_true_zero in Hc. apply Hc.
  rewrite isnull_cells. apply in_map_iff. by exists NaN.
Qed.

Lemma no_missing_complete d k : no_missing d -> row_complete d k = true.
Proof.
  intros H. unfold row_complete. apply forallb_forall. intros [n s] Hin. simpl.
  rewrite isnull_cells, lookup_map.
  destruct (cells s !! k) as [c|] eqn:E; [|done]. simpl.
  destruct c; try done. exfalso. apply (H n s Hin).
  apply list_elem_of_In, list_elem_of_lookup. eauto.
Qed.

Lemma drop_missing_no_missing d : no_missing (drop_missing d).
Proof.
  unfold drop_missing. destruct (Nat.ltb_spec 0 (isnull_sum_sum d)).
  - apply dropna_no_missing.
  - apply isnull_zero_no_missing. lia.
Qed.

(** The rows that are left are counted by [row_complete]. *)
Lemma drop_missing_nrows d :
  nrows (drop_missing d) = length (List.filter (row_complete d) (seq 0 (nrows d))).
Proof.
  unfold drop_missing. destruct (Nat.ltb_spec 0 (isnull_sum_sum d)).
  - unfold dropna, nrows. simpl. apply filter_mask_count.
  - assert (no_missing d) as Hn by (apply isnull_zero_no_missing; lia).
    rewrite forallb_filter_id; [by rewrite length_seq|].
    apply forallb_forall. intros k _. by apply no_missing_complete.
Qed.

(** ** Columns through assignments and drops *)

Lemma assoc_get_filter name (P : string * Series -> bool) cs :
  (forall s, P (name, s) = true) ->
  assoc_get name (List.filter P cs) = assoc_get name cs.
Proof.
  intros HP. induction cs as [|[n s] cs IH]; simpl; [done|].
  destruct (String.eqb name n) eqn:E.
  - apply String.eqb_eq in E. subst n. rewrite HP. simpl. by rewrite String.eqb_refl.
  - destruct (P (n, s)); simpl; [by rewrite E|done].
Qed.

Lemma get_drop_cols_ne name ns d :
  existsb (String.eqb name) ns = false ->
  get_col name (drop_cols ns d) = get_col name d.
Proof.
  intros H. unfold get_col, drop_cols. simpl. apply assoc_get_filter.
  intros s. simpl. by rewrite H.
Qed.

Lemma get_drop_cols_eq name ns d :
  existsb (String.eqb name) ns = true -> get_col name (drop_cols ns d) = None.
Proof.
  intros H. unfold get_col, drop_cols. simpl.
  induction (columns d) as [|[n s] cs IH]; simpl; [done|].
  destruct (existsb (String.eqb n) ns) eqn:E; simpl; [done|].
  destruct (String.eqb name n) eqn:E'; [|done].
  apply String.eqb_eq in E'. congruence.
Qed.

Lemma assoc_get_In name s cs : assoc_get name cs = Some s -> In (name, s) cs.
Proof.
  induction cs as [|[n s0] cs IH]; simpl; [done|].
  destruct (String.eqb name n) eqn:E; [|auto].
  apply String.eqb_eq in E. intros [= ->]. subst. by left.
Qed.

Lemma get_col_In name s d : get_col name d = Some s -> In (name, s) (columns d).
Proof. apply assoc_get_In. Qed.

Lemma get_col_dropna name d :
  get_col name (dropna d)
  = Series_filter (map (row_complete d) (seq 0 (nrows d))) <$> get_col name d.
Proof.
  unfold get_col, dropna. simpl.
  induction (columns d) as [|[n s] cs IH]; simpl; [done|].
  by destruct (String.eqb name n).
Qed.

(** ** The steps of [handle_missing_values] *)

Lemma fill_with_inv stat name d d' :
  fill_with stat name d = inr d' ->
  index d' = index d
  /\ (forall n, n <> name -> get_col n d' = get_col n d)
  /\ match get_col name d with
     | Some s => exists v, stat s = inr v /\ get_col name d' = Some (Series_fillna s v)
     | None => d' = d
     end.
Proof.
  unfold fill_with. destruct (get_col name d) as [s|] eqn:E.
  - unfold mbind, result_bind, mret, result_ret. destruct (stat s) as [e|v]; [done|].
    intros [= <-]. split; [done|]. split.
    + intros n Hn. by apply get_set_col_ne.
    + exists v. split; [done|]. apply get_set_col_eq.
  - by intros [= <-].
Qed.

Lemma flag_cabin_index d : index (flag_cabin d) = index d.
Proof. unfold flag_cabin. by destruct (get_col "Cabin" d). Qed.

Lemma flag_cabin_get name d :
  name <> "Cabin" -> name <> "hasCabin" ->
  get_col name (flag_cabin d) = get_col name d.
Proof.
  intros H1 H2. unfold flag_cabin. destruct (get_col "Cabin" d); [|done].
  rewrite get_drop_cols_ne, get_set_col_ne; auto.
  simpl. apply String.eqb_neq in H1. by rewrite H1.
Qed.

Lemma table_split d out :
  handle_missing_values_table d = inr out ->
  exists t, imputed d = inr t /\ out = drop_missing t.
Proof.
  unfold handle_missing_values_table, mbind, result_bind, mret, result_ret.
  destruct (imputed d) as [e|t]; [done|]. intros [= <-]. eauto.
Qed.

Lemma imputed_inv d t :
  imputed d = inr t ->
  exists d1 d2,
    fill_with Series_median "Age" d = inr d1
    /\ fill_with Series_mode0 "Embarked" d1 = inr d2
    /\ t = flag_cabin d2.
Proof.
  unfold imputed, mbind, result_bind, mret, result_ret.
  destruct (fill_with Series_median "Age" d) as [e|d1]; [done|].
  destruct (fill_with Series_mode0 "Embarked" d1) as [e|d2] eqn:E2; [done|].
  intros [= <-]. by exists d1, d2.
Qed.

Lemma imputed_index d t : imputed d = inr t -> index t = index d.
Proof.
  intros (d1 & d2 & H1 & H2 & ->)%imputed_inv.
  apply fill_with_inv in H1 as [I1 _]. apply fill_with_inv in H2 as [I2 _].
  rewrite flag_cabin_index. congruence.
Qed.

Lemma drop_missing_le d : nrows (drop_missing d) <= nrows d.
Proof.
  unfold drop_missing. destruct (Nat.ltb 0 (isnull_sum_sum d)); [|done].
  unfold dropna, nrows. simpl. apply filter_mask_length.
Qed.

(** ** The statistics are defined *)

Lemma minimum_some {A} (leb : A -> A -> bool) l : l <> [] -> is_Some (minimum leb l).
Proof.
  destruct l as [|x l]; [done|]. intros _. simpl.
  destruct (minimum leb l) as [y|]; [|by eexists].
  destruct (leb x y); by eexists.
Qed.

Lemma max_attained {A} (f : A -> nat) l :
  l <> [] -> exists x, In x l /\ f x = foldr (fun x acc => Nat.max (f x) acc) 0%nat l.
Proof.
  induction l as [|x l IH]; [done|]. intros _. simpl.
  destruct l as [|y l].
  - exists x. simpl. split; [by left|lia].
  - destruct IH as (z & Hz & Hfz); [done|].
    set (m := foldr (fun x acc => Nat.max (f x) acc) 0%nat (y :: l)) in *.
    destruct (Nat.le_ge_cases (f x) m).
    + exists z. split; [by right|lia].
    + exists x. split; [by left|lia].
Qed.

Lemma modes_nonempty {A} (eqb : A -> A -> bool) l : l <> [] -> modes eqb l <> [].
Proof.
  intros Hl. unfold modes.
  destruct (max_attained (fun x => occurrences eqb x l) l Hl) as (x & Hin & Hx).
  intros Hnil.
  assert (In x (List.filter
                  (fun x => Nat.eqb (occurrences eqb x l)
                              (foldr (fun x acc => Nat.max (occurrences eqb x l) acc) 0%nat l))
                  l)) as Hx'.
  { apply filter_In. split; [done|]. by apply Nat.eqb_eq. }
  rewrite Hnil in Hx'. done.
Qed.

Lemma present_nonempty {A} (xs : list (option A)) :
  existsb (fun x => negb (isna x)) xs = true -> present xs <> [].
Proof.
  induction xs as [|[a|] xs IH]; simpl; [done|done|]. exact IH.
Qed.

Lemma mode0_defined s :
  existsb (fun c => negb (is_nan c)) (cells s) = true ->
  exists v, Series_mode0 s = inr v.
Proof.
  intros H.
  assert (existsb (fun b : bool => negb b) (Series_isnull s) = true) as H'.
  { rewrite isnull_cells. rewrite existsb_exists in *.
    destruct H as (c & Hc & Hn). exists (is_nan c). split; [|done].
    apply in_map_iff. eauto. }
  destruct s as [xs|xs]; simpl in *.
  - destruct (minimum_some Qle_bool (modes Qeq_bool (present xs))) as [q ->]; [|eauto].
    apply modes_nonempty, present_nonempty.
    rewrite existsb_exists in *. destruct H' as (b & Hb & Hn).
    apply in_map_iff in Hb as (x & <- & Hx). eauto.
  - destruct (minimum_some String.leb (modes String.eqb (present xs))) as [t ->]; [|eauto].
    apply modes_nonempty, present_nonempty.
    rewrite existsb_exists in *. destruct H' as (b & Hb & Hn).
    apply in_map_iff in Hb as (x & <- & Hx). eauto.
Qed.

Lemma forallb_isna_existsb {A} (xs : list (option A)) :
  forallb isna xs = true -> existsb (fun x => negb (isna x)) xs = false.
Proof.
  induction xs as [|[a|] xs IH]; simpl; auto.
Qed.

Lemma median_defined s :
  match s with ObjCol xs => forallb isna xs | NumCol _ => true end = true ->
  exists v, Series_median s = inr v.
Proof.
  destruct s as [xs|xs]; simpl; [eauto|].
  intros H. rewrite forallb_isna_existsb by done. eauto.
Qed.

Lemma fill_with_defined stat name d :
  (forall s, get_col name d = Some s -> exists v, stat s = inr v) ->
  exists d', fill_with stat name d = inr d'.
Proof.
  intros H. unfold fill_with. destruct (get_col name d) as [s|]; [|eauto].
  destruct (H s eq_refl) as [v ->]. simpl. eauto.
Qed.

(** The handler returns on every table that [can_impute] accepts. *)
Lemma handle_missing_values_returns d :
  can_impute d = true -> exists out, run handle_missing_values d = inr out.
Proof.
  rewrite run_handle_missing_values.
  unfold can_impute. intros [Hage Hemb]%andb_prop.
  destruct (fill_with_defined Series_median "Age" d) as [d1 H1].
  { intros s Hs. rewrite Hs in Hage. apply median_defined. by destruct s. }
  destruct (fill_with_defined Series_mode0 "Embarked" d1) as [d2 H2].
  { intros s Hs. apply fill_with_inv in H1 as (_ & Hne & _).
    rewrite Hne in Hs by done. rewrite Hs in Hemb. by apply mode0_defined. }
  unfold handle_missing_values_table, imputed. rewrite H1. simpl. rewrite H2. simpl. eauto.
Qed.

(** ** The missing-value handler *)

Lemma labelled_drop_missing name t label c :
  In (label, c) (labelled name (drop_missing t)) -> In (label, c) (labelled name t).
Proof.
  unfold drop_missing. destruct (Nat.ltb 0 (isnull_sum_sum t)); [|done].
  unfold labelled. rewrite get_col_dropna.
  destruct (get_col name t) as [s|]; simpl; [|done].
  rewrite cells_filter, filter_mask_zip. apply filter_mask_In.
Qed.

(** C2.  Whatever table the handler returns has no missing value in any
    column.  The rows of the result are rows of the table as it stands
    after the Age, Embarked and Cabin steps, and they are as many as
    that table has rows without a missing value: every row with a
    missing value is gone, every other row is kept. *)
Theorem handler_leaves_no_missing_value d out :
  run handle_missing_values d = inr out ->
  no_missing out
  /\ exists t,
       imputed d = inr t
       /\ nrows out = length (List.filter (row_complete t) (seq 0 (nrows t)))
       /\ forall name label c,
            In (label, c) (labelled name out) -> In (label, c) (labelled name t).
Proof.
  rewrite run_handle_missing_values. intros (t & Ht & ->)%table_split. split.
  - apply drop_missing_no_missing.
  - exists t. split; [done|]. split.
    + apply drop_missing_nrows.
    + intros name label c. apply labelled_drop_missing.
Qed.

Lemma handler_leaves_no_missing_value_witness :
  exists out, run handle_missing_values sample = inr out /\ no_missing out.
Proof.
  destruct (handle_missing_values_returns sample) as [out Hout]; [reflexivity|].
  exists out. split; [exact Hout|].
  exact (proj1 (handler_leaves_no_missing_value sample out Hout)).
Defined.

(** C6.  The handler does raise: on a table whose [Embarked] column has
    no value at all, [mode()] is empty and the lookup of its label [0]
    raises [KeyError]. *)
Theorem handler_raises_without_port :
  can_impute no_port = false
  /\ wf no_port = true
  /\ run handle_missing_values no_port = inl (KeyError "0").
Proof. repeat split; vm_compute; reflexivity. Qed.

Lemma wf_col_len d name s :
  wf d = true -> get_col name d = Some s -> Series_len s = nrows d.
Proof.
  unfold wf. intros [[Hlen _]%andb_prop _]%andb_prop Hs.
  rewrite forallb_forall in Hlen. apply get_col_In in Hs.
  specialize (Hlen _ Hs). by apply Nat.eqb_eq in Hlen.
Qed.

Lemma filter_none {A} (f : A -> bool) l :
  (forall x, In x l -> f x = false) -> List.filter f l = [].
Proof.
  induction l as [|x l IH]; simpl; [done|]. intros H.
  rewrite (H x) by auto. apply IH. auto.
Qed.

Lemma present_all_nan (xs : list (option Q)) :
  forallb is_nan (cells (NumCol xs)) = true -> present xs = [].
Proof. induction xs as [|[q|] xs IH]; simpl; auto. done. Qed.

Lemma median_all_nan age :
  forallb is_nan (cells age) = true -> Series_median age = inr NaN.
Proof.
  destruct age as [xs|xs]; intros H.
  - unfold Series_median. by rewrite present_all_nan.
  - simpl. rewrite forallb_isna_existsb; [done|].
    simpl in H. rewrite forallb_forall in *. intros [t|] Hx; [|done].
    specialize (H (Str t)). simpl in H. apply H.
    apply in_map_iff. by exists (Some t).
Qed.

(** C10.  When every value of the [Age] column is missing, the median is
    NaN and filling with it fills nothing; every table the handler
    returns then has no row, so no age either.  The handler does return
    on such a table as long as the other columns allow it. *)
Theorem all_ages_missing d age :
  wf d = true ->
  get_col "Age" d = Some age ->
  forallb is_nan (cells age) = true ->
  Series_median age = inr NaN
  /\ Series_fillna age NaN = age
  /\ (forall out, run handle_missing_values d = inr out ->
        nrows out = 0%nat /\ labelled "Age" out = [])
  /\ (can_impute d = true -> exists out, run handle_missing_values d = inr out).
Proof.
  intros Hwf Hage Hnan. split; [by apply median_all_nan|].
  split; [by destruct age|]. split; [|apply handle_missing_values_returns].
  intros out. rewrite run_handle_missing_values. intros (t & Ht & ->)%table_split.
  assert (nrows (drop_missing t) = 0%nat) as H0.
  { rewrite drop_missing_nrows.
    pose proof (imputed_index _ _ Ht) as Hidx.
    apply imputed_inv in Ht as (d1 & d2 & H1 & H2 & ->).
    apply fill_with_inv in H1 as (_ & _ & H1). rewrite Hage in H1.
    destruct H1 as (v & Hv & Hage1). rewrite median_all_nan in Hv by done.
    injection Hv as <-.
    apply fill_with_inv in H2 as (_ & H2 & _).
    assert (get_col "Age" (flag_cabin d2) = Some age) as Hage2.
    { rewrite flag_cabin_get, H2 by done. rewrite Hage1. by destruct age. }
    rewrite filter_none; [done|].
    intros k [_ Hk]%in_seq. simpl in Hk.
    apply not_true_is_false. intros Hc.
    apply (row_complete_lookup _ _ _ _ Hc (get_col_In _ _ _ Hage2)).
    assert (k < length (cells age)) as Hlt.
    { rewrite cells_length, (wf_col_len d "Age" age) by done.
      unfold nrows in *. by rewrite <- Hidx. }
    apply lookup_lt_is_Some_2 in Hlt as [c Hc'].
    rewrite Hc'. f_equal. rewrite forallb_forall in Hnan.
    assert (In c (cells age)) as Hin
      by (apply list_elem_of_In, list_elem_of_lookup; eauto).
    specialize (Hnan c Hin). by destruct c. }
  split; [done|]. unfold labelled.
  destruct (get_col "Age" (drop_missing t)); [|done].
  unfold nrows in H0. by destruct (index (drop_missing t)).
Qed.

Lemma all_ages_missing_witness :
  exists out, run handle_missing_values no_ages = inr out /\ nrows out = 0%nat.
Proof.
  destruct (all_ages_missing no_ages (NumCol [None; None]) eq_refl eq_refl eq_refl)
    as (_ & _ & Hrows & Hret).
  destruct (Hret eq_refl) as [out Hout].
  exists out. split; [exact Hout|]. exact (proj1 (Hrows out Hout)).
Defined.

Lemma filter_mask_same_length {A B} m (xs : list A) (ys : list B) :
  length xs = length ys -> length (filter_mask m xs) = length (filter_mask m ys).
Proof.
  revert xs ys. induction m as [|b m IH]; intros [|x xs] [|y ys]; simpl; try done.
  intros [= H]. destruct b; simpl; by rewrite (IH xs ys).
Qed.

Lemma fst_zip_le {A B} (xs : list A) (ys : list B) :
  length xs <= length ys -> map fst (zip xs ys) = xs.
Proof.
  revert ys. induction xs as [|x xs IH]; intros [|y ys]; simpl; try done; try lia.
  intros H. rewrite IH; [done|lia].
Qed.

Lemma cells_notna_flags s :
  cells (notna_flags s) = map (fun c => Num (if is_nan c then 0 else 1)%Q) (cells s).
Proof. unfold notna_flags. rewrite isnull_cells. simpl. by rewrite !map_map. Qed.

(** C8.  For a table with a [Cabin] column, every table the handler
    returns has no [Cabin] column and has a [hasCabin] column with one
    entry per row; the entry of a row is 1 when the [Cabin] value of
    that row, found by the row label in the table that was passed in,
    is there, and 0 when it is missing.  The handler does return on
    such a table whenever [can_impute] accepts it. *)
Theorem cabin_becomes_flag d cabin :
  wf d = true ->
  get_col "Cabin" d = Some cabin ->
  (forall out, run handle_missing_values d = inr out ->
     get_col "Cabin" out = None
     /\ map fst (labelled "hasCabin" out) = index out
     /\ forall label v,
          In (label, v) (labelled "hasCabin" out) ->
          exists c, In (label, c) (labelled "Cabin" d)
                    /\ v = Num (if is_nan c then 0 else 1)%Q)
  /\ (can_impute d = true -> exists out, run handle_missing_values d = inr out).
Proof.
  intros Hwf Hcabin. split; [|apply handle_missing_values_returns].
  intros out. rewrite run_handle_missing_values. intros (t & Ht & ->)%table_split.
  pose proof (imputed_index _ _ Ht) as Hidx.
  apply imputed_inv in Ht as (d1 & d2 & H1 & H2 & ->).
  apply fill_with_inv in H1 as (_ & H1 & _).
  apply fill_with_inv in H2 as (_ & H2 & _).
  assert (get_col "Cabin" d2 = Some cabin) as Hc2 by (rewrite H2, H1; done).
  assert (get_col "Cabin" (flag_cabin d2) = None) as HnoCabin.
  { unfold flag_cabin. rewrite Hc2. by apply get_drop_cols_eq. }
  assert (get_col "hasCabin" (flag_cabin d2) = Some (notna_flags cabin)) as Hflag.
  { unfold flag_cabin. rewrite Hc2.
    rewrite get_drop_cols_ne by done. apply get_set_col_eq. }
  assert (length (index (flag_cabin d2)) = length (cells (notna_flags cabin))) as Hlen.
  { rewrite Hidx, cells_notna_flags, length_map, cells_length.
    symmetry. by apply (wf_col_len d "Cabin"). }
  split; [|split].
  - unfold drop_missing. destruct (Nat.ltb 0 (isnull_sum_sum (flag_cabin d2))); [|done].
    by rewrite get_col_dropna, HnoCabin.
  - unfold drop_missing, labelled.
    destruct (Nat.ltb 0 (isnull_sum_sum (flag_cabin d2))).
    + rewrite get_col_dropna, Hflag. cbn [fmap option_fmap option_map].
      rewrite cells_filter. apply fst_zip_le. unfold dropna. cbn [index].
      by rewrite (filter_mask_same_length _ _ _ Hlen).
    + rewrite Hflag. apply fst_zip_le. by rewrite Hlen.
  - intros label v Hin. apply labelled_drop_missing in Hin.
    unfold labelled in *. rewrite Hflag in Hin. rewrite Hcabin.
    rewrite cells_notna_flags, Hidx in Hin.
    apply list_elem_of_In, list_elem_of_lookup in Hin as [k Hk].
    apply lookup_zip_with_Some in Hk as (l & c' & [= <- <-] & Hl & Hc').
    rewrite lookup_map in Hc'.
    destruct (cells cabin !! k) as [c|] eqn:Ec; [|done]. injection Hc' as <-.
    exists c. split; [|done].
    apply list_elem_of_In, list_elem_of_lookup. exists k.
    apply lookup_zip_with_Some. eauto.
Qed.

Lemma cabin_becomes_flag_witness :
  exists out,
    run handle_missing_values sample = inr out
    /\ get_col "Cabin" out = None
    /\ labelled "hasCabin" out = [(0, Num 0); (1, Num 1); (2, Num 0); (3, Num 1)]%nat.
Proof.
  destruct (cabin_becomes_flag sample (ObjCol [None; Some "C85"; None; Some "C123"])
              eq_refl eq_refl) as [Hout Hret].
  destruct (Hret eq_refl) as [out Heq].
  exists out. split; [exact Heq|]. split; [exact (proj1 (Hout out Heq))|].
  revert Heq. vm_compute. intros [= <-]. reflexivity.
Defined.

(** ** Titles *)

Lemma append_cons c s r : String c s ++ r = String c (s ++ r).
Proof. reflexivity. Qed.

Lemma append_nil r : EmptyString ++ r = r.
Proof. reflexivity. Qed.

Lemma take_letters_spec s :
  s = fst (take_letters s) ++ snd (take_letters s)
  /\ all_letters (fst (take_letters s)) = true.
Proof.
  induction s as [|c s [IH1 IH2]]; simpl; [done|].
  destruct (is_letter c) eqn:E; [|done].
  destruct (take_letters s) as [w r]. simpl in *.
  split; [by rewrite IH1 at 1|]. by rewrite E.
Qed.

Lemma take_letters_stop t post :
  all_letters t = true -> take_letters (t ++ String "."%char post) = (t, String "."%char post).
Proof.
  induction t as [|c t IH]; [done|]. rewrite append_cons. simpl.
  intros [-> Ht]%andb_prop. by rewrite IH.
Qed.

Lemma match_group_sound s t :
  match_group s = Some t ->
  exists post, s = t ++ "." ++ post /\ t <> EmptyString /\ all_letters t = true.
Proof.
  unfold match_group. destruct (take_letters_spec s) as [Hs Hl].
  destruct (take_letters s) as [[|c w] [|c' r]]; simpl in *; try done.
  destruct c' as [[] [] [] [] [] [] [] []]; try done.
  intros [= <-]. exists r. by rewrite Hs at 1.
Qed.

(** The extracted title is the group of an occurrence of the pattern:
    a space, letters, a period. *)
Lemma extract_title_sound s t :
  extract_title s = Some t ->
  exists pre post,
    s = pre ++ " " ++ t ++ "." ++ post /\ t <> EmptyString /\ all_letters t = true.
Proof.
  induction s as [|c s IH]; simpl; [done|].
  destruct (Ascii.eqb c " ") eqn:E.
  - apply Ascii.eqb_eq in E. subst c.
    destruct (match_group s) as [t'|] eqn:Em.
    + intros [= ->]. apply match_group_sound in Em as (post & -> & ? & ?).
      by exists EmptyString, post.
    + intros (pre & post & -> & ? & ?)%IH. by exists (String " " pre), post.
  - intros (pre & post & -> & ? & ?)%IH. by exists (String c pre), post.
Qed.

(** Where the pattern occurs, a title is extracted. *)
Lemma extract_title_complete pre t post :
  t <> EmptyString -> all_letters t = true ->
  is_Some (extract_title (pre ++ " " ++ t ++ "." ++ post)).
Proof.
  intros Hne Hl. induction pre as [|c pre IH].
  - rewrite append_nil, !append_cons, append_nil. simpl.
    unfold match_group. rewrite take_letters_stop by done.
    destruct t; [done|]. by eexists.
  - rewrite append_cons. simpl. destruct (Ascii.eqb c " "); [|done].
    destruct (match_group _); [by eexists|done].
Qed.

Lemma dict_get_None k d : ~ In k (map fst d) -> dict_get k d = None.
Proof.
  induction d as [|[k' v] d IH]; simpl; [done|]. intros H.
  destruct (String.eqb k k') eqn:E.
  - apply String.eqb_eq in E. subst k'. exfalso. apply H. by left.
  - apply IH. intros Hin. apply H. by right.
Qed.

Lemma existsb_filter_false {A} (f g : A -> bool) l :
  existsb f l = false -> existsb f (List.filter g l) = false.
Proof.
  induction l as [|x l IH]; simpl; [done|].
  intros [Hx Hl]%orb_false_elim. destruct (g x); simpl; [rewrite Hx|]; auto.
Qed.

Lemma drop_unused_get name d :
  existsb (String.eqb name) cols_to_drop = false ->
  get_col name (drop_unused d) = get_col name d.
Proof.
  intros H. unfold drop_unused.
  destruct (List.filter (fun c => has_col c d) cols_to_drop) as [|c cs] eqn:E; [done|].
  apply get_drop_cols_ne. rewrite <- E. by apply existsb_filter_false.
Qed.

Lemma add_family_size_inv d d' :
  add_family_size d = inr d' ->
  index d' = index d
  /\ forall n, n <> "FamilySize" -> get_col n d' = get_col n d.
Proof.
  unfold add_family_size, mbind, result_bind, mret, result_ret.
  destruct (get_col "SibSp" d) as [a|]; [|by intros [= <-]].
  destruct (get_col "Parch" d) as [b|]; [|by intros [= <-]].
  destruct (Series_add a b) as [e|s]; [done|].
  destruct (Series_add_scalar s 1) as [e|f]; [done|].
  intros [= <-]. split; [done|]. intros n Hn. by apply get_set_col_ne.
Qed.

Lemma titles_of_names xs :
  Series_fillna (Series_map_dict title_mapping (ObjCol (map (fun x => x ≫= extract_title) xs)))
    (Str "Rare")
  = ObjCol (map (fun n => Some (title_of n)) xs).
Proof.
  unfold Series_map_dict, Series_fillna, map_dict. f_equal.
  rewrite !map_map. apply map_ext.
  intros n. unfold title_of. destruct (n ≫= extract_title) as [t|]; [|done].
  cbn [mbind option_bind default]. by destruct (dict_get t title_mapping).
Qed.

Lemma feature_engineering_inv d out :
  feature_engineering_table d = inr out ->
  exists d1 d2,
    add_title d = inr d1 /\ add_family_size d1 = inr d2 /\ out = drop_unused d2.
Proof.
  unfold feature_engineering_table, mbind, result_bind, mret, result_ret.
  destruct (add_title d) as [e|d1]; [done|].
  destruct (add_family_size d1) as [e|d2] eqn:E2; [done|].
  intros [= <-]. by exists d1, d2.
Qed.

Lemma add_title_index d d1 : add_title d = inr d1 -> index d1 = index d.
Proof.
  unfold add_title, mbind, result_bind, mret, result_ret.
  destruct (get_col "Name" d) as [s|]; [|by intros [= <-]].
  destruct (Series_str_extract s); [done|]. by intros [= <-].
Qed.

Lemma add_title_get d d1 n :
  add_title d = inr d1 -> n <> "Title" -> get_col n d1 = get_col n d.
Proof.
  unfold add_title, mbind, result_bind, mret, result_ret.
  destruct (get_col "Name" d) as [s|]; [|by intros [= <-]].
  destruct (Series_str_extract s); [done|]. intros [= <-] Hn.
  by apply get_set_col_ne.
Qed.

(** The feature engineer returns on every table that [can_engineer]
    accepts. *)
Lemma feature_engineering_returns d :
  can_engineer d = true -> exists out, run feature_engineering d = inr out.
Proof.
  rewrite run_feature_engineering. unfold can_engineer.
  intros [Hname Hfam]%andb_prop.
  assert (exists d1, add_title d = inr d1) as [d1 H1].
  { unfold add_title. destruct (get_col "Name" d) as [[?|xs]|]; try done; simpl; eauto. }
  assert (exists d2, add_family_size d1 = inr d2) as [d2 H2].
  { unfold add_family_size.
    rewrite !(add_title_get d d1) by done.
    destruct (get_col "SibSp" d) as [[a|a]|], (get_col "Parch" d) as [[b|b]|];
      try done; simpl; eauto. }
  unfold feature_engineering_table. rewrite H1. simpl. rewrite H2. simpl. eauto.
Qed.

(** C5.  For a table with a text column [Name], every table the feature
    engineer returns has a [Title] column that holds [title_of] of the
    name of each row.  [title_of] sends an extracted title through the
    lookup table: Mr to Mr; Miss, Mlle and Ms to Miss; Mrs and Mme to
    Mrs; Master to Master; the eleven rare titles to Rare; a title that
    is no key of the table to Rare; and a name from which nothing is
    extracted (a missing name included) to Rare.  What is extracted is
    the run of letters of an occurrence of a space, letters and a
    period, and something is extracted wherever there is such an
    occurrence.  The engineer returns whenever [can_engineer] accepts
    the table. *)
Theorem titles_are_mapped d xs :
  get_col "Name" d = Some (ObjCol xs) ->
  (forall out, run feature_engineering d = inr out ->
     get_col "Title" out = Some (ObjCol (map (fun n => Some (title_of n)) xs)))
  /\ (can_engineer d = true -> exists out, run feature_engineering d = inr out)
  /\ (forall n t, n ≫= extract_title = Some t ->
        (t = "Mr" -> title_of n = "Mr")
        /\ (In t ["Miss"; "Mlle"; "Ms"] -> title_of n = "Miss")
        /\ (In t ["Mrs"; "Mme"] -> title_of n = "Mrs")
        /\ (t = "Master" -> title_of n = "Master")
        /\ (In t ["Dr"; "Rev"; "Col"; "Major"; "Lady"; "Countess"; "Jonkheer";
                  "Don"; "Dona"; "Capt"; "Sir"] -> title_of n = "Rare")
        /\ (~ In t (map fst title_mapping) -> title_of n = "Rare"))
  /\ (forall n, n ≫= extract_title = None -> title_of n = "Rare")
  /\ (forall s t, extract_title s = Some t ->
        exists pre post,
          s = pre ++ " " ++ t ++ "." ++ post /\ t <> EmptyString /\ all_letters t = true)
  /\ (forall pre t post, t <> EmptyString -> all_letters t = true ->
        is_Some (extract_title (pre ++ " " ++ t ++ "." ++ post)))
  /\ title_of (Some "Braund, Mr. Owen Harris") = "Mr"
  /\ title_of (Some "Brewe, Dr. Arthur Jackson") = "Rare"
  /\ title_of (Some "Aubart, Mme. Leontine Pauline") = "Mrs".
Proof.
  intros Hname. split; [|split; [apply feature_engineering_returns|]].
  - intros out. rewrite run_feature_engineering.
    intros (d1 & d2 & H1 & H2 & ->)%feature_engineering_inv.
    rewrite drop_unused_get by done.
    apply add_family_size_inv in H2 as [_ H2]. rewrite H2 by done.
    unfold add_title in H1. rewrite Hname in H1. simpl in H1.
    injection H1 as <-. rewrite get_set_col_eq. f_equal.
    apply (titles_of_names xs).
  - split; [|split; [|split; [|split]]].
    + intros n t Ht. unfold title_of. rewrite Ht.
      repeat split.
      * by intros ->.
      * simpl. intros [<-|[<-|[<-|[]]]]; reflexivity.
      * simpl. intros [<-|[<-|[]]]; reflexivity.
      * by intros ->.
      * simpl. intros H. repeat (destruct H as [<-|H]; [reflexivity|]). destruct H.
      * intros H. by rewrite dict_get_None.
    + intros n Hn. unfold title_of. by rewrite Hn.
    + apply extract_title_sound.
    + apply extract_title_complete.
    + repeat split; vm_compute; reflexivity.
Qed.

Lemma titles_are_mapped_witness :
  exists out,
    run feature_engineering sample = inr out
    /\ get_col "Title" out = Some (ObjCol [Some "Mr"; Some "Mrs"; Some "Miss"; Some "Mrs"]).
Proof.
  destruct (titles_are_mapped sample
              [Some "Braund, Mr. Owen Harris";
               Some "Cumings, Mrs. John Bradley (Florence Briggs Thayer)";
               Some "Heikkinen, Miss. Laina";
               Some "Futrelle, Mrs. Jacques Heath (Lily May Peel)"] eq_refl)
    as (Htitle & Hret & _).
  destruct (Hret eq_refl) as [out Hout].
  exists out. split; [exact Hout|]. rewrite (Htitle out Hout). reflexivity.
Defined.

(** ** Row count *)

Lemma feature_engineering_index d out :
  feature_engineering_table d = inr out -> index out = index d.
Proof.
  intros (d1 & d2 & H1 & H2 & ->)%feature_engineering_inv.
  apply add_title_index in H1. apply add_family_size_inv in H2 as [H2 _].
  unfold drop_unused. destruct (List.filter _ cols_to_drop); simpl; congruence.
Qed.

Lemma encode_loop_index cs : forall d out,
  encode_loop cs d = inr out -> index out = index d.
Proof.
  induction cs as [|c cs IH]; intros d out; simpl.
  - by intros [= <-].
  - destruct (get_col c d) as [s|]; [|done]. intros H. by rewrite (IH _ _ H).
Qed.

Lemma set_cols_index cs X d : index (set_cols cs X d) = index d.
Proof.
  unfold set_cols. revert d. induction (zip cs X) as [|cx l IH]; intros d; simpl; [done|].
  by rewrite IH.
Qed.

Lemma log_fare_index log1p d d' : log_fare log1p d = inr d' -> index d' = index d.
Proof.
  unfold log_fare, mbind, result_bind, mret, result_ret.
  destruct (get_col "Fare" d) as [s|]; [|by intros [= <-]].
  destruct (Series_log1p log1p s); [done|]. by intros [= <-].
Qed.

Lemma standardize_cols_index sqrt d d' :
  standardize_cols sqrt d = inr d' -> index d' = index d.
Proof.
  unfold standardize_cols, mbind, result_bind, mret, result_ret.
  destruct (List.filter _ num_cols) as [|c cs]; [by intros [= <-]|].
  destruct (get_cols (c :: cs) d) as [e|X]; [done|].
  destruct (StandardScaler_fit_transform sqrt X) as [e|X']; [done|].
  intros [= <-]. apply set_cols_index.
Qed.

Lemma scaling_index log1p sqrt d out :
  scaling_table log1p sqrt d = inr out -> index out = index d.
Proof.
  unfold scaling_table, mbind, result_bind.
  destruct (log_fare log1p d) as [e|d1] eqn:E1; [done|]. intros H.
  apply standardize_cols_index in H. apply log_fare_index in E1. congruence.
Qed.

(** C7.  The feature engineer, the encoder and the scaler return a
    table with the rows (the row labels) of the table they were given.
    The missing-value handler returns at most as many rows as it was
    given, and exactly as many when the table has no missing value left
    after the Age, Embarked and Cabin steps.  Hence over the four
    transformations in the order of [main] the row count does not grow,
    and it stays the same when nothing is missing after imputation. *)
Theorem row_count log1p sqrt d :
  (forall out, run feature_engineering d = inr out -> index out = index d)
  /\ (forall out, run encoding d = inr out -> index out = index d)
  /\ (forall out, run (scaling log1p sqrt) d = inr out -> index out = index d)
  /\ (forall out, run handle_missing_values d = inr out ->
        nrows out <= nrows d
        /\ forall t, imputed d = inr t -> isnull_sum_sum t = 0%nat -> index out = index d)
  /\ (forall d1 d2 d3 d4,
        run handle_missing_values d = inr d1 ->
        run feature_engineering d1 = inr d2 ->
        run encoding d2 = inr d3 ->
        run (scaling log1p sqrt) d3 = inr d4 ->
        nrows d4 <= nrows d
        /\ forall t, imputed d = inr t -> isnull_sum_sum t = 0%nat -> nrows d4 = nrows d).
Proof.
  assert (forall d out, run handle_missing_values d = inr out ->
        nrows out <= nrows d
        /\ forall t, imputed d = inr t -> isnull_sum_sum t = 0%nat -> index out = index d)
    as Hhandler.
  { intros d0 out. rewrite run_handle_missing_values. intros (t & Ht & ->)%table_split.
    pose proof (imputed_index _ _ Ht) as Hidx. split.
    - etrans; [apply drop_missing_le|]. unfold nrows. by rewrite Hidx.
    - intros t' Ht' H0. rewrite Ht in Ht'. injection Ht' as <-.
      unfold drop_missing. by rewrite H0. }
  split; [|split; [|split; [|split]]].
  - intros out. rewrite run_feature_engineering. apply feature_engineering_index.
  - intros out. rewrite run_encoding. apply encode_loop_index.
  - intros out. rewrite run_scaling. apply scaling_index.
  - apply Hhandler.
  - intros d1 d2 d3 d4 H1 H2 H3 H4.
    rewrite run_feature_engineering in H2. apply feature_engineering_index in H2.
    rewrite run_encoding in H3. apply encode_loop_index in H3.
    rewrite run_scaling in H4. apply scaling_index in H4.
    destruct (Hhandler d d1 H1) as [Hle Heq].
    assert (nrows d4 = nrows d1) as -> by (unfold nrows; congruence).
    split; [done|]. intros t Ht H0. unfold nrows. by rewrite (Heq t Ht H0).
Qed.

Lemma row_count_witness :
  run handle_missing_values sample = inr sample1
  /\ run feature_engineering sample1 = inr sample2
  /\ run encoding sample2 = inr sample3
  /\ run (scaling (fun x => x) (fun x => x)) sample3 = inr sample4
  /\ nrows sample4 = nrows sample.
Proof.
  assert (run handle_missing_values sample = inr sample1) as E1
    by (vm_compute; reflexivity).
  assert (run feature_engineering sample1 = inr sample2) as E2
    by (vm_compute; reflexivity).
  assert (run encoding sample2 = inr sample3) as E3
    by (vm_compute; reflexivity).
  assert (run (scaling (fun x => x) (fun x => x)) sample3 = inr sample4) as E4
    by (vm_compute; reflexivity).
  assert (imputed sample = inr sample_imputed) as Et
    by (vm_compute; reflexivity).
  assert (isnull_sum_sum sample_imputed = 0%nat) as H0
    by (vm_compute; reflexivity).
  split; [exact E1|]. split; [exact E2|]. split; [exact E3|]. split; [exact E4|].
  destruct (row_count (fun x => x) (fun x => x) sample) as (_ & _ & _ & _ & H).
  exact (proj2 (H sample1 sample2 sample3 sample4 E1 E2 E3 E4) sample_imputed Et H0).
Defined.

(** ** The encoder *)

Section Ranking.
Context {A : Type} (cmp : A -> A -> comparison).
Hypothesis cmp_eq : forall a b, cmp a b = Eq -> a = b.
Hypothesis cmp_antisym : forall a b, cmp a b = CompOpp (cmp b a).
Hypothesis cmp_trans : forall a b c, cmp a b = Lt -> cmp b c = Lt -> cmp a c = Lt.

Lemma cmp_refl a : cmp a a = Eq.
Proof. pose proof (cmp_antisym a a) as H. by destruct (cmp a a). Qed.

Lemma cmp_gt_lt a b : cmp a b = Gt -> cmp b a = Lt.
Proof. intros H. rewrite cmp_antisym, H. done. Qed.

Lemma insert_uniq_In x y l : In y (insert_uniq cmp x l) <-> y = x \/ In y l.
Proof.
  induction l as [|z l IH]; simpl; [intuition congruence|].
  destruct (cmp x z) eqn:E; simpl.
  - apply cmp_eq in E. subst z. intuition congruence.
  - intuition congruence.
  - rewrite IH. intuition congruence.
Qed.

Lemma insert_uniq_ascending x l :
  ascending cmp l -> ascending cmp (insert_uniq cmp x l).
Proof.
  unfold ascending. induction l as [|z l IH]; simpl; intros Hs.
  - repeat constructor.
  - apply StronglySorted_inv in Hs as [Hs Hz].
    destruct (cmp x z) eqn:E.
    + by constructor.
    + constructor; [by constructor|].
      constructor; [done|]. eapply Forall_impl; [exact Hz|].
      simpl. intros a Ha. by eapply cmp_trans.
    + constructor; [by apply IH|].
      apply List.Forall_forall. intros a [->|Ha]%insert_uniq_In.
      * by apply cmp_gt_lt.
      * rewrite List.Forall_forall in Hz. by apply Hz.
Qed.

Lemma present_In (xs : list (option A)) a : In a (present xs) <-> In (Some a) xs.
Proof.
  induction xs as [|[b|] xs IH]; simpl; [done| |].
  - rewrite IH. intuition congruence.
  - rewrite IH. intuition congruence.
Qed.

Lemma classes_In xs a : In a (classes cmp xs) <-> In (Some a) xs.
Proof.
  unfold classes. rewrite <- present_In.
  induction (present xs) as [|b l IH]; simpl; [done|].
  rewrite insert_uniq_In, IH. intuition congruence.
Qed.

Lemma classes_ascending xs : ascending cmp (classes cmp xs).
Proof.
  unfold classes. induction (present xs) as [|b l IH]; simpl.
  - constructor.
  - by apply insert_uniq_ascending.
Qed.

Lemma index_of_lookup a l : In a l -> l !! index_of cmp a l = Some a.
Proof.
  induction l as [|z l IH]; simpl; [done|]. intros Hin.
  destruct (cmp a z) eqn:E.
  - apply cmp_eq in E. by subst.
  - destruct Hin as [->|Hin]; [by rewrite cmp_refl in E|]. by apply IH.
  - destruct Hin as [->|Hin]; [by rewrite cmp_refl in E|]. by apply IH.
Qed.

Lemma index_of_lt a l : In a l -> index_of cmp a l < length l.
Proof. intros H. eapply lookup_lt_Some. by apply index_of_lookup. Qed.

(** In an ascending list, positions compare as the values do. *)
Lemma index_of_compare a b l :
  ascending cmp l -> In a l -> In b l ->
  Nat.compare (index_of cmp a l) (index_of cmp b l) = cmp a b.
Proof.
  unfold ascending. induction l as [|z l IH]; simpl; [done|].
  intros [Hs Hz]%StronglySorted_inv Ha Hb. rewrite List.Forall_forall in Hz.
  assert (forall c, In c (z :: l) -> cmp c z <> Eq -> In c l) as Htail.
  { intros c [->|Hc] Hne; [|done]. by rewrite cmp_refl in Hne. }
  assert (forall c, In c (z :: l) -> cmp c z <> Eq ->
            cmp z c = Lt /\ cmp c z = Gt /\ In c l) as Hbelow.
  { intros c Hc Hne. pose proof (Htail c Hc Hne) as Hin.
    split; [by apply Hz|]. split; [|done]. by rewrite cmp_antisym, Hz. }
  destruct (cmp a z) eqn:Ea.
  - apply cmp_eq in Ea. subst a. destruct (cmp b z) eqn:Eb.
    + apply cmp_eq in Eb. subst b. by rewrite cmp_refl.
    + simpl. symmetry. apply Hbelow; [done|congruence].
    + simpl. symmetry. apply Hbelow; [done|congruence].
  - destruct (Hbelow a Ha) as (_ & Hgt & _); congruence.
  - destruct (Hbelow a Ha) as (_ & Hgt & Hal); [congruence|].
    destruct (cmp b z) eqn:Eb.
    + apply cmp_eq in Eb. subst b. simpl. congruence.
    + destruct (Hbelow b Hb) as (_ & _ & Hbl); [congruence|]. simpl. by apply IH.
    + destruct (Hbelow b Hb) as (_ & _ & Hbl); [congruence|]. simpl. by apply IH.
Qed.
End Ranking.

Lemma ascii_compare_trans a b c :
  Ascii.compare a b = Lt -> Ascii.compare b c = Lt -> Ascii.compare a c = Lt.
Proof. unfold Ascii.compare. rewrite !N.compare_lt_iff. apply N.lt_trans. Qed.

Lemma string_compare_trans s1 : forall s2 s3,
  String.compare s1 s2 = Lt -> String.compare s2 s3 = Lt -> String.compare s1 s3 = Lt.
Proof.
  induction s1 as [|a s1 IH]; intros [|b s2] [|c s3]; simpl; try done.
  destruct (Ascii.compare a b) eqn:Eab; try done.
  - apply Ascii.compare_eq_iff in Eab. subst b.
    destruct (Ascii.compare a c); try done. apply IH.
  - intros _. destruct (Ascii.compare b c) eqn:Ebc; try done.
    + apply Ascii.compare_eq_iff in Ebc. subst c. by rewrite Eab.
    + by rewrite (ascii_compare_trans _ _ _ Eab Ebc).
Qed.

Lemma encode_loop_skip n s cs : forall idx cols,
  ~ In n cs ->
  encode_loop cs (mkDF idx ((n, s) :: cols))
  = match encode_loop cs (mkDF idx cols) with
    | inr d' => inr (mkDF idx ((n, s) :: columns d'))
    | inl e => inl e
    end.
Proof.
  induction cs as [|c cs IH]; intros idx cols Hn; simpl; [done|].
  assert (String.eqb c n = false) as E.
  { apply String.eqb_neq. intros ->. apply Hn. by left. }
  unfold get_col. simpl. rewrite E.
  destruct (assoc_get c cols) as [s0|]; [|done].
  unfold set_col. simpl. rewrite E. apply IH. intros H. apply Hn. by right.
Qed.

Lemma object_names_In n cols :
  In n (map fst (List.filter (fun c : string * Series => is_object (snd c)) cols)) ->
  In n (map fst cols).
Proof.
  intros ([n' s] & <- & [H _]%filter_In)%in_map_iff.
  apply in_map_iff. by exists (n', s).
Qed.

Lemma encode_loop_map idx cols :
  NoDup (map fst cols) ->
  encode_loop (map fst (List.filter (fun c => is_object (snd c)) cols)) (mkDF idx cols)
  = inr (mkDF idx (map encode_col cols)).
Proof.
  induction cols as [|[n s] cols IH]; simpl; [done|].
  intros [Hn Hnd]%NoDup_cons. rewrite list_elem_of_In in Hn.
  destruct s as [xs|xs]; simpl.
  - rewrite encode_loop_skip by (intros H; by apply Hn, object_names_In).
    by rewrite IH.
  - unfold get_col, set_col. simpl. rewrite String.eqb_refl.
    rewrite encode_loop_skip by (intros H; by apply Hn, object_names_In).
    by rewrite IH.
Qed.

Lemma assoc_get_encode name cols :
  assoc_get name (map encode_col cols)
  = (fun s => if is_object s then fit_transform s else s) <$> assoc_get name cols.
Proof.
  induction cols as [|[n s] cols IH]; simpl; [done|].
  by destruct (String.eqb name n).
Qed.

Lemma assoc_get_NoDup name s cols :
  NoDup (map fst cols) -> In (name, s) cols -> assoc_get name cols = Some s.
Proof.
  induction cols as [|[n s0] cols IH]; simpl; [done|].
  intros [Hn Hnd]%NoDup_cons [[= -> ->]|Hin].
  - by rewrite String.eqb_refl.
  - destruct (String.eqb name n) eqn:E; [|by apply IH].
    apply String.eqb_eq in E. subst n. exfalso. apply Hn.
    apply list_elem_of_In, in_map_iff. by exists (name, s).
Qed.

(** C3.  On every table (with distinct column names) the encoder
    returns, and the table it returns has the rows and the column names
    of the one it was given; every numeric column is as it was and every
    text column is replaced by its codes, so no column of the result is
    text.  The codes of a column depend on that column alone: the class
    list is strictly ascending and holds exactly the distinct values of
    the column, the code of a value is its position in that list, so
    codes compare as the values do; a missing value gets the code after
    the last class. *)
Theorem encoder_codes d :
  wf d = true ->
  exists out,
    run encoding d = inr out
    /\ index out = index d
    /\ columns out = map encode_col (columns d)
    /\ (forall name s, In (name, s) (columns out) -> is_object s = false)
    /\ (forall name xs, In (name, NumCol xs) (columns d) ->
          get_col name out = Some (NumCol xs))
    /\ (forall name xs, In (name, ObjCol xs) (columns d) ->
          let cl := classes String.compare xs in
          let code := label_code String.compare cl in
          get_col name out
          = Some (NumCol (map (fun x => Some (inject_Z (Z.of_nat (code x)))) xs))
          /\ ascending String.compare cl
          /\ (forall a, In a cl <-> In (Some a) xs)
          /\ (forall a, In (Some a) xs -> cl !! code (Some a) = Some a)
          /\ (forall a b, In (Some a) xs -> In (Some b) xs ->
                Nat.compare (code (Some a)) (code (Some b)) = String.compare a b)
          /\ code None = length cl).
Proof.
  unfold wf. intros [[_ Hnd%bool_decide_eq_true]%andb_prop _]%andb_prop.
  exists (mkDF (index d) (map encode_col (columns d))).
  assert (forall a b : string, String.compare a b = Eq -> a = b) as Heq
    by apply String.compare_eq_iff.
  pose proof String.compare_antisym as Hanti.
  pose proof (fun a b c => string_compare_trans a b c) as Htrans.
  split; [|split; [done|split; [done|split; [|split]]]].
  - rewrite run_encoding. unfold encoding_table, select_dtypes_object.
    destruct d as [idx cols]. by apply encode_loop_map.
  - intros name s ([n s0] & [= <- <-] & _)%in_map_iff. simpl.
    by destruct s0.
  - intros name xs Hin. unfold get_col. simpl.
    rewrite assoc_get_encode, (assoc_get_NoDup _ _ _ Hnd Hin). done.
  - intros name xs Hin. split; [|split; [|split; [|split; [|split]]]].
    + unfold get_col. simpl.
      rewrite assoc_get_encode, (assoc_get_NoDup _ _ _ Hnd Hin). done.
    + by apply classes_ascending.
    + intros a. by apply classes_In.
    + intros a Ha. apply index_of_lookup; [done|done|]. by apply classes_In.
    + intros a b Ha Hb. apply index_of_compare; try done.
      * by apply classes_ascending.
      * by apply classes_In.
      * by apply classes_In.
    + done.
Qed.

Lemma encoder_codes_witness :
  exists out,
    run encoding sample = inr out
    /\ get_col "Sex" out = Some (NumCol [Some 1; Some 0; Some 0; Some 0]%Q)
    /\ get_col "Embarked" out = Some (NumCol [Some 1; Some 0; Some 2; Some 1]%Q).
Proof.
  destruct (encoder_codes sample eq_refl) as (out & Hrun & _ & _ & _ & _ & Hobj).
  exists out. split; [exact Hrun|]. split.
  - apply (Hobj "Sex" [Some "male"; Some "female"; Some "female"; Some "female"]).
    vm_compute. tauto.
  - apply (Hobj "Embarked" [Some "S"; Some "C"; None; Some "S"]).
    vm_compute. tauto.
Defined.

(** ** The scaler: statistics of a standardized column *)

Local Open Scope Q_scope.

Lemma Qsum_ext (f g : Q -> Q) l :
  (forall x, f x == g x) -> Qsum (map f l) == Qsum (map g l).
Proof.
  intros H. induction l as [|x l IH]; simpl; [reflexivity|]. by rewrite IH, H.
Qed.

Lemma Qsum_scale k l : Qsum (map (fun x => x * k) l) == Qsum l * k.
Proof.
  induction l as [|x l IH]; simpl; [ring|]. rewrite IH. ring.
Qed.

Lemma inject_succ n : inject_Z (Z.of_nat (S n)) == inject_Z (Z.of_nat n) + 1.
Proof. rewrite Nat2Z.inj_succ. unfold Z.succ. by rewrite inject_Z_plus. Qed.

Lemma inject_succ_nonzero n : ~ inject_Z (Z.of_nat (S n)) == 0.
Proof. unfold Qeq. simpl. lia. Qed.

Lemma Qsum_shift m l :
  Qsum (map (fun x => x - m) l) == Qsum l - inject_Z (Z.of_nat (length l)) * m.
Proof.
  induction l as [|x l IH]; [simpl; ring|].
  cbn [map Qsum foldr length]. fold (Qsum (map (fun x => x - m) l)). fold (Qsum l).
  rewrite IH, inject_succ. ring.
Qed.

(** The deviations from the mean add up to nothing. *)
Lemma Qsum_centered l : Qsum (map (fun x => x - mean l) l) == 0.
Proof.
  rewrite Qsum_shift. unfold mean. destruct l as [|x l]; [simpl; ring|].
  field. apply inject_succ_nonzero.
Qed.

Lemma Qsum_standardized m s l :
  Qsum (map (fun x => (x - m) / s) l) == Qsum (map (fun x => x - m) l) * / s.
Proof.
  rewrite <- Qsum_scale. rewrite <- (map_map (fun x => x - m) (fun y => y * / s)).
  reflexivity.
Qed.

Lemma mean_standardized s l : mean (map (fun x => (x - mean l) / s) l) == 0.
Proof.
  unfold mean at 1. rewrite Qsum_standardized, Qsum_centered.
  unfold Qdiv. ring.
Qed.

(** Dividing the deviations by [s] divides the variance by [s * s]. *)
Lemma variance_standardized s l :
  variance (map (fun x => (x - mean l) / s) l) == variance l * (/ s * / s).
Proof.
  unfold variance. rewrite length_map.
  pose proof (mean_standardized s l) as Hmz.
  set (zs := map (fun x => (x - mean l) / s) l) in *.
  assert (Qsum (map (fun z => (z - mean zs) * (z - mean zs)) zs)
          == Qsum (map (fun x => (x - mean l) * (x - mean l)) l) * (/ s * / s)) as ->.
  { revert Hmz. generalize (mean zs). intros mz Hmz. unfold zs.
    rewrite <- Qsum_scale, !map_map. apply Qsum_ext.
    intros x. rewrite Hmz. unfold Qdiv. ring. }
  unfold Qdiv. ring.
Qed.

Lemma present_fmap {A B} (f : A -> B) (xs : list (option A)) :
  present (map (fun x => f <$> x) xs) = map f (present xs).
Proof.
  induction xs as [|[a|] xs IH]; simpl; [done| |done]. by rewrite IH.
Qed.

Lemma present_standardize sqrt xs :
  present (standardize sqrt xs)
  = map (fun q => (q - mean (present xs)) / scale_of sqrt (present xs)) (present xs).
Proof. unfold standardize. apply present_fmap. Qed.

Lemma Qsquare_nonneg a : 0 <= a * a.
Proof. destruct a as [n d]. unfold Qle. simpl. nia. Qed.

Lemma Qsum_squares_nonneg m l : 0 <= Qsum (map (fun x => (x - m) * (x - m)) l).
Proof.
  induction l as [|x l IH]; simpl; [discriminate|].
  fold (Qsum (map (fun x => (x - m) * (x - m)) l)).
  rewrite <- (Qplus_0_l 0). apply Qplus_le_compat; [apply Qsquare_nonneg|exact IH].
Qed.

Lemma variance_nonneg l : 0 <= variance l.
Proof.
  unfold variance, Qdiv. apply Qmult_le_0_compat; [apply Qsum_squares_nonneg|].
  apply Qinv_le_0_compat. change 0 with (inject_Z 0). rewrite <- Zle_Qle. lia.
Qed.

Lemma rounding_bound_nonneg l : 0 <= rounding_bound l.
Proof.
  unfold rounding_bound.
  rewrite <- (Qplus_0_l 0). apply Qplus_le_compat; [|apply Qsquare_nonneg].
  apply Qmult_le_0_compat; [|apply variance_nonneg].
  apply Qmult_le_0_compat; [|discriminate].
  change 0 with (inject_Z 0). rewrite <- Zle_Qle. lia.
Qed.

(** A column that is told from a constant one has spread. *)
Lemma not_constant_spread l : is_constant_feature l = false -> 0 < variance l.
Proof.
  unfold is_constant_feature. intros H.
  destruct (Qlt_le_dec 0 (variance l)) as [Hv|Hv]; [done|].
  assert (Qle_bool (variance l) (rounding_bound l) = true) as Ht.
  { apply Qle_bool_iff. eapply Qle_trans; [exact Hv|apply rounding_bound_nonneg]. }
  congruence.
Qed.

Lemma clearly_spread_not_constant l : clearly_spread l -> is_constant_feature l = false.
Proof.
  unfold clearly_spread, is_constant_feature. intros H.
  destruct (Qle_bool (variance l) (rounding_bound l)) eqn:E; [|done].
  apply Qle_bool_iff in E. pose proof (rounding_bound_nonneg l) as Hb.
  revert H E Hb. generalize (rounding_bound l), (variance l). intros b v H E Hb.
  assert (inject_Z (2 ^ 20) == 1048576) as E20 by reflexivity.
  rewrite E20 in H. lra.
Qed.

Lemma clearly_constant_is_constant l : clearly_constant l -> is_constant_feature l = true.
Proof.
  unfold clearly_constant, is_constant_feature. intros H.
  apply Qle_bool_iff. pose proof (variance_nonneg l) as Hv.
  revert H Hv. generalize (rounding_bound l), (variance l). intros b v H Hv.
  assert (inject_Z (2 ^ 20) == 1048576) as E20 by reflexivity.
  rewrite E20 in H. lra.
Qed.

(** A standardized column has mean 0.  When the column is clearly
    spread and the square root is accurate to the relative error
    [delta], its variance is within [delta / (1 - delta)] of 1.  A
    column that is clearly constant keeps its variance; a column
    without spread is one of those. *)
Lemma standardize_statistics sqrt xs delta :
  let zs := present (standardize sqrt xs) in
  let v := variance (present xs) in
  mean zs == 0
  /\ (clearly_spread (present xs) ->
      0 <= delta -> delta < 1 ->
      Qabs (sqrt v * sqrt v - v) <= delta * v ->
      Qabs (variance zs - 1) <= delta / (1 - delta))
  /\ (clearly_constant (present xs) -> variance zs == v)
  /\ (v == 0 -> clearly_constant (present xs)).
Proof.
  cbv zeta. rewrite present_standardize. split; [apply mean_standardized|].
  rewrite variance_standardized. unfold scale_of. split; [|split].
  - intros Hc%clearly_spread_not_constant Hd0 Hd1 Hs. rewrite Hc.
    pose proof (not_constant_spread _ Hc) as Hv.
    revert Hs Hv. generalize (variance (present xs)). intros v.
    generalize (sqrt v). intros s Hs Hv.
    apply Qabs_Qle_condition in Hs as [Hlo Hhi].
    assert (0 < s * s) as Hss by nra.
    assert (~ s == 0) as Hne by (intros E; rewrite E in Hss; lra).
    assert (0 < 1 - delta) as Hd by lra.
    assert (v * (/ s * / s) == v / (s * s)) as -> by (by field).
    revert Hlo Hhi Hss. generalize (s * s). clear s Hne. intros t Hlo Hhi Ht.
    assert (delta / (1 - delta) * (1 - delta) == delta) as Hk by (field; lra).
    assert (0 <= delta / (1 - delta)) as Hk0 by (apply Qle_shift_div_l; lra).
    revert Hk Hk0. generalize (delta / (1 - delta)). intros k Hk Hk0.
    assert (v / t * t == v) as Hr by (field; lra).
    revert Hr. generalize (v / t). intros r Hr.
    apply Qabs_Qle_condition. split.
    + apply Qnot_lt_le. intros Hlt. nra.
    + apply Qnot_lt_le. intros Hlt. nra.
  - intros Hc%clearly_constant_is_constant. rewrite Hc. field.
  - intros Hv. unfold clearly_constant. rewrite Hv.
    pose proof (rounding_bound_nonneg (present xs)) as Hb.
    revert Hb. generalize (rounding_bound (present xs)). intros b Hb.
    assert (inject_Z (2 ^ 20) == 1048576) as E20 by reflexivity.
    rewrite E20. lra.
Qed.

Local Close Scope Q_scope.

(** ** The scaler on tables *)

Lemma as_float_num s xs ys : as_float s = inr ys -> s = NumCol xs -> ys = xs.
Proof. intros H ->. simpl in H. congruence. Qed.

Lemma standardize_cols_get sqrt d out name xs :
  standardize_cols sqrt d = inr out ->
  In name num_cols ->
  get_col name d = Some (NumCol xs) ->
  get_col name out = Some (NumCol (standardize sqrt xs)).
Proof.
  intros H Hin Hget. unfold standardize_cols in H. simpl in H.
  rewrite !has_col_get in H.
  unfold mbind, result_bind, mret, result_ret, get_cols, StandardScaler_fit_transform in H.
  destruct (get_col "Age" d) as [age|] eqn:EA, (get_col "Fare" d) as [fare|] eqn:EF;
    simpl in H; rewrite ?EA, ?EF in H; simpl in H.
  all: repeat match type of H with
              | context [match as_float ?s with _ => _ end] =>
                  destruct (as_float s) eqn:?; simpl in H; try done
              | context [if ?b then _ else _] => destruct b; simpl in H; try done
              end.
  all: injection H as <-; unfold set_cols; simpl.
  all: destruct Hin as [<-|[<-|[]]]; try congruence.
  all: rewrite ?get_set_col_eq, ?get_set_col_ne, ?get_set_col_eq by done.
  all: repeat f_equal.
  all: rewrite Hget in *;
       repeat match goal with H : Some _ = Some _ |- _ => injection H as <- end;
       simpl in *; congruence.
Qed.

Lemma mapM_log1p log1p xs : forall ys,
  mapM_result (log1p_cell log1p) xs = inr ys ->
  length ys = length xs
  /\ forall k q, xs !! k = Some (Some q) -> (-1 < q)%Q ->
       ys !! k = Some (Some (log1p q)).
Proof.
  induction xs as [|x xs IH]; simpl; intros ys.
  - intros [= <-]. split; [done|]. intros k q Hk. by rewrite lookup_nil in Hk.
  - destruct (log1p_cell log1p x) as [e|y] eqn:Ex; [done|].
    destruct (mapM_result (log1p_cell log1p) xs) as [e|ys'] eqn:Exs; [done|].
    intros [= <-]. destruct (IH ys' eq_refl) as [Hlen Hval].
    split; [simpl; by rewrite Hlen|].
    intros [|k] q Hk Hq; simpl in *; [|by eapply Hval].
    injection Hk as ->. simpl in Ex.
    rewrite (proj1 (Qgt_alt q (-1)) Hq) in Ex. congruence.
Qed.

Lemma log_fare_inv log1p d d1 :
  log_fare log1p d = inr d1 ->
  get_col "Age" d1 = get_col "Age" d
  /\ forall fare, get_col "Fare" d = Some (NumCol fare) ->
       exists logged,
         get_col "Fare" d1 = Some (NumCol logged)
         /\ mapM_result (log1p_cell log1p) fare = inr logged.
Proof.
  unfold log_fare, mbind, result_bind, mret, result_ret.
  destruct (get_col "Fare" d) as [s|] eqn:EF.
  - destruct (Series_log1p log1p s) as [e|s'] eqn:Es; [done|]. intros [= <-].
    split; [by apply get_set_col_ne|]. intros fare [= ->]. simpl in Es.
    destruct (mapM_result (log1p_cell log1p) fare) as [e|logged]; [done|].
    injection Es as <-. exists logged. split; [apply get_set_col_eq|done].
  - intros [= <-]. split; [done|]. intros fare. done.
Qed.


Lemma ln_2_bounds : (/ 2 < ln 2 < 1)%R.
Proof.
  split; [apply ln_lt_2|].
  rewrite <- (ln_exp 1). apply ln_increasing; [Lra.lra|].
  pose proof (exp_ineq1 1) as H. Lra.lra.
Qed.

(** [log1p_pade] at the fares 0 and 1: exact at 0, within a third of
    the logarithm at 1. *)
Lemma log1p_pade_close q :
  In (Some q) [Some 0; Some 1; Some 0; Some 1]%Q ->
  (Rabs (Q2R (log1p_pade q) - ln (1 + Q2R q)) <= 1 / 3)%R.
Proof.
  assert (Q2R (log1p_pade 0) = 0%R /\ Q2R 0 = 0%R
          /\ Q2R (log1p_pade 1) = (2 / 3)%R /\ Q2R 1 = 1%R) as (E0 & Z0 & E1 & Z1).
  { rewrite (Qeq_eqR (log1p_pade 0) 0), (Qeq_eqR (log1p_pade 1) (2 # 3)) by reflexivity.
    unfold Q2R. simpl. repeat split; Lra.lra. }
  pose proof ln_2_bounds as [Hlo Hhi].
  simpl. intros [[= <-]|[[= <-]|[[= <-]|[[= <-]|[]]]]].
  all: rewrite ?E0, ?Z0, ?E1, ?Z1.
  all: try (replace (1 + 0)%R with 1%R by Lra.lra; rewrite ln_1).
  all: try (replace (1 + 1)%R with 2%R by Lra.lra).
  all: apply Rabs_le; Lra.lra.
Qed.



(** The one-row table comes out as 0 for every logarithm and every
    square root: neither is consulted. *)
Lemma scaling_one_row log1p sqrt :
  run (scaling log1p sqrt) one_row = inr (mkDF [0%nat] [("Age", NumCol [Some 0%Q])]).
Proof. reflexivity. Qed.

(** ** The whole run *)

Lemma wp_try_except {A} (body : M A) handler w (Q : result A -> World -> Prop) :
  wp body w (fun res w' => match res with
                           | inr a => Q (inr a) w'
                           | inl e => wp (handler e) w' Q
                           end) ->
  wp (try_except body handler) w Q.
Proof. unfold wp, try_except. by destruct (body w) as [[e|a] w']. Qed.

Lemma wp_value {A} (m : M A) w res w' (Q : result A -> World -> Prop) :
  m w = (res, w') -> Q res w' -> wp m w Q.
Proof. unfold wp. by intros ->. Qed.

Lemma wp_eq {A} (m : M A) w x :
  wp m w (fun res w' => (res, w') = x) -> m w = x.
Proof. unfold wp. by destruct (m w). Qed.

(** A statement whose outcome is found by evaluation. *)
Ltac wp_eval :=
  lazymatch goal with
  | |- wp (mbind _ _) _ _ => apply wp_bind
  | |- wp _ _ _ => eapply wp_value; [reflexivity |]
  end; cbv beta iota; cbn [heap files trace].

(** The loader on a file that is there and parses. *)
Lemma load_data_value read_csv path text d w :
  files w !! path = Some (File text) ->
  read_csv text = inr d ->
  load_data read_csv path w =
    (inr (length (heap w)),
     mkWorld (heap w ++ [d]) (files w)
       (trace w ++ [EPrint (Text ("Loading data dari " ++ path ++ "..."));
                    EStat path; ERead path;
                    EPrint (Text ("Data berhasil dimuat. Ukuran: " ++ shape_str d))])).
Proof.
  intros Hfile Hparse. apply wp_eq. unfold load_data, pd_read_csv.
  repeat wp_eval. rewrite Hfile, bool_decide_eq_true_2 by eauto.
  repeat wp_eval. rewrite Hfile.
  repeat wp_eval. rewrite Hparse.
  repeat wp_eval.
  eapply wp_value.
  { unfold deref. cbn [heap]. rewrite lookup_app_r by lia.
    rewrite Nat.sub_diag. reflexivity. }
  cbv beta iota. repeat wp_eval. by rewrite <- !app_assoc.
Qed.

(** Lines 193-196 of [main], followed by anything. *)
Lemma stages_run {A} log1p sqrt (k : ref -> M A) r d w (Q : result A -> World -> Prop) :
  heap w !! r = Some d ->
  match transform_table log1p sqrt d with
  | inr out => forall r' w', owns w r' out w' -> wp (k r') w' Q
  | inl e => forall w', frame w w' -> Q (inl e) w'
  end ->
  wp (df ← handle_missing_values r;
      df ← feature_engineering df;
      df ← encoding df;
      df ← scaling log1p sqrt df;
      k df) w Q.
Proof.
  intros Hd HQ. unfold transform_table, mbind at 1 2 3, result_bind in HQ.
  apply wp_bind, (handle_missing_values_run r d); [done|].
  intros res1 w1 H1. unfold returns in H1.
  destruct (handle_missing_values_table d) as [e|d1], res1 as [e'|r1]; try done.
  { destruct H1 as [<- F]. by apply HQ. }
  apply wp_bind, (feature_engineering_run r1 d1); [by destruct H1|].
  intros res2 w2 H2. unfold returns in H2.
  destruct (feature_engineering_table d1) as [e|d2], res2 as [e'|r2]; try done.
  { destruct H2 as [<- F]. apply HQ. eapply frame_trans; [apply H1|done]. }
  apply (owns_weaken _ _ _ _ _ (owns_frame _ _ _ _ H1)) in H2.
  apply wp_bind, (encoding_run r2 d2); [by destruct H2|].
  intros res3 w3 H3. unfold returns in H3.
  destruct (encoding_table d2) as [e|d3], res3 as [e'|r3]; try done.
  { destruct H3 as [<- F]. apply HQ. eapply frame_trans; [apply H2|done]. }
  apply (owns_weaken _ _ _ _ _ (owns_frame _ _ _ _ H2)) in H3.
  apply wp_bind, (scaling_run log1p sqrt r3 d3); [by destruct H3|].
  intros res4 w4 H4. unfold returns in H4.
  destruct (scaling_table log1p sqrt d3) as [e|d4], res4 as [e'|r4]; try done.
  { destruct H4 as [<- F]. apply HQ. eapply frame_trans; [apply H3|done]. }
  apply (owns_weaken _ _ _ _ _ (owns_frame _ _ _ _ H3)) in H4.
  by apply HQ.
Qed.

(** The writer: the directory is made when it is missing, then the file
    is written, unless a file stands where the directory should be or a
    directory where the file should be. *)
Lemma save_data_value to_csv r out w :
  heap w !! r = Some out ->
  wp (save_data to_csv r OUTPUT_PATH) w (fun res w' =>
    heap w' = heap w
    /\ match files w !! "preprocessing", files w !! OUTPUT_PATH with
       | Some (File _), _ =>
           res = inl (FileExistsError "preprocessing") /\ files w' = files w
       | Some Dir, Some Dir =>
           res = inl (IsADirectoryError OUTPUT_PATH) /\ files w' = files w
       | None, Some Dir =>
           res = inl (IsADirectoryError OUTPUT_PATH)
           /\ files w' = <["preprocessing" := Dir]> (files w)
       | Some Dir, _ =>
           res = inr tt /\ files w' = <[OUTPUT_PATH := File (to_csv out)]> (files w)
       | None, _ =>
           res = inr tt
           /\ files w' = <[OUTPUT_PATH := File (to_csv out)]>
                           (<["preprocessing" := Dir]> (files w))
       end).
Proof.
  intros Hout.
  assert (dirname OUTPUT_PATH = "preprocessing") as Hdir by reflexivity.
  assert (parents (String.length "preprocessing") "preprocessing" = ["preprocessing"])
    as Hpar by reflexivity.
  unfold save_data, df_to_csv, os_makedirs. rewrite Hdir, Hpar.
  unfold ensure_dirs.
  repeat wp_eval.
  destruct (files w !! "preprocessing") as [[c|]|] eqn:Ep.
  - repeat wp_eval. done.
  - repeat wp_eval.
    eapply wp_value; [unfold deref; cbn [heap]; rewrite Hout; reflexivity|].
    cbv beta iota. repeat wp_eval. rewrite Ep.
    destruct (files w !! OUTPUT_PATH) as [[c|]|]; repeat wp_eval; done.
  - repeat wp_eval.
    eapply wp_value; [unfold deref; cbn [heap]; rewrite Hout; reflexivity|].
    cbv beta iota. repeat wp_eval.
    rewrite lookup_insert_eq. rewrite lookup_insert_ne by done.
    destruct (files w !! OUTPUT_PATH) as [[c|]|]; repeat wp_eval; done.
Qed.

Lemma wp_mono {A} (m : M A) w (Q Q' : result A -> World -> Prop) :
  wp m w Q -> (forall res w', Q res w' -> Q' res w') -> wp m w Q'.
Proof. unfold wp. auto. Qed.

(** X17.  [main] on an input file that is there and parses to the table
    [d].  The run always ends normally.  When one of the transformations
    raises, the error is reported and the file system is untouched.
    Otherwise the writer is reached with the table [transform_table]
    computes from [d]: it makes the output directory when it is missing
    and writes that table, or reports the error of the file system. *)
Theorem main_end_to_end read_csv to_csv log1p sqrt w text d :
  files w !! RAW_DATA_PATH = Some (File text) ->
  read_csv text = inr d ->
  let res := fst (main read_csv to_csv log1p sqrt w) in
  let w' := snd (main read_csv to_csv log1p sqrt w) in
  res = inr tt
  /\ match transform_table log1p sqrt d with
     | inl e => files w' = files w /\ In (EPrint (ErrorReport e)) (trace w')
     | inr out =>
         match files w !! "preprocessing", files w !! OUTPUT_PATH with
         | Some (File _), _ =>
             files w' = files w
             /\ In (EPrint (ErrorReport (FileExistsError "preprocessing"))) (trace w')
         | Some Dir, Some Dir =>
             files w' = files w
             /\ In (EPrint (ErrorReport (IsADirectoryError OUTPUT_PATH))) (trace w')
         | None, Some Dir =>
             files w' = <["preprocessing" := Dir]> (files w)
             /\ In (EPrint (ErrorReport (IsADirectoryError OUTPUT_PATH))) (trace w')
         | Some Dir, _ =>
             files w' = <[OUTPUT_PATH := File (to_csv out)]> (files w)
         | None, _ =>
             files w' = <[OUTPUT_PATH := File (to_csv out)]>
                          (<["preprocessing" := Dir]> (files w))
         end
     end.
Proof.
  intros Hfile Hparse.
  change (wp (main read_csv to_csv log1p sqrt) w (fun res w' =>
    res = inr tt
    /\ match transform_table log1p sqrt d with
       | inl e => files w' = files w /\ In (EPrint (ErrorReport e)) (trace w')
       | inr out =>
           match files w !! "preprocessing", files w !! OUTPUT_PATH with
           | Some (File _), _ =>
               files w' = files w
               /\ In (EPrint (ErrorReport (FileExistsError "preprocessing"))) (trace w')
           | Some Dir, Some Dir =>
               files w' = files w
               /\ In (EPrint (ErrorReport (IsADirectoryError OUTPUT_PATH))) (trace w')
           | None, Some Dir =>
               files w' = <["preprocessing" := Dir]> (files w)
               /\ In (EPrint (ErrorReport (IsADirectoryError OUTPUT_PATH))) (trace w')
           | Some Dir, _ =>
               files w' = <[OUTPUT_PATH := File (to_csv out)]> (files w)
           | None, _ =>
               files w' = <[OUTPUT_PATH := File (to_csv out)]>
                            (<["preprocessing" := Dir]> (files w))
           end
       end)).
  unfold main. apply wp_try_except, wp_bind.
  eapply wp_value; [by apply (load_data_value read_csv _ text d)|]. cbv beta iota.
  apply (stages_run log1p sqrt (fun df => save_data to_csv df OUTPUT_PATH)
           (length (heap w)) d).
  { cbn [heap]. rewrite lookup_app_r by lia. by rewrite Nat.sub_diag. }
  destruct (transform_table log1p sqrt d) as [e|out].
  - intros w' [F _ _ _]. unfold wp, log. cbn [fst snd files trace].
    split; [done|]. split; [by rewrite F|]. apply in_or_app. right. by left.
  - intros r' w' [[F _ _ _] _ Hl].
    eapply wp_mono; [by apply (save_data_value to_csv r' out)|].
    cbn [files] in F. rewrite F. intros res w2 [_ H].
    destruct (files w !! "preprocessing") as [[c|]|],
             (files w !! OUTPUT_PATH) as [[c'|]|];
      destruct H as [-> Hf]; unfold wp, log; cbn [fst snd files trace];
      repeat split; try done; apply in_or_app; right; by left.
Qed.

Lemma main_end_to_end_witness :
  files (snd (main (fun _ => inr sample) (fun d => pretty (nrows d))
                (fun x => x) (fun x => x)
                (mkWorld [] {[ RAW_DATA_PATH := File "csv" ]} [])))
  = <[OUTPUT_PATH := File "4"]>
      (<["preprocessing" := Dir]> {[ RAW_DATA_PATH := File "csv" ]}).
Proof.
  pose proof (main_end_to_end (fun _ => inr sample) (fun d => pretty (nrows d))
                (fun x => x) (fun x => x)
                (mkWorld [] {[ RAW_DATA_PATH := File "csv" ]} [])
                "csv" sample eq_refl eq_refl) as [_ H].
  assert (transform_table (fun x => x) (fun x => x) sample = inr sample4) as E
    by (vm_compute; reflexivity).
  rewrite E in H. exact H.
Defined.

(** The table [main] hands to the writer has at most the rows of the
    table the loader made. *)
Lemma transform_table_rows log1p sqrt d out :
  transform_table log1p sqrt d = inr out -> nrows out <= nrows d.
Proof.
  unfold transform_table, mbind, result_bind.
  destruct (handle_missing_values_table d) as [e|d1] eqn:E1; [done|].
  destruct (feature_engineering_table d1) as [e|d2] eqn:E2; [done|].
  destruct (encoding_table d2) as [e|d3] eqn:E3; [done|].
  intros E4.
  apply table_split in E1 as (t & Ht & ->).
  apply imputed_index in Ht.
  apply feature_engineering_index in E2. apply encode_loop_index in E3.
  apply scaling_index in E4.
  pose proof (drop_missing_le t) as Hle. unfold nrows in *. congruence.
Qed.

(** A directory at the input path passes the existence test of the
    loader; the reader then raises, still without making a table. *)
Lemma load_data_directory read_csv path w :
  files w !! path = Some Dir ->
  fst (load_data read_csv path w) = inl (IsADirectoryError path)
  /\ heap (snd (load_data read_csv path w)) = heap w
  /\ files (snd (load_data read_csv path w)) = files w.
Proof.
  intros Hdir.
  change (wp (load_data read_csv path) w (fun res w' =>
            res = inl (IsADirectoryError path)
            /\ heap w' = heap w /\ files w' = files w)).
  unfold load_data, pd_read_csv.
  repeat wp_eval. rewrite Hdir, bool_decide_eq_true_2 by eauto.
  repeat wp_eval. rewrite Hdir. repeat wp_eval. done.
Qed.

(** * Further properties *)

(** ** Well-formed tables stay well-formed *)

Lemma wf_iff d :
  wf d = true <->
  (forall n s, In (n, s) (columns d) -> Series_len s = nrows d)
  /\ NoDup (names d) /\ NoDup (index d).
Proof.
  unfold wf. rewrite !andb_true_iff, !bool_decide_eq_true, forallb_forall. split.
  - intros [[Hlen Hn] Hi]. split; [|done]. intros n s Hin.
    apply Nat.eqb_eq. apply (Hlen (n, s) Hin).
  - intros (Hlen & Hn & Hi). split; [split|]; try done.
    intros [n s] Hin. apply Nat.eqb_eq. by eapply Hlen.
Qed.

Lemma assoc_set_In name s cs n s' :
  In (n, s') (assoc_set name s cs) -> In (n, s') cs \/ (n = name /\ s' = s).
Proof.
  induction cs as [|[n0 s0] cs IH]; simpl.
  - intros [[= <- <-]|[]]. by right.
  - destruct (String.eqb name n0) eqn:E.
    + apply String.eqb_eq in E. subst n0.
      intros [[= <- <-]|Hin]; [by right|]. left. by right.
    + intros [Heq|Hin]; [left; by left|].
      destruct (IH Hin) as [?|?]; [left; by right|by right].
Qed.

Lemma assoc_set_names name s cs :
  map fst (assoc_set name s cs)
  = if existsb (String.eqb name) (map fst cs) then map fst cs
    else (map fst cs ++ [name])%list.
Proof.
  induction cs as [|[n0 s0] cs IH]; simpl; [done|].
  destruct (String.eqb name n0) eqn:E; simpl.
  - apply String.eqb_eq in E. by subst.
  - rewrite IH. by destruct (existsb (String.eqb name) (map fst cs)).
Qed.

Lemma existsb_eqb_In name (l : list string) :
  existsb (String.eqb name) l = true <-> In name l.
Proof.
  rewrite existsb_exists. split.
  - intros (x & Hx & ->%String.eqb_eq). done.
  - intros H. exists name. split; [done|]. apply String.eqb_refl.
Qed.

Lemma set_col_wf name s d :
  wf d = true -> Series_len s = nrows d -> wf (set_col name s d) = true.
Proof.
  rewrite !wf_iff. intros (Hlen & Hn & Hi) Hs. split; [|split; [|done]].
  - intros n s' [Hin|[_ ->]]%assoc_set_In; [by eapply Hlen|done].
  - unfold names, set_col. simpl. rewrite assoc_set_names.
    destruct (existsb (String.eqb name) (map fst (columns d))) eqn:E; [done|].
    apply NoDup_app. split; [done|]. split; [|apply NoDup_singleton].
    intros x Hx ->%list_elem_of_singleton.
    apply not_true_iff_false in E. apply E, existsb_eqb_In.
    by apply list_elem_of_In.
Qed.

Lemma NoDup_map_filter {A B} (f : A -> B) (P : A -> bool) l :
  NoDup (map f l) -> NoDup (map f (List.filter P l)).
Proof.
  induction l as [|x l IH]; simpl; [done|].
  intros [Hx Hl]%NoDup_cons. destruct (P x); simpl; [|by apply IH].
  apply NoDup_cons. split; [|by apply IH].
  intros Hin. apply Hx. apply list_elem_of_In in Hin.
  apply in_map_iff in Hin as (y & <- & [Hy _]%filter_In).
  apply list_elem_of_In, in_map_iff. eauto.
Qed.

Lemma drop_cols_wf ns d : wf d = true -> wf (drop_cols ns d) = true.
Proof.
  rewrite !wf_iff. intros (Hlen & Hn & Hi). split; [|split; [|done]].
  - intros n s [Hin _]%filter_In. by eapply Hlen.
  - unfold names, drop_cols. simpl. by apply NoDup_map_filter.
Qed.

Lemma filter_mask_NoDup {A} m (xs : list A) : NoDup xs -> NoDup (filter_mask m xs).
Proof.
  revert xs. induction m as [|b m IH]; intros [|x xs]; simpl; try constructor.
  intros [Hx Hxs]%NoDup_cons. destruct b; [|by apply IH].
  apply NoDup_cons. split; [|by apply IH].
  intros Hin. apply Hx. apply list_elem_of_In. eapply filter_mask_In.
  by apply list_elem_of_In.
Qed.

Lemma Series_filter_len m s (idx : list nat) :
  Series_len s = length idx ->
  Series_len (Series_filter m s) = length (filter_mask m idx).
Proof. destruct s; simpl; apply filter_mask_same_length. Qed.

Lemma dropna_wf d : wf d = true -> wf (dropna d) = true.
Proof.
  rewrite !wf_iff. intros (Hlen & Hn & Hi). split; [|split].
  - intros n s ([n0 s0] & [= <- <-] & Hin)%in_map_iff.
    unfold dropna, nrows. simpl. apply Series_filter_len. by eapply Hlen.
  - unfold names, dropna. simpl. rewrite map_map. simpl. done.
  - unfold dropna. simpl. by apply filter_mask_NoDup.
Qed.

Lemma Series_fillna_len s v : Series_len (Series_fillna s v) = Series_len s.
Proof. destruct s, v; simpl; by rewrite ?length_map. Qed.

Lemma notna_flags_len s : Series_len (notna_flags s) = Series_len s.
Proof. destruct s; simpl; by rewrite !length_map. Qed.

Lemma fill_with_wf stat name d d' :
  wf d = true -> fill_with stat name d = inr d' -> wf d' = true.
Proof.
  intros Hwf. unfold fill_with, mbind, result_bind, mret, result_ret.
  destruct (get_col name d) as [s|] eqn:E; [|by intros [= <-]].
  destruct (stat s) as [e|v]; [done|]. intros [= <-].
  apply set_col_wf; [done|]. rewrite Series_fillna_len. by eapply wf_col_len.
Qed.

Lemma flag_cabin_wf d : wf d = true -> wf (flag_cabin d) = true.
Proof.
  intros Hwf. unfold flag_cabin. destruct (get_col "Cabin" d) as [c|] eqn:E; [|done].
  apply drop_cols_wf, set_col_wf; [done|].
  rewrite notna_flags_len. by eapply wf_col_len.
Qed.

Lemma handle_missing_values_wf d out :
  wf d = true -> handle_missing_values_table d = inr out -> wf out = true.
Proof.
  intros Hwf (t & (d1 & d2 & H1 & H2 & ->)%imputed_inv & ->)%table_split.
  assert (wf (flag_cabin d2) = true) as Ht.
  { apply flag_cabin_wf. eapply fill_with_wf; [|exact H2]. by eapply fill_with_wf. }
  unfold drop_missing. destruct (Nat.ltb 0 _); [by apply dropna_wf|done].
Qed.

Lemma mapM_result_Forall2 {A B} (f : A -> result B) l : forall l',
  mapM_result f l = inr l' -> Forall2 (fun x y => f x = inr y) l l'.
Proof.
  induction l as [|x l IH]; simpl; intros l'.
  - intros [= <-]. constructor.
  - destruct (f x) as [e|y] eqn:Ex; [done|].
    destruct (mapM_result f l) as [e|ys]; [done|]. intros [= <-].
    constructor; [done|]. by apply IH.
Qed.

Lemma add_title_wf d d1 : wf d = true -> add_title d = inr d1 -> wf d1 = true.
Proof.
  intros Hwf. unfold add_title, mbind, result_bind, mret, result_ret.
  destruct (get_col "Name" d) as [s|] eqn:E; [|by intros [= <-]].
  destruct (Series_str_extract s) as [e|t] eqn:Et; [done|]. intros [= <-].
  apply set_col_wf; [done|]. rewrite <- (wf_col_len d "Name" s) by done.
  destruct s as [xs|xs]; [done|]. simpl in Et. injection Et as <-.
  simpl. unfold map_dict. by rewrite !length_map.
Qed.

Lemma Series_add_len a b s :
  Series_len a = Series_len b -> Series_add a b = inr s -> Series_len s = Series_len a.
Proof.
  destruct a as [xs|xs], b as [ys|ys]; simpl; intros Hlen.
  - intros [= <-]. simpl. rewrite length_zip_with. lia.
  - destruct (both_present xs ys); [done|]. intros [= <-]. simpl.
    rewrite length_zip_with. lia.
  - destruct (both_present xs ys); [done|]. intros [= <-]. simpl.
    rewrite length_zip_with. lia.
  - intros [= <-]. simpl. rewrite length_zip_with. lia.
Qed.

Lemma Series_add_scalar_len a k s :
  Series_add_scalar a k = inr s -> Series_len s = Series_len a.
Proof.
  destruct a as [xs|xs]; simpl.
  - intros [= <-]. simpl. by rewrite length_map.
  - destruct (existsb _ xs); [done|]. by intros [= <-].
Qed.

Lemma add_family_size_wf d d' :
  wf d = true -> add_family_size d = inr d' -> wf d' = true.
Proof.
  intros Hwf. unfold add_family_size, mbind, result_bind, mret, result_ret.
  destruct (get_col "SibSp" d) as [a|] eqn:Ea; [|by intros [= <-]].
  destruct (get_col "Parch" d) as [b|] eqn:Eb; [|by intros [= <-]].
  destruct (Series_add a b) as [e|s] eqn:Es; [done|].
  destruct (Series_add_scalar s 1) as [e|f] eqn:Ef; [done|]. intros [= <-].
  pose proof (wf_col_len _ _ _ Hwf Ea) as Ha.
  pose proof (wf_col_len _ _ _ Hwf Eb) as Hb.
  apply set_col_wf; [done|].
  rewrite (Series_add_scalar_len _ _ _ Ef).
  rewrite (Series_add_len a b s); [done|congruence|done].
Qed.

Lemma feature_engineering_wf d out :
  wf d = true -> feature_engineering_table d = inr out -> wf out = true.
Proof.
  intros Hwf (d1 & d2 & H1 & H2 & ->)%feature_engineering_inv.
  assert (wf d2 = true) as H by (eapply add_family_size_wf; [|done]; by eapply add_title_wf).
  unfold drop_unused. destruct (List.filter _ cols_to_drop); [done|].
  by apply drop_cols_wf.
Qed.

Lemma fit_transform_len s : Series_len (fit_transform s) = Series_len s.
Proof. destruct s; simpl; unfold label_codes; by rewrite length_map. Qed.

Lemma encode_loop_wf cs : forall d out,
  wf d = true -> encode_loop cs d = inr out -> wf out = true.
Proof.
  induction cs as [|c cs IH]; intros d out Hwf; simpl.
  - by intros [= <-].
  - destruct (get_col c d) as [s|] eqn:E; [|done]. apply IH.
    apply set_col_wf; [done|]. rewrite fit_transform_len. by eapply wf_col_len.
Qed.

Lemma Series_log1p_len log1p s s' :
  Series_log1p log1p s = inr s' -> Series_len s' = Series_len s.
Proof.
  destruct s as [xs|[|x xs]]; simpl; try done.
  - destruct (mapM_result (log1p_cell log1p) xs) as [e|ys] eqn:E; [done|].
    intros [= <-]. simpl. by apply mapM_log1p in E as [-> _].
  - by intros [= <-].
Qed.

Lemma log_fare_wf log1p d d' : wf d = true -> log_fare log1p d = inr d' -> wf d' = true.
Proof.
  intros Hwf. unfold log_fare, mbind, result_bind, mret, result_ret.
  destruct (get_col "Fare" d) as [s|] eqn:E; [|by intros [= <-]].
  destruct (Series_log1p log1p s) as [e|s'] eqn:Es; [done|]. intros [= <-].
  apply set_col_wf; [done|].
  rewrite (Series_log1p_len _ _ _ Es). by eapply wf_col_len.
Qed.

Lemma as_float_len s xs : as_float s = inr xs -> length xs = Series_len s.
Proof.
  destruct s as [ys|ys]; simpl; [by intros [= <-]|].
  destruct (existsb _ ys); [done|]. intros [= <-]. by rewrite length_map.
Qed.

Lemma standardize_len sqrt xs : length (standardize sqrt xs) = length xs.
Proof. unfold standardize. by rewrite length_map. Qed.

(** The scaler returns as many columns as it is given, each as long as
    the one it comes from. *)
Lemma StandardScaler_lens sqrt X X' :
  StandardScaler_fit_transform sqrt X = inr X' ->
  Forall2 (fun s s' => Series_len s' = Series_len s) X X'.
Proof.
  unfold StandardScaler_fit_transform.
  destruct (mapM_result as_float X) as [e|cols] eqn:E; [done|].
  destruct (forallb _ cols); [|done]. intros [= <-].
  apply mapM_result_Forall2 in E. induction E as [|s xs X cols Hs _ IH]; simpl.
  - constructor.
  - constructor; [|done]. simpl. rewrite standardize_len. by apply as_float_len.
Qed.

Lemma set_cols_wf cs X d :
  wf d = true ->
  Forall (fun s => Series_len s = nrows d) X ->
  wf (set_cols cs X d) = true.
Proof.
  unfold set_cols. revert X d. induction cs as [|c cs IH]; intros [|s X] d Hwf HX;
    simpl; try done.
  apply Forall_cons in HX as [Hs HX]. apply IH; [by apply set_col_wf|done].
Qed.

Lemma standardize_cols_wf sqrt d d' :
  wf d = true -> standardize_cols sqrt d = inr d' -> wf d' = true.
Proof.
  intros Hwf. unfold standardize_cols, mbind, result_bind, mret, result_ret.
  destruct (List.filter _ num_cols) as [|c cs]; [by intros [= <-]|].
  destruct (get_cols (c :: cs) d) as [e|X] eqn:EX; [done|].
  destruct (StandardScaler_fit_transform sqrt X) as [e|X'] eqn:EX'; [done|].
  intros [= <-]. apply set_cols_wf; [done|].
  apply StandardScaler_lens in EX'. apply mapM_result_Forall2 in EX.
  revert X' EX'. induction EX as [|c0 s0 cs0 X0 Hc _ IH]; intros X' EX'.
  - apply Forall2_nil_inv_l in EX'. subst. constructor.
  - apply Forall2_cons_inv_l in EX' as (s' & X'' & Hs' & HX'' & ->).
    constructor; [|by apply IH]. rewrite Hs'.
    destruct (get_col c0 d) as [s1|] eqn:E1; [|done]. injection Hc as <-.
    by eapply wf_col_len.
Qed.

Lemma scaling_wf log1p sqrt d out :
  wf d = true -> scaling_table log1p sqrt d = inr out -> wf out = true.
Proof.
  intros Hwf. unfold scaling_table, mbind, result_bind.
  destruct (log_fare log1p d) as [e|d1] eqn:E1; [done|]. intros H.
  eapply standardize_cols_wf; [|exact H]. by eapply log_fare_wf.
Qed.

(** X1.  Each of the four transformations returns a well-formed table
    when it is given one: every column is as long as the index, no
    column name and no row label occurs twice. *)
Theorem stages_keep_wf log1p sqrt (stage : ref -> M ref) d out :
  In stage [handle_missing_values; feature_engineering; encoding; scaling log1p sqrt] ->
  wf d = true ->
  run stage d = inr out ->
  wf out = true.
Proof.
  simpl. intros [<-|[<-|[<-|[<-|[]]]]] Hwf.
  - rewrite run_handle_missing_values. by apply handle_missing_values_wf.
  - rewrite run_feature_engineering. by apply feature_engineering_wf.
  - rewrite run_encoding. by apply encode_loop_wf.
  - rewrite run_scaling. by apply scaling_wf.
Qed.

Lemma stages_keep_wf_witness : wf sample4 = true.
Proof.
  apply (stages_keep_wf (fun x => x) (fun x => x)
           (scaling (fun x => x) (fun x => x)) sample3).
  - simpl. tauto.
  - apply (stages_keep_wf (fun x => x) (fun x => x) encoding sample2).
    + simpl. tauto.
    + vm_compute. reflexivity.
    + vm_compute. reflexivity.
  - vm_compute. reflexivity.
Defined.

(** ** The feature engineer: family size, dropped columns, running twice *)

Lemma set_col_same name s d : get_col name d = Some s -> set_col name s d = d.
Proof.
  destruct d as [idx cs]. unfold get_col, set_col. simpl. intros H. f_equal.
  induction cs as [|[n s0] cs IH]; simpl in *; [done|].
  destruct (String.eqb name n) eqn:E.
  - by injection H as ->.
  - by rewrite IH.
Qed.

Lemma get_col_None_has name d : get_col name d = None -> has_col name d = false.
Proof. intros H. by rewrite has_col_get, H. Qed.

Lemma drop_unused_dropped name d :
  In name cols_to_drop -> get_col name (drop_unused d) = None.
Proof.
  intros Hin. unfold drop_unused.
  destruct (List.filter (fun c => has_col c d) cols_to_drop) as [|c cs] eqn:E.
  - destruct (get_col name d) eqn:Eg; [|done].
    assert (In name (List.filter (fun c => has_col c d) cols_to_drop)) as H.
    { apply filter_In. split; [done|]. by rewrite has_col_get, Eg. }
    by rewrite E in H.
  - destruct (has_col name d) eqn:Eh.
    + apply get_drop_cols_eq. rewrite <- E. apply existsb_eqb_In, filter_In. done.
    + rewrite <- E. rewrite has_col_get in Eh.
      destruct (get_col name d) eqn:Eg; [done|].
      destruct (existsb (String.eqb name)
                  (List.filter (fun c => has_col c d) cols_to_drop)) eqn:Ex.
      * by apply get_drop_cols_eq.
      * by rewrite get_drop_cols_ne.
Qed.

Lemma add_family_size_numeric d xs ys :
  get_col "SibSp" d = Some (NumCol xs) ->
  get_col "Parch" d = Some (NumCol ys) ->
  add_family_size d
  = inr (set_col "FamilySize"
           (NumCol (zip_with (fun a b => add_opt (add_opt a b) (Some 1%Q)) xs ys)) d).
Proof.
  intros Hx Hy. unfold add_family_size. rewrite Hx, Hy. simpl.
  unfold mret, result_ret. do 3 f_equal. clear Hx Hy.
  revert ys. induction xs as [|x xs IH]; intros [|y ys]; simpl; try done.
  by rewrite IH.
Qed.

(** X2.  For a table whose [SibSp] and [Parch] columns hold counts
    (whole numbers of magnitude at most 2^51, or NaN), every table the
    feature engineer returns has a numeric [FamilySize] column whose
    entry in each row is the sum of the two entries of that row plus 1,
    and NaN where either entry is NaN. *)
Theorem family_size_counts d xs ys :
  get_col "SibSp" d = Some (NumCol xs) ->
  get_col "Parch" d = Some (NumCol ys) ->
  forallb is_count xs = true ->
  forallb is_count ys = true ->
  forall out, run feature_engineering d = inr out ->
    get_col "FamilySize" out
    = Some (NumCol (zip_with (fun a b => match a, b with
                                         | Some x, Some y => Some (x + y + 1)%Q
                                         | _, _ => None
                                         end) xs ys)).
Proof.
  intros Hx Hy _ _ out. rewrite run_feature_engineering.
  intros (d1 & d2 & H1 & H2 & ->)%feature_engineering_inv.
  rewrite drop_unused_get by done.
  rewrite (add_family_size_numeric d1 xs ys) in H2.
  - injection H2 as <-. rewrite get_set_col_eq. do 2 f_equal.
    apply zip_with_ext; [|done|done]. by intros [x|] [y|].
  - by rewrite (add_title_get d d1).
  - by rewrite (add_title_get d d1).
Qed.

Lemma family_size_counts_witness :
  exists out,
    run feature_engineering sample = inr out
    /\ get_col "FamilySize" out
       = Some (NumCol [Some (1 + 0 + 1); Some (1 + 0 + 1);
                       Some (0 + 0 + 1); Some (1 + 0 + 1)]%Q).
Proof.
  destruct (feature_engineering_returns sample eq_refl) as [out Hout].
  exists out. split; [exact Hout|].
  exact (family_size_counts sample [Some 1; Some 1; Some 0; Some 1]%Q
           [Some 0; Some 0; Some 0; Some 0]%Q eq_refl eq_refl eq_refl eq_refl out Hout).
Defined.

(** X3.  In every table the feature engineer returns there is no
    [PassengerId], [Name] or [Ticket] column, and every column under
    another name than [Title] and [FamilySize] is the column the table
    had under that name before. *)
Theorem feature_engineering_columns d out :
  run feature_engineering d = inr out ->
  (forall name, In name ["PassengerId"; "Name"; "Ticket"] -> get_col name out = None)
  /\ (forall name,
        ~ In name ["PassengerId"; "Name"; "Ticket"; "Title"; "FamilySize"] ->
        get_col name out = get_col name d).
Proof.
  rewrite run_feature_engineering.
  intros (d1 & d2 & H1 & H2 & ->)%feature_engineering_inv. split.
  - intros name Hin. by apply drop_unused_dropped.
  - intros name Hn. simpl in Hn.
    assert (name <> "PassengerId" /\ name <> "Name" /\ name <> "Ticket"
            /\ name <> "Title" /\ name <> "FamilySize") as (N1 & N2 & N3 & N4 & N5).
    { repeat split; intros ->; apply Hn; tauto. }
    rewrite drop_unused_get.
    + apply add_family_size_inv in H2 as [_ H2]. rewrite H2 by done.
      by apply (add_title_get d d1).
    + simpl. rewrite !orb_false_iff. repeat split; try done;
        by apply String.eqb_neq.
Qed.

Lemma feature_engineering_columns_witness :
  exists out,
    run feature_engineering sample = inr out
    /\ get_col "Ticket" out = None
    /\ get_col "Sex" out = get_col "Sex" sample.
Proof.
  destruct (feature_engineering_returns sample eq_refl) as [out Hout].
  destruct (feature_engineering_columns sample out Hout) as [Hdrop Hkeep].
  exists out. split; [exact Hout|]. split.
  - apply Hdrop. simpl. tauto.
  - apply Hkeep. simpl. intros H.
    repeat (destruct H as [H|H]; [discriminate H|]). exact H.
Defined.

Lemma drop_unused_again d : drop_unused (drop_unused d) = drop_unused d.
Proof.
  unfold drop_unused at 1.
  rewrite filter_none; [done|]. intros c Hc.
  apply get_col_None_has. by apply drop_unused_dropped.
Qed.

Lemma add_family_size_again d d2 :
  add_family_size d = inr d2 -> add_family_size (drop_unused d2) = inr (drop_unused d2).
Proof.
  intros H. pose proof H as Hinv. apply add_family_size_inv in Hinv as [_ Hget].
  unfold add_family_size in *. rewrite !drop_unused_get, !Hget by done.
  destruct (get_col "SibSp" d) as [a|]; [|done].
  destruct (get_col "Parch" d) as [b|]; [|done].
  unfold mbind, result_bind, mret, result_ret in *.
  destruct (Series_add a b) as [e|s]; [done|].
  destruct (Series_add_scalar s 1) as [e|f]; [done|].
  injection H as <-. f_equal. apply set_col_same.
  rewrite drop_unused_get by done. apply get_set_col_eq.
Qed.

(** X4.  Running the feature engineer on a table it returned returns
    that table again: the columns it would drop are gone already, the
    title is not derived again, and the family size comes out as it is. *)
Theorem feature_engineering_twice d out :
  run feature_engineering d = inr out ->
  run feature_engineering out = inr out.
Proof.
  rewrite !run_feature_engineering.
  intros (d1 & d2 & H1 & H2 & ->)%feature_engineering_inv.
  unfold feature_engineering_table.
  assert (add_title (drop_unused d2) = inr (drop_unused d2)) as ->.
  { unfold add_title. rewrite drop_unused_dropped; [done|]. simpl. tauto. }
  simpl. rewrite (add_family_size_again d1 d2 H2). simpl.
  unfold mret, result_ret. f_equal. apply drop_unused_again.
Qed.

Lemma feature_engineering_twice_witness :
  run feature_engineering sample = inr sample_engineered
  /\ run feature_engineering sample_engineered = inr sample_engineered.
Proof.
  assert (run feature_engineering sample = inr sample_engineered) as H
    by (vm_compute; reflexivity).
  split; [exact H|]. exact (feature_engineering_twice sample sample_engineered H).
Defined.

(** ** The missing-value handler on tables without gaps *)

Lemma count_true_no_nan cs : ~ In NaN cs -> count_true (map is_nan cs) = 0%nat.
Proof.
  unfold count_true. induction cs as [|c cs IH]; simpl; [done|]. intros H.
  destruct c; simpl; try (apply IH; tauto). exfalso. apply H. by left.
Qed.

Lemma no_missing_isnull_zero d : no_missing d -> isnull_sum_sum d = 0%nat.
Proof.
  unfold no_missing, isnull_sum_sum. induction (columns d) as [|[n s] cs IH]; simpl.
  - done.
  - intros H. rewrite isnull_cells, count_true_no_nan by (eapply H; by left).
    simpl. apply IH. intros n' s' Hin. apply (H n' s'). by right.
Qed.

Lemma fillna_no_nan s v : ~ In NaN (cells s) -> Series_fillna s v = s.
Proof.
  destruct s as [xs|xs], v as [|q|t]; simpl; try done; intros H; f_equal.
  - induction xs as [|[x|] xs IH]; simpl in *; [done| |tauto].
    rewrite IH; [done|tauto].
  - induction xs as [|[x|] xs IH]; simpl in *; [done| |tauto].
    rewrite IH; [done|tauto].
Qed.

Lemma fill_with_clean stat name d :
  no_missing d ->
  (forall s, get_col name d = Some s -> exists v, stat s = inr v) ->
  fill_with stat name d = inr d.
Proof.
  intros Hclean Hstat. unfold fill_with.
  destruct (get_col name d) as [s|] eqn:E; [|done].
  destruct (Hstat s eq_refl) as [v ->]. simpl. unfold mret, result_ret. f_equal.
  rewrite fillna_no_nan by (eapply Hclean; by apply get_col_In).
  by apply set_col_same.
Qed.

Lemma handle_missing_values_clean d :
  no_missing d -> get_col "Cabin" d = None -> can_impute d = true ->
  handle_missing_values_table d = inr d.
Proof.
  intros Hclean Hcabin [Hage Hemb]%andb_prop.
  unfold handle_missing_values_table, imputed.
  rewrite fill_with_clean; [|done|].
  2: { intros s Hs. rewrite Hs in Hage. apply median_defined. by destruct s. }
  simpl. rewrite fill_with_clean; [|done|].
  2: { intros s Hs. rewrite Hs in Hemb. by apply mode0_defined. }
  simpl. unfold flag_cabin. rewrite Hcabin. unfold mret, result_ret. f_equal.
  unfold drop_missing. by rewrite no_missing_isnull_zero.
Qed.

(** X5.  On a table that has no missing value and no [Cabin] column the
    missing-value handler changes nothing: it returns a table equal to
    the one it was given (provided it can compute the statistics at
    all: [Age] holds no text, [Embarked] is not empty). *)
Theorem handler_keeps_clean_table d :
  no_missing d ->
  get_col "Cabin" d = None ->
  can_impute d = true ->
  run handle_missing_values d = inr d.
Proof. rewrite run_handle_missing_values. apply handle_missing_values_clean. Qed.

Lemma handler_keeps_clean_table_witness :
  run handle_missing_values two_ages = inr two_ages.
Proof.
  apply handler_keeps_clean_table.
  - apply isnull_zero_no_missing. reflexivity.
  - reflexivity.
  - reflexivity.
Defined.

Lemma flag_cabin_no_cabin d : get_col "Cabin" (flag_cabin d) = None.
Proof.
  unfold flag_cabin. destruct (get_col "Cabin" d) eqn:E; [|done].
  by apply get_drop_cols_eq.
Qed.

Lemma get_col_drop_missing name t :
  get_col name (drop_missing t) = get_col name t
  \/ get_col name (drop_missing t)
     = Series_filter (map (row_complete t) (seq 0 (nrows t))) <$> get_col name t.
Proof.
  unfold drop_missing. destruct (Nat.ltb 0 (isnull_sum_sum t)); [|by left].
  right. apply get_col_dropna.
Qed.

Lemma forallb_isna_filter_mask {A} m (xs : list (option A)) :
  forallb isna xs = true -> forallb isna (filter_mask m xs) = true.
Proof.
  rewrite !forallb_forall. intros H x Hx. apply H. by eapply filter_mask_In.
Qed.

(** The [Age] column of a table the handler returns is numeric, or an
    object column without any value. *)
Lemma handled_age d out :
  handle_missing_values_table d = inr out ->
  match get_col "Age" out with
  | Some (ObjCol xs) => forallb isna xs
  | _ => true
  end = true.
Proof.
  intros (t & (d1 & d2 & H1 & H2 & ->)%imputed_inv & ->)%table_split.
  apply fill_with_inv in H1 as (_ & _ & H1).
  apply fill_with_inv in H2 as (_ & H2 & _).
  assert (match get_col "Age" (flag_cabin d2) with
          | Some (ObjCol xs) => forallb isna xs
          | _ => true
          end = true) as Ht.
  { rewrite flag_cabin_get, H2 by done.
    destruct (get_col "Age" d) as [s|] eqn:E; [|by subst; rewrite E].
    destruct H1 as (v & Hv & ->). destruct s as [xs|xs]; simpl in *.
    - by destruct v.
    - destruct (existsb (fun x => negb (isna x)) xs) eqn:Ex; [done|].
      injection Hv as <-. rewrite forallb_forall. intros x Hx.
      destruct x as [t|]; [|done]. exfalso.
      apply not_true_iff_false in Ex. apply Ex, existsb_exists. by exists (Some t). }
  destruct (get_col_drop_missing "Age" (flag_cabin d2)) as [->| ->]; [done|].
  destruct (get_col "Age" (flag_cabin d2)) as [[xs|xs]|]; simpl; try done.
  by apply forallb_isna_filter_mask.
Qed.

Lemma existsb_value s :
  ~ In NaN (cells s) -> (0 < Series_len s)%nat ->
  existsb (fun c => negb (is_nan c)) (cells s) = true.
Proof.
  rewrite <- cells_length. destruct (cells s) as [|c cs]; simpl; [lia|].
  intros H _. destruct c; simpl; try done. exfalso. apply H. by left.
Qed.

(** X6.  Running the missing-value handler on a table it returned from
    a well-formed table returns that table again, as long as the table
    has a row.  When it has no row but an [Embarked] column, the second
    run raises [KeyError]: the empty column has no mode. *)
Theorem handler_twice d out :
  wf d = true ->
  run handle_missing_values d = inr out ->
  ((0 < nrows out)%nat -> run handle_missing_values out = inr out)
  /\ (nrows out = 0%nat -> is_Some (get_col "Embarked" out) ->
      run handle_missing_values out = inl (KeyError "0")).
Proof.
  rewrite !run_handle_missing_values. intros Hwf Hout.
  pose proof (handle_missing_values_wf _ _ Hwf Hout) as Hwf'.
  pose proof (handled_age _ _ Hout) as Hage.
  assert (no_missing out /\ get_col "Cabin" out = None) as [Hclean Hcabin].
  { apply table_split in Hout as (t & (d1 & d2 & _ & _ & ->)%imputed_inv & ->).
    split; [apply drop_missing_no_missing|].
    destruct (get_col_drop_missing "Cabin" (flag_cabin d2)) as [->| ->];
      by rewrite flag_cabin_no_cabin. }
  split.
  - intros Hrows. apply handle_missing_values_clean; try done.
    unfold can_impute. rewrite Hage. simpl.
    destruct (get_col "Embarked" out) as [s|] eqn:E; [|done].
    apply existsb_value; [eapply Hclean; by apply get_col_In|].
    by rewrite (wf_col_len out "Embarked" s).
  - intros H0 [s Hs].
    assert (cells s = []) as Hnil.
    { apply length_zero_iff_nil. rewrite cells_length.
      by rewrite (wf_col_len out "Embarked" s). }
    unfold handle_missing_values_table, imputed.
    rewrite fill_with_clean; [|done|].
    2: { intros s' Hs'. rewrite Hs' in Hage. apply median_defined. by destruct s'. }
    simpl. unfold fill_with. rewrite Hs.
    assert (Series_mode0 s = inl (KeyError "0")) as ->; [|done].
    destruct s as [[|x xs]|[|x xs]]; try done.
Qed.

Lemma handler_twice_witness :
  run handle_missing_values sample = inr sample1
  /\ run handle_missing_values sample1 = inr sample1.
Proof.
  assert (run handle_missing_values sample = inr sample1) as H
    by (vm_compute; reflexivity).
  split; [exact H|].
  apply (proj1 (handler_twice sample sample1 eq_refl H)).
  vm_compute. lia.
Defined.

(** ** Imputation only fills gaps *)

Lemma fillna_cell s v k c :
  cells (Series_fillna s v) !! k = Some c ->
  cells s !! k = Some c \/ cells s !! k = Some NaN.
Proof.
  destruct s as [xs|xs], v as [|q|t]; simpl; auto; rewrite !lookup_map.
  - destruct (xs !! k) as [[x|]|]; simpl; auto.
  - destruct (xs !! k) as [[x|]|]; simpl; auto.
Qed.

Lemma labelled_fill_with stat name0 d d' name label c :
  fill_with stat name0 d = inr d' ->
  In (label, c) (labelled name d') ->
  In (label, c) (labelled name d)
  \/ (name = name0 /\ In (label, NaN) (labelled name d)).
Proof.
  intros H. pose proof H as (Hidx & Hne & Hcol)%fill_with_inv.
  unfold labelled. rewrite Hidx.
  destruct (String.eqb_spec name name0) as [->|Hn].
  - destruct (get_col name0 d) as [s|] eqn:E; [|subst; rewrite E; auto].
    destruct Hcol as (v & _ & ->).
    intros [k Hk]%list_elem_of_In%list_elem_of_lookup.
    apply lookup_zip_with_Some in Hk as (l & c' & [= <- <-] & Hl & Hc).
    destruct (fillna_cell _ _ _ _ Hc) as [Hc'|Hc']; [left|right; split; [done|]];
      apply list_elem_of_In, list_elem_of_lookup; exists k;
      apply lookup_zip_with_Some; eauto.
  - rewrite Hne by done. auto.
Qed.

Lemma labelled_flag_cabin name d :
  name <> "hasCabin" ->
  forall x, In x (labelled name (flag_cabin d)) -> In x (labelled name d).
Proof.
  intros Hn x. unfold labelled. rewrite flag_cabin_index.
  destruct (String.eqb_spec name "Cabin") as [->|Hc].
  - by rewrite flag_cabin_no_cabin.
  - by rewrite flag_cabin_get.
Qed.

(** X7.  The handler never alters a value that is there: a cell of a
    table it returns (the derived [hasCabin] column aside) is the cell
    of the same row and column of the table it was given, or it stands
    in the [Age] or [Embarked] column where that table had a gap. *)
Theorem handler_fills_only_gaps d out name label c :
  run handle_missing_values d = inr out ->
  name <> "hasCabin" ->
  In (label, c) (labelled name out) ->
  In (label, c) (labelled name d)
  \/ (In name ["Age"; "Embarked"] /\ In (label, NaN) (labelled name d)).
Proof.
  rewrite run_handle_missing_values.
  intros (t & (d1 & d2 & H1 & H2 & ->)%imputed_inv & ->)%table_split Hn Hin.
  apply labelled_drop_missing, labelled_flag_cabin in Hin; [|done].
  destruct (labelled_fill_with _ _ _ _ _ _ _ H2 Hin) as [Hin1|[-> Hin1]].
  - destruct (labelled_fill_with _ _ _ _ _ _ _ H1 Hin1) as [?|[-> ?]]; [by left|].
    right. simpl. tauto.
  - destruct (labelled_fill_with _ _ _ _ _ _ _ H1 Hin1) as [?|[? ?]]; [|done].
    right. simpl. tauto.
Qed.

Lemma handler_fills_only_gaps_witness :
  In (2%nat, Str "S") (labelled "Embarked" sample1)
  /\ In (2%nat, NaN) (labelled "Embarked" sample).
Proof.
  assert (In (2%nat, Str "S") (labelled "Embarked" sample1)) as Hin
    by (vm_compute; tauto).
  split; [exact Hin|].
  destruct (handler_fills_only_gaps sample sample1 "Embarked" 2%nat (Str "S"))
    as [H|[_ H]].
  - vm_compute. reflexivity.
  - discriminate.
  - exact Hin.
  - exfalso. revert H. vm_compute. intros H.
    repeat (destruct H as [H|H]; [discriminate H|]). exact H.
  - exact H.
Defined.

(** ** The statistics that fill the gaps *)

Lemma insert_sorted_perm x l : insert_sorted x l ≡ₚ x :: l.
Proof.
  induction l as [|y l IH]; simpl; [done|].
  destruct (Qle_bool x y); [done|]. rewrite IH. apply Permutation_swap.
Qed.

Lemma sort_Q_perm l : sort_Q l ≡ₚ l.
Proof.
  unfold sort_Q. induction l as [|x l IH]; simpl; [done|].
  by rewrite insert_sorted_perm, IH.
Qed.

Lemma insert_sorted_sorted x l :
  StronglySorted Qle l -> StronglySorted Qle (insert_sorted x l).
Proof.
  induction l as [|y l IH]; simpl; intros Hs.
  - repeat constructor.
  - apply StronglySorted_inv in Hs as [Hs Hy].
    destruct (Qle_bool x y) eqn:E.
    + apply Qle_bool_iff in E. constructor; [by constructor|].
      constructor; [done|]. eapply Forall_impl; [exact Hy|].
      simpl. intros z Hz. lra.
    + assert (y <= x)%Q as Hyx.
      { destruct (Qlt_le_dec y x) as [?|Hle]; [lra|].
        apply Qle_bool_iff in Hle. congruence. }
      constructor; [by apply IH|].
      rewrite insert_sorted_perm. by constructor.
Qed.

Lemma sort_Q_sorted l : StronglySorted Qle (sort_Q l).
Proof.
  unfold sort_Q. induction l as [|x l IH]; simpl; [constructor|].
  by apply insert_sorted_sorted.
Qed.

Lemma sorted_lookup_le s : forall i j a b,
  StronglySorted Qle s -> (i <= j)%nat ->
  s !! i = Some a -> s !! j = Some b -> (a <= b)%Q.
Proof.
  induction s as [|x s IH]; intros i j a b Hs Hij Ha Hb; [done|].
  apply StronglySorted_inv in Hs as [Hs Hx].
  destruct i as [|i], j as [|j]; simpl in *; try lia.
  - injection Ha as <-. injection Hb as <-. lra.
  - injection Ha as <-. rewrite List.Forall_forall in Hx. apply Hx.
    apply list_elem_of_In, list_elem_of_lookup. eauto.
  - eapply (IH i j); eauto. lia.
Qed.

Lemma filter_length_perm {A} (P : A -> bool) l l' :
  l ≡ₚ l' -> length (List.filter P l) = length (List.filter P l').
Proof.
  induction 1 as [|x l l' _ IH|x y l|l l' l'' _ IH1 _ IH2]; simpl.
  - done.
  - destruct (P x); simpl; by rewrite IH.
  - by destruct (P x), (P y).
  - congruence.
Qed.

(** When the first [k] elements pass, at least [k] elements pass. *)
Lemma filter_length_prefix {A} (P : A -> bool) s : forall k,
  (k <= length s)%nat ->
  (forall i x, (i < k)%nat -> s !! i = Some x -> P x = true) ->
  (k <= length (List.filter P s))%nat.
Proof.
  induction s as [|y s IH]; intros k Hk HP; simpl in *; [lia|].
  destruct k as [|k]; [lia|].
  rewrite (HP 0%nat y) by (done || lia). simpl.
  apply le_n_S, IH; [lia|]. intros i x Hi Hx. apply (HP (S i) x); [lia|done].
Qed.

(** When all elements from position [k] on pass, at least that many
    elements pass. *)
Lemma filter_length_suffix {A} (P : A -> bool) s : forall k,
  (forall i x, (k <= i)%nat -> s !! i = Some x -> P x = true) ->
  (length s - k <= length (List.filter P s))%nat.
Proof.
  induction s as [|y s IH]; intros k HP; simpl in *; [lia|].
  destruct k as [|k].
  - rewrite (HP 0%nat y) by (done || lia). simpl.
    specialize (IH 0%nat). rewrite Nat.sub_0_r in IH. apply le_n_S, IH.
    intros i x _ Hx. apply (HP (S i) x); [lia|done].
  - etrans; [apply (IH k)|].
    + intros i x Hi Hx. apply (HP (S i) x); [lia|done].
    + destruct (P y); simpl; lia.
Qed.

Lemma filter_length_mono {A} (P P' : A -> bool) l :
  (forall x, P x = true -> P' x = true) ->
  (length (List.filter P l) <= length (List.filter P' l))%nat.
Proof.
  intros H. induction l as [|x l IH]; simpl; [done|].
  destruct (P x) eqn:E.
  - rewrite (H x E). simpl. lia.
  - destruct (P' x); simpl; lia.
Qed.

Lemma Qmid a b : (a <= b -> a <= (a + b) / 2 /\ (a + b) / 2 <= b)%Q.
Proof.
  intros H. split.
  - apply Qle_shift_div_l; [reflexivity|]. lra.
  - apply Qle_shift_div_r; [reflexivity|]. lra.
Qed.

(** The median splits the values: at least half of them are not above
    it and at least half of them are not below it. *)
Lemma median_splits l m :
  median l = Some m ->
  (length l <= 2 * length (List.filter (fun x => Qle_bool x m) l))%nat
  /\ (length l <= 2 * length (List.filter (fun x => Qle_bool m x) l))%nat.
Proof.
  unfold median. pose proof (sort_Q_perm l) as Hperm.
  pose proof (sort_Q_sorted l) as Hsort.
  rewrite <- !(filter_length_perm _ _ _ Hperm), <- (Permutation_length Hperm).
  set (s := sort_Q l) in *. set (n := length s).
  destruct (Nat.eqb n 0); [done|].
  assert (n = 2 * (n / 2) + n mod 2)%nat as Hdiv by apply Nat.div_mod_eq.
  assert (n mod 2 < 2)%nat as Hmod by (by apply Nat.mod_upper_bound).
  destruct (Nat.odd n) eqn:Hodd.
  - apply Nat.odd_spec in Hodd as [h Hh]. intros Hm.
    pose proof (lookup_lt_Some _ _ _ Hm) as Hlt. fold n in Hlt. split.
    + assert (n / 2 + 1 <= length (List.filter (fun x => Qle_bool x m) s))%nat; [|lia].
      apply filter_length_prefix; [fold n; lia|].
      intros i x Hi Hx. apply Qle_bool_iff.
      eapply (sorted_lookup_le s i (n / 2)); eauto. lia.
    + assert (n - n / 2 <= length (List.filter (fun x => Qle_bool m x) s))%nat; [|lia].
      apply filter_length_suffix.
      intros i x Hi Hx. apply Qle_bool_iff.
      eapply (sorted_lookup_le s (n / 2) i); eauto.
  - rewrite <- Nat.negb_even in Hodd. apply negb_false_iff in Hodd.
    apply Nat.even_spec in Hodd as [h Hh].
    destruct (s !! (n / 2 - 1)%nat) as [a|] eqn:Ea; [|done].
    destruct (s !! (n / 2)%nat) as [b|] eqn:Eb; [|done].
    simpl. intros [= <-].
    pose proof (lookup_lt_Some _ _ _ Eb) as Hlt. fold n in Hlt.
    assert (a <= b)%Q as Hab
      by (eapply (sorted_lookup_le s (n / 2 - 1) (n / 2)); eauto; lia).
    destruct (Qmid a b Hab) as [Hlo Hhi].
    split.
    + assert (n / 2 <= length (List.filter (fun x => Qle_bool x a) s))%nat as H.
      { apply filter_length_prefix; [fold n; lia|].
        intros i x Hi Hx. apply Qle_bool_iff.
        eapply (sorted_lookup_le s i (n / 2 - 1)); eauto. lia. }
      assert (length (List.filter (fun x => Qle_bool x a) s)
              <= length (List.filter (fun x => Qle_bool x ((a + b) / 2)) s))%nat.
      { apply filter_length_mono.
        intros x Hx%Qle_bool_iff. apply Qle_bool_iff. lra. }
      lia.
    + assert (n - n / 2 <= length (List.filter (fun x => Qle_bool b x) s))%nat as H.
      { apply filter_length_suffix.
        intros i x Hi Hx. apply Qle_bool_iff.
        eapply (sorted_lookup_le s (n / 2) i); eauto. }
      assert (length (List.filter (fun x => Qle_bool b x) s)
              <= length (List.filter (fun x => Qle_bool ((a + b) / 2) x) s))%nat.
      { apply filter_length_mono.
        intros x Hx%Qle_bool_iff. apply Qle_bool_iff. lra. }
      lia.
Qed.

Lemma minimum_In {A} (leb : A -> A -> bool) l v : minimum leb l = Some v -> In v l.
Proof.
  revert v. induction l as [|x l IH]; simpl; [done|]. intros v.
  destruct (minimum leb l) as [y|]; [|intros [= <-]; by left].
  destruct (leb x y); intros [= <-]; [by left|]. right. by apply IH.
Qed.

Lemma minimum_least {A} (leb : A -> A -> bool) l v :
  (forall a b, leb a b = true \/ leb b a = true) ->
  (forall a b c, leb a b = true -> leb b c = true -> leb a c = true) ->
  minimum leb l = Some v ->
  forall y, In y l -> leb v y = true.
Proof.
  intros Htotal Htrans. revert v. induction l as [|x l IH]; simpl; [done|].
  intros v Hv y Hy.
  assert (leb x x = true) as Hrefl by (by destruct (Htotal x x)).
  destruct (minimum leb l) as [m|] eqn:Em.
  - specialize (IH m eq_refl). destruct (leb x m) eqn:E; injection Hv as <-.
    + destruct Hy as [<-|Hy]; [done|]. eapply Htrans; [exact E|]. by apply IH.
    + destruct Hy as [<-|Hy]; [|by apply IH].
      destruct (Htotal m x) as [?|?]; [done|congruence].
  - injection Hv as <-. destruct Hy as [<-|Hy]; [done|].
    destruct l; [done|]. simpl in Em.
    destruct (minimum leb l); [destruct (leb a a0)|]; done.
Qed.

Lemma max_bound {A} (f : A -> nat) l x :
  In x l -> (f x <= foldr (fun x acc => Nat.max (f x) acc) 0%nat l)%nat.
Proof.
  induction l as [|y l IH]; simpl; [done|].
  intros [->|Hin]; [lia|]. specialize (IH Hin). lia.
Qed.

(** A mode is a value of the list that no value of the list outnumbers. *)
Lemma modes_most_frequent {A} (eqb : A -> A -> bool) l v :
  In v (modes eqb l) ->
  In v l /\ forall t, In t l -> (occurrences eqb t l <= occurrences eqb v l)%nat.
Proof.
  unfold modes. intros [Hin Hocc%Nat.eqb_eq]%filter_In. split; [done|].
  intros t Ht. rewrite Hocc. apply (max_bound (fun x => occurrences eqb x l)). done.
Qed.

Lemma modes_all {A} (eqb : A -> A -> bool) l v t :
  In v (modes eqb l) -> In t l ->
  occurrences eqb t l = occurrences eqb v l -> In t (modes eqb l).
Proof.
  unfold modes. intros [Hin Hocc%Nat.eqb_eq]%filter_In Ht Heq.
  apply filter_In. split; [done|]. apply Nat.eqb_eq. congruence.
Qed.

Lemma string_leb_trans a b c :
  String.leb a b = true -> String.leb b c = true -> String.leb a c = true.
Proof.
  unfold String.leb.
  destruct (String.compare a b) eqn:Eab; try done;
    destruct (String.compare b c) eqn:Ebc; try done; intros _ _.
  - apply String.compare_eq_iff in Eab. subst. by rewrite Ebc.
  - apply String.compare_eq_iff in Eab. subst. by rewrite Ebc.
  - apply String.compare_eq_iff in Ebc. subst. by rewrite Eab.
  - by rewrite (string_compare_trans _ _ _ Eab Ebc).
Qed.

Lemma fillna_cell_value s v k c :
  cells (Series_fillna s v) !! k = Some c ->
  cells s !! k = Some c \/ (cells s !! k = Some NaN /\ c = v).
Proof.
  destruct s as [xs|xs], v as [|q|t]; simpl; auto; rewrite !lookup_map.
  - destruct (xs !! k) as [[x|]|]; simpl; auto. intros [= <-]. auto.
  - destruct (xs !! k) as [[x|]|]; simpl; auto. intros [= <-]. auto.
Qed.

Lemma labelled_fill_value stat name d d' s v label c :
  fill_with stat name d = inr d' ->
  get_col name d = Some s ->
  stat s = inr v ->
  In (label, c) (labelled name d') ->
  In (label, c) (labelled name d) \/ (c = v /\ In (label, NaN) (labelled name d)).
Proof.
  intros H Hs Hv. pose proof H as (Hidx & _ & Hcol)%fill_with_inv.
  rewrite Hs in Hcol. destruct Hcol as (v' & Hv' & Hcol).
  assert (v' = v) as -> by congruence.
  unfold labelled. rewrite Hidx, Hcol, Hs.
  intros [k Hk]%list_elem_of_In%list_elem_of_lookup.
  apply lookup_zip_with_Some in Hk as (l & c' & [= <- <-] & Hl & Hc).
  destruct (fillna_cell_value _ _ _ _ Hc) as [Hc'|[Hc' ->]];
    [left|right; split; [done|]];
    apply list_elem_of_In, list_elem_of_lookup; exists k;
    apply lookup_zip_with_Some; eauto.
Qed.

Lemma labelled_fill_other stat name0 d d' name :
  fill_with stat name0 d = inr d' -> name <> name0 ->
  labelled name d' = labelled name d.
Proof.
  intros (Hidx & Hne & _)%fill_with_inv Hn. unfold labelled.
  by rewrite Hidx, Hne.
Qed.



(** X9.  For a text [Embarked] column, the value the handler puts into
    the gaps is a value of the column that no other value of the column
    outnumbers, and among the values that occur as often it is the
    first in the order of strings.  Every [Embarked] cell of the table
    it returns is the port of that row as it was, or that value where
    the port was missing. *)
Theorem port_gaps_get_the_mode d xs out :
  get_col "Embarked" d = Some (ObjCol xs) ->
  run handle_missing_values d = inr out ->
  exists v,
    In (Some v) xs
    /\ (forall t, In (Some t) xs ->
          (occurrences String.eqb t (present xs)
           <= occurrences String.eqb v (present xs))%nat)
    /\ (forall t, In (Some t) xs ->
          occurrences String.eqb t (present xs) = occurrences String.eqb v (present xs) ->
          String.leb v t = true)
    /\ forall label c,
         In (label, c) (labelled "Embarked" out) ->
         In (label, c) (labelled "Embarked" d)
         \/ (c = Str v /\ In (label, NaN) (labelled "Embarked" d)).
Proof.
  intros Hemb. rewrite run_handle_missing_values.
  intros (t & (d1 & d2 & H1 & H2 & ->)%imputed_inv & ->)%table_split.
  assert (get_col "Embarked" d1 = Some (ObjCol xs)) as Hemb1.
  { apply fill_with_inv in H1 as (_ & Hne & _). by rewrite Hne. }
  pose proof H2 as (_ & _ & Hcol)%fill_with_inv. rewrite Hemb1 in Hcol.
  destruct Hcol as (v0 & Hv0 & _). simpl in Hv0.
  destruct (minimum String.leb (modes String.eqb (present xs))) as [v|] eqn:Emin;
    [|done]. injection Hv0 as <-.
  pose proof (minimum_In _ _ _ Emin) as Hmode.
  destruct (modes_most_frequent _ _ _ Hmode) as [Hin Hmax].
  exists v. split; [by apply present_In|]. split; [|split].
  - intros t Ht. apply Hmax. by apply present_In.
  - intros t Ht Hocc.
    apply (minimum_least String.leb _ v String.leb_total string_leb_trans Emin).
    apply (modes_all _ _ v); [done|by apply present_In|done].
  - intros label c Hin'.
    apply labelled_drop_missing, labelled_flag_cabin in Hin'; [|done].
    assert (Series_mode0 (ObjCol xs) = inr (Str v)) as Hstat
      by (simpl; by rewrite Emin).
    destruct (labelled_fill_value _ _ _ _ _ _ label c H2 Hemb1 Hstat Hin')
      as [Hl|[-> Hl]].
    + left. by rewrite <- (labelled_fill_other _ _ _ _ "Embarked" H1).
    + right. split; [done|]. by rewrite <- (labelled_fill_other _ _ _ _ "Embarked" H1).
Qed.

Lemma port_gaps_get_the_mode_witness :
  exists v,
    In (Some v) [Some "S"; Some "C"; None; Some "S"]
    /\ In (2%nat, Str v) (labelled "Embarked" sample1).
Proof.
  destruct (port_gaps_get_the_mode sample [Some "S"; Some "C"; None; Some "S"] sample1)
    as (v & Hv & Hmax & _ & _).
  - reflexivity.
  - vm_compute. reflexivity.
  - exists v. split; [exact Hv|].
    assert (v = "S") as ->.
    { simpl in Hv. destruct Hv as [[= <-]|[[= <-]|[H|[[= <-]|[]]]]]; try done.
      specialize (Hmax "S"). exfalso.
      assert (2 <= 1)%nat; [|lia]. apply Hmax. simpl. tauto. }
    vm_compute. tauto.
Defined.

(** ** The scaler: empty tables and the other columns *)

Lemma empty_column d name s :
  wf d = true -> nrows d = 0%nat -> get_col name d = Some s ->
  s = NumCol [] \/ s = ObjCol [].
Proof.
  intros Hwf H0 Hs. pose proof (wf_col_len _ _ _ Hwf Hs) as Hlen.
  rewrite H0 in Hlen. destruct s as [[|x xs]|[|x xs]]; simpl in Hlen; auto; lia.
Qed.

(** X10.  The scaler needs a row: on a well-formed table without rows
    that has an [Age] or a [Fare] column it raises [ValueError] (the
    standard scaler refuses an empty sample), whatever the column types. *)
Theorem scaler_needs_a_row log1p sqrt d :
  wf d = true ->
  nrows d = 0%nat ->
  has_col "Age" d || has_col "Fare" d = true ->
  run (scaling log1p sqrt) d = inl ValueError.
Proof.
  intros Hwf H0 Hcols. rewrite run_scaling. rewrite !has_col_get in Hcols.
  unfold scaling_table, log_fare, standardize_cols. simpl List.filter.
  pose proof (empty_column d "Age" ) as HA. pose proof (empty_column d "Fare") as HF.
  destruct (get_col "Fare" d) as [f|] eqn:EF.
  - destruct (HF f Hwf H0 eq_refl) as [-> | ->]; simpl;
      rewrite !has_col_get, get_set_col_eq, get_set_col_ne by done;
      (destruct (get_col "Age" d) as [a|] eqn:EA;
       [destruct (HA a Hwf H0 eq_refl) as [-> | ->]|]);
      unfold get_cols; simpl; rewrite ?get_set_col_eq, ?get_set_col_ne, ?EA by done;
      reflexivity.
  - simpl. rewrite !has_col_get, EF.
    destruct (get_col "Age" d) as [a|] eqn:EA; [|done].
    destruct (HA a Hwf H0 eq_refl) as [-> | ->];
      unfold get_cols; simpl; rewrite EA; reflexivity.
Qed.

Lemma scaler_needs_a_row_witness :
  exists out,
    run handle_missing_values no_ages = inr out
    /\ run (scaling (fun x => x) (fun x => x)) out = inl ValueError.
Proof.
  exists (mkDF [] [("Age", NumCol []); ("Sex", ObjCol [])]).
  split; [vm_compute; reflexivity|].
  apply scaler_needs_a_row; reflexivity.
Defined.

Lemma set_col_names name s d :
  has_col name d = true -> names (set_col name s d) = names d.
Proof.
  unfold has_col, names, set_col. simpl. intros H. by rewrite assoc_set_names, H.
Qed.

Lemma set_cols_get_ne name cs : forall X d,
  ~ In name cs -> get_col name (set_cols cs X d) = get_col name d.
Proof.
  unfold set_cols. induction cs as [|c cs IH]; intros [|s X] d Hn; simpl; try done.
  rewrite IH by (intros H; apply Hn; by right).
  apply get_set_col_ne. intros ->. apply Hn. by left.
Qed.

Lemma set_cols_names cs : forall X d,
  (forall c, In c cs -> has_col c d = true) -> names (set_cols cs X d) = names d.
Proof.
  unfold set_cols. induction cs as [|c cs IH]; intros [|s X] d Hc; simpl; try done.
  assert (names (set_col c s d) = names d) as Hn
    by (apply set_col_names, Hc; by left).
  rewrite IH; [done|]. intros c' Hc'. unfold has_col. rewrite Hn.
  apply Hc. by right.
Qed.

(** X11.  The scaler touches the [Age] and [Fare] columns only: the
    table it returns has the column names of the table it was given, in
    the same order, and every column under another name is unchanged. *)
Theorem scaler_touches_age_and_fare_only log1p sqrt d out :
  run (scaling log1p sqrt) d = inr out ->
  names out = names d
  /\ forall name, name <> "Age" -> name <> "Fare" -> get_col name out = get_col name d.
Proof.
  rewrite run_scaling. unfold scaling_table, mbind, result_bind.
  destruct (log_fare log1p d) as [e|d1] eqn:E1; [done|]. intros H2.
  assert (names d1 = names d
          /\ forall name, name <> "Fare" -> get_col name d1 = get_col name d) as [N1 G1].
  { unfold log_fare, mbind, result_bind, mret, result_ret in E1.
    destruct (get_col "Fare" d) as [f|] eqn:EF; [|by injection E1 as <-].
    destruct (Series_log1p log1p f) as [e|f']; [done|]. injection E1 as <-. split.
    - apply set_col_names. by rewrite has_col_get, EF.
    - intros name Hn. by apply get_set_col_ne. }
  unfold standardize_cols, mbind, result_bind, mret, result_ret in H2.
  destruct (List.filter (fun c => has_col c d1) num_cols) as [|c cs] eqn:Ecs.
  { injection H2 as <-. split; [done|]. intros name _ NF. by apply G1. }
  destruct (get_cols (c :: cs) d1) as [e|X]; [done|].
  destruct (StandardScaler_fit_transform sqrt X) as [e|X']; [done|].
  injection H2 as <-. rewrite <- Ecs. split.
  - rewrite set_cols_names; [done|]. by intros c' [_ Hc']%filter_In.
  - intros name NA NF. rewrite set_cols_get_ne; [by apply G1|].
    intros [Hin _]%filter_In. simpl in Hin. intuition congruence.
Qed.

Lemma scaler_touches_age_and_fare_only_witness :
  names sample4 = names sample3
  /\ get_col "Sex" sample4 = get_col "Sex" sample3.
Proof.
  destruct (scaler_touches_age_and_fare_only (fun x => x) (fun x => x) sample3 sample4)
    as [Hn Hg].
  - vm_compute. reflexivity.
  - split; [exact Hn|]. apply Hg; discriminate.
Defined.

(** ** The encoder a second time *)

Lemma encode_col_twice c : encode_col (encode_col c) = encode_col c.
Proof. by destruct c as [n [xs|xs]]. Qed.

(** X12.  Encoding is idempotent: the table [encoding] returns has no
    text column left, so a second pass returns it as it is. *)
Theorem encoding_twice d out :
  wf d = true -> run encoding d = inr out -> run encoding out = inr out.
Proof.
  unfold wf. intros [[_ Hnd%bool_decide_eq_true]%andb_prop _]%andb_prop.
  rewrite !run_encoding. unfold encoding_table, select_dtypes_object.
  destruct d as [idx cols]. unfold names in Hnd. simpl in *.
  rewrite encode_loop_map by done. intros [= <-]. simpl.
  rewrite encode_loop_map.
  - do 2 f_equal. rewrite map_map. apply map_ext. intros c. apply encode_col_twice.
  - rewrite map_map. simpl. exact Hnd.
Qed.

Lemma encoding_twice_witness : run encoding sample3 = inr sample3.
Proof.
  apply (encoding_twice sample2).
  - vm_compute. reflexivity.
  - vm_compute. reflexivity.
Defined.

(** ** The loader, whatever is at the path *)

(** X13.  [load_data] never changes the file system.  It makes an
    object only when the path holds a file that parses, and then
    exactly one: a new object holding the parsed table, whose reference
    it returns.  A directory at the path and a parse error are passed on
    as the reader raises them, a missing path is the loader's own
    [FileNotFoundError]; in all three cases the objects are as before. *)
Theorem loader_outcomes read_csv path w :
  let res := fst (load_data read_csv path w) in
  let w' := snd (load_data read_csv path w) in
  files w' = files w
  /\ match files w !! path with
     | None =>
         res = inl (FileNotFoundError ("File tidak ditemukan di: " ++ path))
         /\ heap w' = heap w
     | Some Dir => res = inl (IsADirectoryError path) /\ heap w' = heap w
     | Some (File text) =>
         match read_csv text with
         | inl e => res = inl e /\ heap w' = heap w
         | inr d => res = inr (length (heap w)) /\ heap w' = (heap w ++ [d])%list
         end
     end.
Proof.
  change (wp (load_data read_csv path) w (fun res w' =>
    files w' = files w
    /\ match files w !! path with
       | None =>
           res = inl (FileNotFoundError ("File tidak ditemukan di: " ++ path))
           /\ heap w' = heap w
       | Some Dir => res = inl (IsADirectoryError path) /\ heap w' = heap w
       | Some (File text) =>
           match read_csv text with
           | inl e => res = inl e /\ heap w' = heap w
           | inr d => res = inr (length (heap w)) /\ heap w' = (heap w ++ [d])%list
           end
       end)).
  destruct (files w !! path) as [[text|]|] eqn:E.
  - destruct (read_csv text) as [e|d] eqn:P.
    + unfold load_data, pd_read_csv.
      repeat wp_eval. rewrite E, bool_decide_eq_true_2 by eauto.
      repeat wp_eval. rewrite E. repeat wp_eval. rewrite P. repeat wp_eval. done.
    + eapply wp_value; [by apply (load_data_value read_csv path text d)|]. done.
  - unfold load_data, pd_read_csv.
    repeat wp_eval. rewrite E, bool_decide_eq_true_2 by eauto.
    repeat wp_eval. rewrite E. repeat wp_eval. done.
  - unfold load_data.
    repeat wp_eval. rewrite E, bool_decide_eq_false_2 by (intros [? ?]; done).
    repeat wp_eval. done.
Qed.

(** ** The writer, whatever the path *)

Lemma upto_last_slash_bare path : has_slash path = false -> upto_last_slash path = "".
Proof. destruct path; simpl; [done|]. by intros ->. Qed.

Lemma dirname_bare path : has_slash path = false -> dirname path = "".
Proof. intros H. unfold dirname. by rewrite upto_last_slash_bare. Qed.

(** X14.  A path without a directory part cannot be written: its
    directory name is empty, [os.makedirs] refuses the empty name, and
    [save_data] raises [FileNotFoundError] before the table is looked
    at.  No file is made or changed. *)
Theorem writer_needs_a_directory to_csv r path w :
  has_slash path = false ->
  fst (save_data to_csv r path w) = inl (FileNotFoundError "")
  /\ files (snd (save_data to_csv r path w)) = files w
  /\ heap (snd (save_data to_csv r path w)) = heap w.
Proof.
  intros H.
  change (wp (save_data to_csv r path) w (fun res w' =>
            res = inl (FileNotFoundError "") /\ files w' = files w /\ heap w' = heap w)).
  unfold save_data. rewrite (dirname_bare path H). unfold os_makedirs.
  repeat wp_eval. done.
Qed.

Lemma writer_needs_a_directory_witness :
  fst (save_data (fun _ => "csv") 0%nat "titanic_preprocessing.csv" (world_of sample))
  = inl (FileNotFoundError "").
Proof.
  apply (writer_needs_a_directory (fun _ => "csv") 0%nat "titanic_preprocessing.csv").
  reflexivity.
Defined.

Lemma wp_conj {A} (m : M A) w (Q Q' : result A -> World -> Prop) :
  wp m w Q -> wp m w Q' -> wp m w (fun res w' => Q res w' /\ Q' res w').
Proof. unfold wp. auto. Qed.

(** [os.makedirs] only adds entries. *)
Lemma ensure_dirs_extend l : forall w,
  wp (ensure_dirs l) w (fun res w' =>
    heap w' = heap w /\ files w ⊆ files w').
Proof.
  induction l as [|p l IH]; intros w; simpl.
  - apply wp_ret. done.
  - repeat wp_eval.
    destruct (files w !! p) as [[c|]|] eqn:E.
    + destruct l; repeat wp_eval; done.
    + apply IH.
    + repeat wp_eval. eapply wp_mono; [apply IH|]. cbn [heap files].
      intros res w' [Hh Hf].
      split; [done|]. etrans; [|exact Hf]. by apply insert_subseteq.
Qed.

Lemma os_makedirs_extend name w :
  wp (os_makedirs name) w (fun res w' => heap w' = heap w /\ files w ⊆ files w').
Proof.
  unfold os_makedirs. destruct name; [by apply wp_raise|]. apply ensure_dirs_extend.
Qed.

Lemma save_data_outcome to_csv r d path w :
  heap w !! r = Some d ->
  wp (save_data to_csv r path) w (fun res w' =>
    heap w' = heap w
    /\ match res with
       | inr _ => exists fs, files w ⊆ fs /\ files w' = <[path := File (to_csv d)]> fs
       | inl _ => files w ⊆ files w'
       end).
Proof.
  intros Hd. unfold save_data. repeat wp_eval.
  eapply wp_mono; [apply os_makedirs_extend|]. cbn [heap files].
  intros [e|[]] w1 [Hh Hf]; [done|].
  apply wp_bind. unfold df_to_csv. apply wp_bind.
  eapply wp_value; [unfold deref; rewrite Hh, Hd; reflexivity|]. cbv beta iota.
  repeat wp_eval.
  destruct (dirname path), (files w1 !! _) as [[c|]|], (files w1 !! path) as [[c'|]|];
    repeat wp_eval; try done; split; try done; by exists (files w1).
Qed.

(** X15.  On a file system filed under normal paths, [save_data] with
    a normal path leaves the objects alone and never removes or alters
    an entry other than the one at its path: besides writing there it
    only makes directories that are missing.  When it returns, the path
    holds the CSV text of the table. *)
Theorem writer_keeps_other_entries to_csv r d path w :
  heap w !! r = Some d ->
  normal_path path = true ->
  normal_files w ->
  let res := fst (save_data to_csv r path w) in
  let w' := snd (save_data to_csv r path w) in
  heap w' = heap w
  /\ (forall q n, q <> path -> files w !! q = Some n -> files w' !! q = Some n)
  /\ (res = inr tt -> files w' !! path = Some (File (to_csv d))).
Proof.
  intros Hd _ _.
  pose proof (save_data_outcome to_csv r d path w Hd) as H. unfold wp in H.
  intros res w'. fold res w' in H. destruct H as [Hh H]. split; [done|].
  destruct res as [e|[]].
  - split; [|done]. intros; by eapply lookup_weaken.
  - destruct H as (fs & Hfs & ->). split.
    + intros q n Hq Hn. rewrite lookup_insert_ne by done. by eapply lookup_weaken.
    + by rewrite lookup_insert_eq.
Qed.

Lemma writer_keeps_other_entries_witness :
  files (snd (save_data (fun _ => "csv") 0%nat "out/titanic.csv"
                (mkWorld [sample] {[ RAW_DATA_PATH := File "raw" ]} [])))
    !! RAW_DATA_PATH = Some (File "raw").
Proof.
  apply (writer_keeps_other_entries (fun _ => "csv") 0%nat sample "out/titanic.csv"
           (mkWorld [sample] {[ RAW_DATA_PATH := File "raw" ]} []) eq_refl eq_refl).
  - intros q [n Hq]. cbn [files] in Hq.
    apply lookup_singleton_Some in Hq as [<- _]. reflexivity.
  - discriminate.
  - reflexivity.
Defined.

(** ** The orchestrator, whatever the world *)

Lemma load_data_frame read_csv path w :
  wp (load_data read_csv path) w (fun res w' =>
    files w' = files w
    /\ match res with
       | inr r => is_Some (heap w' !! r)
       | inl _ => True
       end).
Proof.
  destruct (files w !! path) as [[text|]|] eqn:E.
  - destruct (read_csv text) as [e|d] eqn:P.
    + unfold load_data, pd_read_csv.
      repeat wp_eval. rewrite E, bool_decide_eq_true_2 by eauto.
      repeat wp_eval. rewrite E. repeat wp_eval. rewrite P. repeat wp_eval. done.
    + eapply wp_value; [by apply (load_data_value read_csv path text d)|].
      cbn [heap files]. split; [done|]. exists d.
      rewrite lookup_app_r by lia. by rewrite Nat.sub_diag.
  - unfold load_data, pd_read_csv.
    repeat wp_eval. rewrite E, bool_decide_eq_true_2 by eauto.
    repeat wp_eval. rewrite E. repeat wp_eval. done.
  - unfold load_data.
    repeat wp_eval. rewrite E, bool_decide_eq_false_2 by (intros [? ?]; done).
    repeat wp_eval. done.
Qed.

Lemma wp_then_print {A} (m : M A) s w :
  wp (m ;; print s) w (fun res w' =>
    res = inr tt -> last (trace w') = Some (EPrint (Text s))).
Proof.
  unfold wp, mbind, M_bind. destruct (m w) as [[e|a] w1]; simpl; [done|].
  intros _. apply last_snoc.
Qed.

Lemma wp_after {A B} (m : M A) (k : A -> M B) w (Q : result B -> World -> Prop) :
  (forall e w', Q (inl e) w') -> (forall a w', wp (k a) w' Q) -> wp (m ≫= k) w Q.
Proof. intros He Hk. apply wp_bind. unfold wp at 1. destruct (m w) as [[e|a] w']; simpl; auto. Qed.

Lemma save_data_last_line to_csv r path w :
  wp (save_data to_csv r path) w (fun res w' =>
    res = inr tt ->
    last (trace w')
    = Some (EPrint (Text "Data berhasil disimpan! Proses Otomatisasi Selesai."))).
Proof.
  unfold save_data. apply wp_after; [done|]. intros _ w1.
  apply wp_after; [done|]. intros _ w2. apply wp_then_print.
Qed.

(** X16.  On a file system filed under normal paths, [main] never
    raises.  Of the file system it can only change the entry at the
    output path and make the directory [preprocessing] where nothing
    was; every other entry is as it was.  The last line it prints is
    the message of success or the report of an error; after the message
    of success the output path holds the CSV text of a table. *)
Theorem main_always_returns read_csv to_csv log1p sqrt w :
  normal_files w ->
  wp (main read_csv to_csv log1p sqrt) w (fun res w' =>
    res = inr tt
    /\ (forall q, q <> OUTPUT_PATH -> q <> "preprocessing" ->
          files w' !! q = files w !! q)
    /\ (files w' !! "preprocessing" = files w !! "preprocessing"
        \/ files w !! "preprocessing" = None /\ files w' !! "preprocessing" = Some Dir)
    /\ exists l,
         last (trace w') = Some (EPrint l)
         /\ (l = Text "Data berhasil disimpan! Proses Otomatisasi Selesai."
             /\ (exists out, files w' !! OUTPUT_PATH = Some (File (to_csv out)))
             \/ exists e, l = ErrorReport e)).
Proof.
  intros _.
  assert (forall e w1,
            files w1 = files w \/
            files w !! "preprocessing" = None
            /\ files w1 = <["preprocessing" := Dir]> (files w) ->
            wp (log (EPrint (ErrorReport e))) w1 (fun res w' =>
    res = inr tt
    /\ (forall q, q <> OUTPUT_PATH -> q <> "preprocessing" ->
          files w' !! q = files w !! q)
    /\ (files w' !! "preprocessing" = files w !! "preprocessing"
        \/ files w !! "preprocessing" = None /\ files w' !! "preprocessing" = Some Dir)
    /\ exists l,
         last (trace w') = Some (EPrint l)
         /\ (l = Text "Data berhasil disimpan! Proses Otomatisasi Selesai."
             /\ (exists out, files w' !! OUTPUT_PATH = Some (File (to_csv out)))
             \/ exists e, l = ErrorReport e))) as Hfail.
  { intros e w1 Hf. unfold wp, log. cbn [fst snd files trace].
    split; [done|]. destruct Hf as [->|[Ep ->]].
    - split; [done|]. split; [by left|].
      exists (ErrorReport e). split; [apply last_snoc|]. right. by exists e.
    - split; [|split].
      + intros q _ Hq. by rewrite lookup_insert_ne.
      + right. by rewrite lookup_insert_eq.
      + exists (ErrorReport e). split; [apply last_snoc|]. right. by exists e. }
  unfold main. apply wp_try_except, wp_bind.
  eapply wp_mono; [apply load_data_frame|]. intros [e|r] w1 [Hf Hr].
  { apply Hfail. by left. }
  destruct Hr as [d Hd]. cbv beta.
  apply (stages_run log1p sqrt (fun df => save_data to_csv df OUTPUT_PATH) r d); [done|].
  destruct (transform_table log1p sqrt d) as [e|out].
  { intros w' [F _ _ _]. apply Hfail. left. congruence. }
  intros r' w' [[F _ _ _] _ Hl].
  eapply wp_mono;
    [apply wp_conj; [by apply (save_data_value to_csv r' out)|apply save_data_last_line]|].
  rewrite F, Hf. intros res w2 [[_ H] Hlast].
  destruct (files w !! "preprocessing") as [[c|]|] eqn:Ep,
           (files w !! OUTPUT_PATH) as [[c'|]|] eqn:Eo;
    destruct H as [-> Hf2];
    try (apply Hfail; by left); try (apply Hfail; by right);
    (split; [done|]); rewrite Hf2, (Hlast eq_refl).
  all: split; [|split].
  all: try (intros q Hq Hq'; by rewrite ?lookup_insert_ne by done).
  all: try (eexists; split; [reflexivity|]; left; split; [done|];
            exists out; by rewrite lookup_insert_eq).
  all: rewrite lookup_insert_ne by done.
  all: try (left; congruence).
  all: right; by rewrite lookup_insert_eq.
Qed.

Lemma main_always_returns_witness :
  fst (main (fun _ => inr sample) (fun d => pretty (nrows d)) (fun x => x) (fun x => x)
         (mkWorld [] {[ RAW_DATA_PATH := File "csv" ]} []))
  = inr tt.
Proof.
  pose proof (main_always_returns (fun _ => inr sample) (fun d => pretty (nrows d))
                (fun x => x) (fun x => x)
                (mkWorld [] {[ RAW_DATA_PATH := File "csv" ]} [])) as H.
  unfold wp in H. apply H.
  intros q [n Hq]. cbn [files] in Hq.
  apply lookup_singleton_Some in Hq as [<- _]. reflexivity.
Defined.

(** ** The scaler on fares at and below -1 *)

Lemma log1p_cell_error log1p x e : log1p_cell log1p x = inl e -> e = ValueError.
Proof.
  destruct x as [q|]; simpl; [|done]. destruct (q ?= -1)%Q; congruence.
Qed.

Lemma mapM_log1p_pole log1p q xs :
  In (Some q) xs -> (q == -1)%Q -> mapM_result (log1p_cell log1p) xs = inl ValueError.
Proof.
  intros Hin Hq. induction xs as [|x xs IH]; simpl in *; [done|].
  destruct (log1p_cell log1p x) as [e|y] eqn:Ex.
  { by rewrite (log1p_cell_error _ _ _ Ex). }
  destruct Hin as [->|Hin].
  - simpl in Ex. by rewrite (proj1 (Qeq_alt q (-1)) Hq) in Ex.
  - by rewrite IH.
Qed.

Lemma mapM_log1p_below log1p xs : forall ys,
  mapM_result (log1p_cell log1p) xs = inr ys ->
  forall k q, xs !! k = Some (Some q) -> (q < -1)%Q -> ys !! k = Some None.
Proof.
  induction xs as [|x xs IH]; simpl; intros ys.
  - intros _ k q Hk. by rewrite lookup_nil in Hk.
  - destruct (log1p_cell log1p x) as [e|y] eqn:Ex; [done|].
    destruct (mapM_result (log1p_cell log1p) xs) as [e|ys'] eqn:Exs; [done|].
    intros [= <-] [|k] q Hk Hq; simpl in *; [|by eapply IH].
    injection Hk as ->. simpl in Ex.
    rewrite (proj1 (Qlt_alt q (-1)) Hq) in Ex. congruence.
Qed.

(** X18.  Fares outside the domain of the logarithm.  A fare of
    exactly -1 makes the scaler raise [ValueError]: its logarithm is
    infinite and [StandardScaler] rejects the column.  A fare below -1
    does not: its logarithm is NaN, the scaler skips NaN, and the row
    comes back with a missing [Fare], whether or not the table had
    missing values before. *)
Theorem scaler_on_fares_out_of_range log1p sqrt d fare :
  get_col "Fare" d = Some (NumCol fare) ->
  (forall q, In (Some q) fare -> (q == -1)%Q ->
     run (scaling log1p sqrt) d = inl ValueError)
  /\ (forall out k q,
        run (scaling log1p sqrt) d = inr out ->
        fare !! k = Some (Some q) -> (q < -1)%Q ->
        exists zs, get_col "Fare" out = Some (NumCol zs) /\ zs !! k = Some None).
Proof.
  intros Hfare. rewrite run_scaling. unfold scaling_table, mbind, result_bind. split.
  - intros q Hin Hq. unfold log_fare. rewrite Hfare. unfold mbind, result_bind. simpl.
    by rewrite (mapM_log1p_pole log1p q).
  - intros out k q. destruct (log_fare log1p d) as [e|d1] eqn:E1; [done|].
    intros H Hk Hq. apply log_fare_inv in E1 as [_ HF].
    destruct (HF fare Hfare) as (logged & Hl & Hm).
    exists (standardize sqrt logged). split.
    + apply (standardize_cols_get sqrt d1); [done| |done]. simpl. tauto.
    + unfold standardize. rewrite lookup_map.
      by rewrite (mapM_log1p_below log1p fare logged Hm k q).
Qed.

Lemma scaler_on_fares_out_of_range_witness :
  exists zs,
    get_col "Fare" (table_of (run (scaling (fun x => x) (fun x => x))
                                (mkDF [0; 1; 2]%nat
                                   [("Fare", NumCol [Some (-2); Some 1; Some 3]%Q)])))
    = Some (NumCol zs)
    /\ zs !! 0%nat = Some None.
Proof.
  destruct (run (scaling (fun x => x) (fun x => x))
              (mkDF [0; 1; 2]%nat [("Fare", NumCol [Some (-2); Some 1; Some 3]%Q)]))
    as [e|out] eqn:E.
  { vm_compute in E. discriminate E. }
  simpl.
  apply (proj2 (scaler_on_fares_out_of_range (fun x => x) (fun x => x)
                  (mkDF [0; 1; 2]%nat [("Fare", NumCol [Some (-2); Some 1; Some 3]%Q)])
                  [Some (-2); Some 1; Some 3]%Q eq_refl)
           out 0%nat (-2)%Q E eq_refl).
  reflexivity.
Defined.

(** ** What the run touches *)

Lemma touches_same A w w' : trace w' = trace w -> touches A w w'.
Proof. intros Ht ev H. left. by rewrite <- Ht. Qed.

Ltac same_trace := apply touches_same; reflexivity.

Lemma touches_trans A w0 w1 w2 : touches A w0 w1 -> touches A w1 w2 -> touches A w0 w2.
Proof. intros H1 H2 ev H. destruct (H2 ev H) as [H'|H']; auto. Qed.

Lemma touches_log A ev w w' :
  (exists l, ev = EPrint l) \/ In ev A ->
  heap w' = heap w -> trace w' = (trace w ++ [ev])%list -> touches A w w'.
Proof.
  intros Hev _ Ht ev' H. rewrite Ht in H.
  apply in_app_or in H as [H|[<-|[]]]; auto.
Qed.

Lemma wp_touches_bind {A B} X (m : M A) (k : A -> M B) w :
  wp m w (fun _ w1 => touches X w w1) ->
  (forall a w1, wp (k a) w1 (fun _ w2 => touches X w1 w2)) ->
  wp (m ≫= k) w (fun _ w2 => touches X w w2).
Proof.
  intros Hm Hk. apply wp_bind. unfold wp in *. destruct (m w) as [[e|a] w1]; simpl in *.
  - done.
  - eapply touches_trans; [exact Hm|apply Hk].
Qed.

Lemma wp_touches_log X ev w :
  (exists l, ev = EPrint l) \/ In ev X ->
  wp (log ev) w (fun _ w' => touches X w w').
Proof. intros H. by apply (touches_log X ev). Qed.

Lemma load_data_touches read_csv path w :
  wp (load_data read_csv path) w (fun _ w' => touches [EStat path; ERead path] w w').
Proof.
  unfold load_data, pd_read_csv, print.
  apply wp_touches_bind; [apply wp_touches_log; eauto|]. intros _ w1.
  apply wp_touches_bind.
  { apply (touches_log _ (EStat path)); [right; by left|done..]. }
  intros found w2. apply wp_touches_bind.
  { destruct found; same_trace. }
  intros _ w3. apply wp_touches_bind.
  { apply wp_touches_bind; [apply wp_touches_log; right; right; by left|].
    intros _ w4. apply wp_touches_bind; [same_trace|].
    intros [[text|]|] w5; try same_trace.
    apply wp_touches_bind; [same_trace|]. intros d w6.
    same_trace. }
  intros r w4. apply wp_touches_bind.
  { unfold wp, deref. destruct (heap w4 !! r); same_trace. }
  intros d w5. apply wp_touches_bind; [apply wp_touches_log; eauto|].
  intros _ w6. same_trace.
Qed.

Lemma ensure_dirs_touch X l : forall w,
  (forall p, In p l -> In (EMkdir p) X) ->
  wp (ensure_dirs l) w (fun _ w' => touches X w w').
Proof.
  induction l as [|p l IH]; intros w Hl; simpl.
  - same_trace.
  - apply wp_touches_bind; [same_trace|].
    intros [[c|]|] w1.
    + destruct l; same_trace.
    + apply IH. intros; apply Hl; by right.
    + apply wp_touches_bind; [apply wp_touches_log; right; apply Hl; by left|].
      intros _ w2. apply wp_touches_bind; [same_trace|].
      intros _ w3. apply IH. intros; apply Hl; by right.
Qed.

Lemma save_data_touches to_csv r path w :
  wp (save_data to_csv r path) w (fun _ w' =>
    touches (EWrite path
             :: map EMkdir (parents (String.length (dirname path)) (dirname path))) w w').
Proof.
  unfold save_data, print.
  apply wp_touches_bind; [apply wp_touches_log; eauto|]. intros _ w1.
  apply wp_touches_bind.
  { unfold os_makedirs. destruct (dirname path) eqn:E; [same_trace|].
    apply ensure_dirs_touch. intros p Hp. right. by apply in_map. }
  intros _ w2. apply wp_touches_bind; [|intros _ w3; apply wp_touches_log; eauto].
  unfold df_to_csv. apply wp_touches_bind.
  { unfold wp, deref. destruct (heap w2 !! r); same_trace. }
  intros d w3. apply wp_touches_bind; [same_trace|]. intros parent w4.
  apply wp_touches_bind; [same_trace|]. intros n w5.
  assert (wp (log (EWrite path);; set_node path (File (to_csv d))) w5
            (fun _ w' =>
               touches (EWrite path
                 :: map EMkdir (parents (String.length (dirname path)) (dirname path)))
                 w5 w')) as Hwrite.
  { apply wp_touches_bind; [apply wp_touches_log; right; by left|].
    intros _ w6. same_trace. }
  destruct (dirname path), parent as [[c|]|], n as [[c'|]|];
    first [exact Hwrite | same_trace].
Qed.

(** X19.  What [main] does to its environment, in any world: besides
    printing, it tests and reads the input path, makes the directory
    [preprocessing] and writes the output path.  It never reads, makes
    or writes anything else. *)
Theorem main_touches_two_paths read_csv to_csv log1p sqrt w :
  wp (main read_csv to_csv log1p sqrt) w (fun _ w' =>
    touches [EStat RAW_DATA_PATH; ERead RAW_DATA_PATH;
             EMkdir "preprocessing"; EWrite OUTPUT_PATH] w w').
Proof.
  assert (forall X Y w0 w1, (forall ev, In ev X -> In ev Y) ->
            touches X w0 w1 -> touches Y w0 w1) as Hsub.
  { intros X Y w0 w1 HXY H ev Hev. destruct (H ev Hev) as [?|[?|?]]; auto. }
  assert (forall e w0 w1,
            touches [EStat RAW_DATA_PATH; ERead RAW_DATA_PATH;
                     EMkdir "preprocessing"; EWrite OUTPUT_PATH] w0 w1 ->
            wp (log (EPrint (ErrorReport e))) w1 (fun _ w' =>
              touches [EStat RAW_DATA_PATH; ERead RAW_DATA_PATH;
                       EMkdir "preprocessing"; EWrite OUTPUT_PATH] w0 w')) as Hfail.
  { intros e w0 w1 H. eapply touches_trans; [exact H|].
    apply wp_touches_log. eauto. }
  unfold main. apply wp_try_except, wp_bind.
  eapply wp_mono; [apply wp_conj; [apply load_data_frame|apply load_data_touches]|].
  intros [e|r] w1 [[Hf Hr] Ht].
  { apply Hfail. eapply Hsub; [|exact Ht]. simpl. tauto. }
  destruct Hr as [d Hd]. cbv beta.
  apply (stages_run log1p sqrt (fun df => save_data to_csv df OUTPUT_PATH) r d); [done|].
  assert (forall w', frame w1 w' ->
            touches [EStat RAW_DATA_PATH; ERead RAW_DATA_PATH;
                     EMkdir "preprocessing"; EWrite OUTPUT_PATH] w w') as Hframe.
  { intros w' [_ _ _ T]. eapply touches_trans; [eapply Hsub; [|exact Ht]; simpl; tauto|].
    intros ev Hev. destruct (T ev Hev); auto. }
  destruct (transform_table log1p sqrt d) as [e|out].
  { intros w' F. apply Hfail. by apply Hframe. }
  intros r' w' [F _ _].
  eapply wp_mono; [apply save_data_touches|].
  intros res w2 H2.
  assert (touches [EStat RAW_DATA_PATH; ERead RAW_DATA_PATH;
                   EMkdir "preprocessing"; EWrite OUTPUT_PATH] w w2) as H.
  { eapply touches_trans; [by apply Hframe|]. eapply Hsub; [|exact H2].
    simpl. tauto. }
  destruct res as [e|[]]; [by apply Hfail|exact H].
Qed.

(** ** The table that is written *)

Lemma all_numeric_spec d :
  all_numeric d = true <-> forall n s, In (n, s) (columns d) -> is_object s = false.
Proof.
  unfold all_numeric. rewrite forallb_forall. split.
  - intros H n s Hin. specialize (H _ Hin). simpl in H. by destruct (is_object s).
  - intros H [n s] Hin. simpl. by rewrite (H n s Hin).
Qed.

Lemma set_col_numeric name s d :
  all_numeric d = true -> is_object s = false -> all_numeric (set_col name s d) = true.
Proof.
  rewrite !all_numeric_spec. intros Hd Hs n s' [Hin|[_ ->]]%assoc_set_In; [|done].
  by eapply Hd.
Qed.

Lemma set_cols_numeric cs : forall X d,
  all_numeric d = true -> Forall (fun s => is_object s = false) X ->
  all_numeric (set_cols cs X d) = true.
Proof.
  unfold set_cols. induction cs as [|c cs IH]; intros [|s X] d Hd HX; simpl; try done.
  apply Forall_cons in HX as [Hs HX]. apply IH; [|done]. by apply set_col_numeric.
Qed.

Lemma encoding_numeric d out :
  wf d = true -> encoding_table d = inr out -> all_numeric out = true.
Proof.
  unfold wf. intros [[_ Hnd%bool_decide_eq_true]%andb_prop _]%andb_prop.
  unfold encoding_table, select_dtypes_object.
  destruct d as [idx cols]. unfold names in Hnd. simpl in *.
  rewrite encode_loop_map by done. intros [= <-].
  apply all_numeric_spec. simpl. intros n s ([n0 s0] & [= <- <-] & _)%in_map_iff.
  by destruct s0.
Qed.

Lemma scaling_numeric log1p sqrt d out :
  all_numeric d = true -> scaling_table log1p sqrt d = inr out -> all_numeric out = true.
Proof.
  intros Hd. unfold scaling_table, mbind, result_bind.
  destruct (log_fare log1p d) as [e|d1] eqn:E1; [done|].
  assert (all_numeric d1 = true) as H1.
  { unfold log_fare, mbind, result_bind, mret, result_ret in E1.
    destruct (get_col "Fare" d) as [f|] eqn:EF; [|by injection E1 as <-].
    destruct (Series_log1p log1p f) as [e|f'] eqn:Ef; [done|]. injection E1 as <-.
    apply set_col_numeric; [done|].
    destruct f as [xs|xs].
    - simpl in Ef. destruct (mapM_result (log1p_cell log1p) xs); [done|].
      by injection Ef as <-.
    - pose proof (proj1 (all_numeric_spec d) Hd _ _ (get_col_In _ _ _ EF)). done. }
  unfold standardize_cols, mbind, result_bind, mret, result_ret.
  destruct (List.filter _ num_cols) as [|c cs]; [by intros [= <-]|].
  destruct (get_cols (c :: cs) d1) as [e|X]; [done|].
  destruct (StandardScaler_fit_transform sqrt X) as [e|X'] eqn:EX'; [done|].
  intros [= <-]. apply set_cols_numeric; [done|].
  unfold StandardScaler_fit_transform in EX'.
  destruct (mapM_result as_float X) as [e|cols]; [done|].
  destruct (forallb _ cols); [|done]. injection EX' as <-.
  apply List.Forall_forall. intros s (xs & <- & _)%in_map_iff. done.
Qed.

(** X20.  The table [main] hands to the writer holds numbers only:
    whenever the four transformations return on a well-formed table,
    the result is well-formed and none of its columns is text. *)
Theorem written_table_is_numeric log1p sqrt d out :
  wf d = true ->
  transform_table log1p sqrt d = inr out ->
  wf out = true /\ all_numeric out = true.
Proof.
  intros Hwf. unfold transform_table, mbind, result_bind.
  destruct (handle_missing_values_table d) as [e|d1] eqn:E1; [done|].
  destruct (feature_engineering_table d1) as [e|d2] eqn:E2; [done|].
  destruct (encoding_table d2) as [e|d3] eqn:E3; [done|].
  intros E4.
  assert (wf d2 = true) as Hwf2.
  { eapply feature_engineering_wf; [|exact E2]. by eapply handle_missing_values_wf. }
  split.
  - eapply scaling_wf; [|exact E4]. by eapply encode_loop_wf.
  - eapply scaling_numeric; [|exact E4]. by eapply encoding_numeric.
Qed.

Lemma written_table_is_numeric_witness :
  wf sample4 = true /\ all_numeric sample4 = true.
Proof.
  apply (written_table_is_numeric (fun x => x) (fun x => x) sample).
  - vm_compute. reflexivity.
  - vm_compute. reflexivity.
Defined.

(** ** The range of the titles *)

Lemma title_mapping_range k v :
  dict_get k title_mapping = Some v -> In v ["Mr"; "Miss"; "Mrs"; "Master"; "Rare"].
Proof.
  unfold title_mapping, dict_get.
  repeat (destruct (String.eqb k _); [intros [= <-]; simpl; tauto|]). done.
Qed.

Lemma title_of_range n : In (title_of n) ["Mr"; "Miss"; "Mrs"; "Master"; "Rare"].
Proof.
  unfold title_of. destruct (n ≫= extract_title) as [t|]; [|simpl; tauto].
  destruct (dict_get t title_mapping) as [v|] eqn:E; [|simpl; tauto].
  by apply (title_mapping_range t).
Qed.

(** X21.  The [Title] column the feature engineer makes from a text
    [Name] column has one title for every name, never a missing value,
    and each title is one of Mr, Miss, Mrs, Master and Rare. *)
Theorem title_is_one_of_five d xs out :
  get_col "Name" d = Some (ObjCol xs) ->
  run feature_engineering d = inr out ->
  exists ts,
    get_col "Title" out = Some (ObjCol ts)
    /\ length ts = length xs
    /\ forall c, In c ts ->
         exists t, c = Some t /\ In t ["Mr"; "Miss"; "Mrs"; "Master"; "Rare"].
Proof.
  intros Hname. rewrite run_feature_engineering.
  intros (d1 & d2 & H1 & H2 & ->)%feature_engineering_inv.
  exists (map (fun n => Some (title_of n)) xs). split; [|split].
  - rewrite drop_unused_get by done.
    apply add_family_size_inv in H2 as [_ H2]. rewrite H2 by done.
    unfold add_title in H1. rewrite Hname in H1. simpl in H1.
    injection H1 as <-. rewrite get_set_col_eq. f_equal.
    apply (titles_of_names xs).
  - apply length_map.
  - intros c (n & <- & _)%in_map_iff. exists (title_of n). split; [done|].
    apply title_of_range.
Qed.

Lemma title_is_one_of_five_witness :
  exists ts,
    get_col "Title" sample_engineered = Some (ObjCol ts) /\ length ts = 4%nat.
Proof.
  destruct (title_is_one_of_five sample
              [Some "Braund, Mr. Owen Harris";
               Some "Cumings, Mrs. John Bradley (Florence Briggs Thayer)";
               Some "Heikkinen, Miss. Laina";
               Some "Futrelle, Mrs. Jacques Heath (Lily May Peel)"]
              sample_engineered eq_refl)
    as (ts & Ht & Hlen & _).
  - vm_compute. reflexivity.
  - exists ts. split; [exact Ht|exact Hlen].
Defined.
